(** * slo-advisor: token budgeting, section chunking and the OpenAI call loop

    A shallow embedding of [scripts/slo-advisor/generate-slo-guide.py]:
    [estimate_tokens], [check_token_limit], [chunk_discovery_content]
    and [call_openai_api], with the properties the specification states
    about them.

    Conventions.
    - A Python [str] is a list of Unicode code points ([text]); [len] is
      [length], [+] is [++].
    - A Python [int] is a [Z]; [//] on the non-negative lengths used here
      is [Z.div].
    - A finite Python [float] of seconds is the rational it is ([Q]);
      where a float overflows, or [time.sleep] refuses a length, the
      exception is written out.
    - [tiktoken] and the OpenAI client are outside the repository: the
      tokenizer is an argument of the estimator, the client is a function
      from the call number to what that call does. *)

From Stdlib Require Import Ascii String List ZArith NArith QArith Bool Lia.
From Stdlib Require Import DecimalString.
Import ListNotations.

Local Open Scope Z_scope.

(* ================================================================== *)
(** ** Text *)
(* ================================================================== *)

Definition char := N.
Definition text := list char.

(** Code points of a literal written with 8-bit characters. *)
Definition txt (s : string) : text :=
  map N_of_ascii (list_ascii_of_string s).

Definition char_eqb (a b : char) : bool := N.eqb a b.

Fixpoint text_eqb (a b : text) : bool :=
  match a, b with
  | [], [] => true
  | x :: a', y :: b' => char_eqb x y && text_eqb a' b'
  | _, _ => false
  end.

Definition NL : char := 10%N.
Definition HASH : char := 35%N.

(** [str.startswith]. *)
Fixpoint startswith (t prefix : text) : bool :=
  match prefix with
  | [] => true
  | p :: prefix' =>
      match t with
      | c :: t' => char_eqb c p && startswith t' prefix'
      | [] => false
      end
  end.

(** [needle in haystack] on strings. *)
Fixpoint contains (haystack needle : text) : bool :=
  startswith haystack needle ||
  match haystack with
  | [] => false
  | _ :: h' => contains h' needle
  end.

(** The characters for which [str.isspace] holds; the same set is the
    class [\s] of [re] on [str] patterns and what [str.strip()] removes. *)
Definition isspace (c : char) : bool :=
  ((9 <=? c) && (c <=? 13) || (28 <=? c) && (c <=? 32) ||
   (c =? 133) || (c =? 160) || (c =? 5760) ||
   (8192 <=? c) && (c <=? 8202) ||
   (c =? 8232) || (c =? 8233) || (c =? 8239) || (c =? 8287) ||
   (c =? 12288))%N.

(** Truth value of a string: non-empty. *)
Definition truthy (t : text) : bool :=
  match t with [] => false | _ :: _ => true end.

(** [sep.join(parts)]. *)
Fixpoint join (sep : text) (parts : list text) : text :=
  match parts with
  | [] => []
  | [p] => p
  | p :: rest => p ++ sep ++ join sep rest
  end.

(** Decimal rendering of an integer, as [str(n)] and [f"{n}"] give it. *)
Definition str_int (z : Z) : text :=
  txt (NilEmpty.string_of_int (Z.to_int z)).

(* ================================================================== *)
(** ** Token Estimator and Budget Checker *)
(* ================================================================== *)

(** What [tiktoken.get_encoding(name).encode(text)] does: it yields a
    list of token ids or raises an [Exception]. *)
Inductive encode_outcome :=
| Encoded (ids : list N)
| EncodeRaised.

(** The tokenizer, by encoding name.  [None] stands for
    [HAS_TIKTOKEN = False] (the import failed). *)
Definition tokenizer := text -> text -> encode_outcome.

Definition encoding_map : list (text * text) :=
  [ (txt "gpt-4", txt "cl100k_base");
    (txt "gpt-4-turbo", txt "cl100k_base");
    (txt "gpt-3.5-turbo", txt "cl100k_base") ].

(** [d.get(key, default)] on a dict written as its item list. *)
Fixpoint dict_get {V : Type} (d : list (text * V)) (key : text) (default : V) : V :=
  match d with
  | [] => default
  | (k, v) :: d' => if text_eqb k key then v else dict_get d' key default
  end.

Definition heuristic_tokens (t : text) : Z := Z.of_nat (length t) / 4.

Definition estimate_tokens (tiktoken : option tokenizer) (t : text) (model : text) : Z :=
  match tiktoken with
  | Some tk =>
      let encoding_name := dict_get encoding_map model (txt "cl100k_base") in
      match tk encoding_name t with
      | Encoded ids => Z.of_nat (length ids)
      | EncodeRaised => heuristic_tokens t
      end
  | None => heuristic_tokens t
  end.

(** What is assumed of an exact tokenizer for the empty-text case: when
    it encodes the empty text it yields no token. *)
Definition empty_to_empty (tiktoken : option tokenizer) : Prop :=
  forall tk enc ids, tiktoken = Some tk -> tk enc [] = Encoded ids -> ids = [].

Definition MODEL_TOKEN_LIMITS : list (text * Z) :=
  [ (txt "gpt-4", 7000);
    (txt "gpt-4-turbo", 100000);
    (txt "gpt-3.5-turbo", 14000) ].

(** [MODEL_TOKEN_LIMITS["gpt-4"]]: the key is present, the subscript
    does not raise. *)
Definition default_limit : Z := dict_get MODEL_TOKEN_LIMITS (txt "gpt-4") 0.

Definition check_token_limit (tiktoken : option tokenizer)
    (discovery_content observability_platform model : text) : bool * Z * Z :=
  let discovery_tokens := estimate_tokens tiktoken discovery_content model in
  let limit := dict_get MODEL_TOKEN_LIMITS model default_limit in
  let exceeds_limit := discovery_tokens >? limit in
  (exceeds_limit, discovery_tokens, limit).

(** A key of the limits table. *)
Definition known_model (model : text) : bool :=
  existsb (fun kv => text_eqb (fst kv) model) MODEL_TOKEN_LIMITS.

(* ================================================================== *)
(** ** Regular expressions: the fragment of [re] the chunker uses *)
(* ================================================================== *)

(** One-character patterns: a literal, [\s], and [.] (anything but a
    newline, no DOTALL flag). *)
Inductive atom :=
| Lit (c : char)
| Space
| Dot.

Definition atom_matches (a : atom) (c : char) : bool :=
  match a with
  | Lit x => char_eqb c x
  | Space => isspace c
  | Dot => negb (char_eqb c NL)
  end.

(** A pattern is a sequence of: one atom, [a+] (greedy), [a+?] (lazy),
    and the parentheses of the single capture group. *)
Inductive node :=
| One (a : atom)
| Plus (a : atom)
| PlusLazy (a : atom)
| GroupOpen
| GroupClose.

Definition regex := list node.

(** Nodes other than the group parentheses. *)
Definition plain (n : node) : Prop :=
  match n with
  | One _ | Plus _ | PlusLazy _ => True
  | GroupOpen | GroupClose => False
  end.

(** The capture in progress: whether the group is open, and its
    characters so far, last first. *)
Definition capture := (bool * text)%type.

Definition push (c : char) (g : capture) : capture :=
  if fst g then (true, c :: snd g) else g.

(** What remains to be matched: from the rest of the input and the
    capture to the captured group and the input after the match. *)
Definition continuation := text -> capture -> option (text * text).

(** [a+]: take as many as possible, give back one at a time. *)
Fixpoint plus_greedy (a : atom) (k : continuation) (s : text) (g : capture)
  : option (text * text) :=
  match s with
  | c :: s' =>
      if atom_matches a c then
        match plus_greedy a k s' (push c g) with
        | Some r => Some r
        | None => k s' (push c g)
        end
      else None
  | [] => None
  end.

(** [a+?]: take one, then as few more as the rest of the pattern allows. *)
Fixpoint plus_lazy (a : atom) (k : continuation) (s : text) (g : capture)
  : option (text * text) :=
  match s with
  | c :: s' =>
      if atom_matches a c then
        match k s' (push c g) with
        | Some r => Some r
        | None => plus_lazy a k s' (push c g)
        end
      else None
  | [] => None
  end.

(** Backtracking match of a pattern at the start of the input. *)
Fixpoint re_match (r : regex) : continuation :=
  match r with
  | [] => fun s g => Some (rev (snd g), s)
  | One a :: r' =>
      fun s g =>
        match s with
        | c :: s' => if atom_matches a c then re_match r' s' (push c g) else None
        | [] => None
        end
  | Plus a :: r' => plus_greedy a (re_match r')
  | PlusLazy a :: r' => plus_lazy a (re_match r')
  | GroupOpen :: r' => fun s _ => re_match r' s (true, [])
  | GroupClose :: r' => fun s g => re_match r' s (false, snd g)
  end.

Definition match_at (r : regex) (s : text) : option (text * text) :=
  re_match r s (false, []).

(** [re.split(r, s)] for a pattern with one group that never matches
    the empty string: the text before each leftmost match, the group,
    and so on after the match; [skip] counts the characters of the
    current match still to pass over, [piece] holds the text since the
    last match, last character first. *)
Fixpoint split_from (r : regex) (s : text) (skip : nat) (piece : text) : list text :=
  match s with
  | [] => [rev piece]
  | c :: s' =>
      match skip with
      | S n => split_from r s' n piece
      | O =>
          match match_at r s with
          | Some (group, rest) =>
              rev piece :: group :: split_from r s' (length s' - length rest) []
          | None => split_from r s' O (c :: piece)
          end
      end
  end.

Definition re_split (r : regex) (s : text) : list text := split_from r s O [].

(** [re.search(r, s) is None]. *)
Fixpoint no_match (r : regex) (s : text) : bool :=
  match match_at r s with
  | Some _ => false
  | None => match s with [] => true | _ :: s' => no_match r s' end
  end.

(** [r'\n(##\s+.+?)\n'] and [r'\n(###\s+.+?)\n']. *)
Definition heading (hashes : nat) : regex :=
  [One (Lit NL); GroupOpen] ++ repeat (One (Lit HASH)) hashes ++
  [Plus Space; PlusLazy Dot; GroupClose; One (Lit NL)].

Definition major_heading : regex := heading 2.
Definition minor_heading : regex := heading 3.

(* ================================================================== *)
(** ** Section-Aware Chunker *)
(* ================================================================== *)

(** The three loop variables of [chunk_discovery_content]. *)
Record buffer := {
  chunks : list text;
  current_chunk : text;
  current_tokens : Z
}.

Definition empty_buffer : buffer :=
  {| chunks := []; current_chunk := []; current_tokens := 0 |}.

Section Chunker.

(** [lambda t: estimate_tokens(t, model)] and [max_tokens]. *)
Variable est : text -> Z.
Variable max_tokens : Z.

(** The block the source writes four times (for [subsec], for
    [section_with_header] and twice for [section]): close the running
    chunk when the piece would take it over the budget and it is not
    empty, else append the piece after a blank line. *)
Definition accumulate (b : buffer) (piece : text) : buffer :=
  let piece_tokens := est piece in
  if (current_tokens b + piece_tokens >? max_tokens) && truthy (current_chunk b)
  then {| chunks := chunks b ++ [current_chunk b];
          current_chunk := piece;
          current_tokens := piece_tokens |}
  else {| chunks := chunks b;
          current_chunk :=
            current_chunk b ++
            (if truthy (current_chunk b) then [NL; NL] ++ piece else piece);
          current_tokens := current_tokens b + piece_tokens |}.

(** [for j in range(0, len(subsections), 2)]: the pieces are taken two
    by two, each pair joined by a newline, a last odd one alone. *)
Fixpoint subsection_loop (subsections : list text) (b : buffer) : buffer :=
  match subsections with
  | [] => b
  | [last] => accumulate b last
  | s0 :: s1 :: rest => subsection_loop rest (accumulate b (s0 ++ [NL] ++ s1))
  end.

(** [while i < len(sections)]: a piece that starts with [##] is joined
    with the piece after it ([i += 2]) and split on minor headings when
    the pair is over the budget; any other piece is taken alone. *)
Fixpoint section_loop (sections : list text) (b : buffer) : buffer :=
  match sections with
  | [] => b
  | section :: rest =>
      if startswith section [HASH; HASH] then
        match rest with
        | next :: rest' =>
            let section_with_header := section ++ [NL] ++ next in
            let section_tokens := est section_with_header in
            section_loop rest'
              (if section_tokens >? max_tokens
               then subsection_loop (re_split minor_heading section_with_header) b
               else accumulate b section_with_header)
        | [] => accumulate b section
        end
      else section_loop rest (accumulate b section)
  end.

Definition finish (discovery_content : text) (b : buffer) : list text :=
  let chunks' :=
    if truthy (current_chunk b) then chunks b ++ [current_chunk b] else chunks b in
  match chunks' with
  | [] => [discovery_content]
  | _ :: _ => chunks'
  end.

Definition chunk_with (discovery_content : text) : list text :=
  finish discovery_content
    (section_loop (re_split major_heading discovery_content) empty_buffer).

End Chunker.

Definition chunk_discovery_content (tiktoken : option tokenizer)
    (discovery_content : text) (max_tokens : Z) (model : text) : list text :=
  chunk_with (fun t => estimate_tokens tiktoken t model) max_tokens discovery_content.

(** The text with its newline characters removed: what the chunker, which
    only cuts at newlines and joins with newlines, leaves untouched. *)
Definition without_newlines (t : text) : text :=
  filter (fun c => negb (char_eqb c NL)) t.

(** Everything a buffer holds, newlines apart, in order. *)
Definition content_of (b : buffer) : text :=
  flat_map without_newlines (chunks b) ++ without_newlines (current_chunk b).

(** The length of a list of pieces joined by one-character separators,
    plus one. *)
Fixpoint weight (pieces : list text) : Z :=
  match pieces with
  | [] => 0
  | p :: rest => Z.of_nat (length p) + 1 + weight rest
  end.

(** What the chunker makes of the pieces it puts in one chunk: a piece
    is appended after a blank line, but for the pieces that come while
    the chunk is still empty, so the empty pieces at the head of a
    group leave no trace. *)
Fixpoint skip_empty (pieces : list text) : list text :=
  match pieces with
  | [] :: rest => skip_empty rest
  | _ => pieces
  end.

Definition chunk_of (group : list text) : text := join [NL; NL] (skip_empty group).

(** One chunk for each group of pieces, but for the groups that give
    an empty chunk. *)
Definition chunks_of (groups : list (list text)) : list text :=
  filter truthy (map chunk_of groups).

(** [chunks if chunks else [discovery_content]]. *)
Definition or_whole (chunks : list text) (discovery_content : text) : list text :=
  match chunks with
  | [] => [discovery_content]
  | _ :: _ => chunks
  end.

(** A buffer that holds groups of pieces: a closed chunk for each group
    of [closed], none of them empty, and the pieces of [running] in the
    running chunk. *)
Definition holds (b : buffer) (closed : list (list text)) (running : list text) : Prop :=
  chunks b = map chunk_of closed /\
  Forall (fun group => truthy (chunk_of group) = true) closed /\
  current_chunk b = chunk_of running.

(** The pieces, each followed by a newline. *)
Definition terminated (pieces : list text) : text :=
  flat_map (fun piece => piece ++ [NL]) pieces.

(* ================================================================== *)
(** ** Resilient Call Orchestrator *)
(* ================================================================== *)

(** [call_openai_api] as the source lays it out.  The body of the
    [try] of the retry loop opens with [response = ...create(] (line
    460), and [return generated_content] (line 493) stands at the same
    column: it is the last statement of that body.  The lines between
    the two (the arguments of [create] and the validation of the
    response, lines 461 to 492) are written four columns to the left of
    them; they are read here at the column of the two lines that frame
    them.  A response that passes the validation is therefore
    returned. *)

(** *** The remote endpoint *)

(** Which [except] clause of the retry loop takes an exception raised by
    [client.chat.completions.create]: the clauses are tried in order, so
    [APIError] here means an [APIError] that is none of the three
    subclasses named before it, and [OtherException] an [Exception]
    that is neither an [APIError] nor a [ValueError]. *)
Inductive exc_class :=
| RateLimitError
| APITimeoutError
| APIConnectionError
| APIError
| ValueError
| OtherException.

(** [response.choices[i].message.content]: [None] or a string. *)
Record choice := { content : option text }.

(** A response: a falsy object, or one whose [choices] is [None] or a
    list. *)
Inductive response :=
| NoResponse
| Response (choices : option (list choice)).

(** What one call of the endpoint does; [message] is [str(e)]. *)
Inductive outcome :=
| Responds (r : response)
| Raises (cls : exc_class) (message : text).

Record request := {
  req_model : text;
  req_prompt : text;
  req_timeout : Z
}.

(** The client: what its n-th call (from 0) does with a request. *)
Definition client := nat -> request -> outcome.

(** *** Effects and results *)

(** What the orchestrator does to the outside, in order: a request for
    a model (with the value of [attempt] at that point) and a
    [time.sleep].  The warnings it prints are left out. *)
Inductive event :=
| Call (model_name : text) (attempt : Z)
| Sleep (seconds : Q).

Record world := {
  calls_made : nat;
  trace : list event
}.

Definition start : world := {| calls_made := 0; trace := [] |}.

(** The exceptions that leave the loops: the outer [try] lets
    [ValueError] and [TimeoutError] pass and wraps every other one;
    [PyOverflowError] is the [OverflowError] of the back-off,
    [PyException] a plain [Exception]. *)
Inductive py_exception :=
| PyValueError
| PyTimeoutError
| PyOverflowError
| PyException.

(** How [call_openai_api] finishes. *)
Inductive result :=
| Returned (generated_content : text)
| Raised (ty : py_exception) (message : text).

(** How the [try] statement of one [for attempt] iteration finishes. *)
Inductive iteration :=
| Return (generated_content : text)         (* [return generated_content]    *)
| Backoff (seconds : Q)                     (* [time.sleep] then [continue]  *)
| Break                                     (* [break]: on to the next model *)
| Throw (ty : py_exception) (message : text).

(** How a loop is left before its end. *)
Inductive exit :=
| Returning (generated_content : text)
| Raising (ty : py_exception) (message : text).

(** [str.lower()], which follows the case tables of the Unicode
    database.  The capitals of ASCII and of Latin-1 are 32 below their
    lower case.  Outside ASCII two code points have a lower case with
    an ASCII character in it: U+212A (the Kelvin sign) lowers to [k],
    and U+0130 to [i] followed by U+0307.  Every other code point is
    left as it is here: its lower case, where the tables give it one, is
    made of code points outside ASCII, so an ASCII text occurs in
    [lower t] at the places where it occurs in [t.lower()]. *)
Definition lower_char (c : char) : char :=
  (if (65 <=? c) && (c <=? 90) then c + 32
   else if (192 <=? c) && (c <=? 222) && negb (c =? 215) then c + 32
   else if c =? 8490 then 107
   else c)%N.

Definition lower_full (c : char) : text :=
  if (c =? 304)%N then [105%N; 775%N] else [lower_char c].

Definition lower (t : text) : text := flat_map lower_full t.

(** [s.strip()]. *)
Fixpoint lstrip (t : text) : text :=
  match t with
  | c :: t' => if isspace c then lstrip t' else t
  | [] => []
  end.

Definition strip (t : text) : text := rev (lstrip (rev (lstrip t))).

Definition GPT4 : text := txt "gpt-4".
Definition GPT35 : text := txt "gpt-3.5-turbo".

(** [[model, "gpt-3.5-turbo"] if model == "gpt-4" else [model]]. *)
Definition models_to_try (model : text) : list text :=
  if text_eqb model GPT4 then [model; GPT35] else [model].

(** [x in xs] on a list of strings. *)
Definition mem (x : text) (xs : list text) : bool := existsb (text_eqb x) xs.

(** [model_name == "gpt-4" and "gpt-3.5-turbo" in models_to_try]. *)
Definition has_fallback (model_name : text) (models : list text) : bool :=
  text_eqb model_name GPT4 && mem GPT35 models.

Definition is_authentication (message : text) : bool :=
  contains (lower message) (txt "authentication") ||
  contains (lower message) (txt "api key").

(** [any(code in error_str for code in ['500','502','503','504','429'])]. *)
Definition is_transient (message : text) : bool :=
  existsb (fun code => contains (lower message) (txt code))
    ["500"; "502"; "503"; "504"; "429"]%string.

Definition INVALID_KEY : text :=
  txt "Invalid OpenAI API key. Please check your OPENAI_API_KEY environment variable.".

(** What the statements between the [create] call and the [return]
    make of a response. *)
Inductive validation :=
| Accepted (generated_content : text)
| Rejected (message : text).

Definition validate (r : response) : validation :=
  match r with
  | NoResponse | Response None | Response (Some []) =>
      (* [not response or not response.choices] *)
      Rejected (txt "OpenAI API returned invalid response structure: no choices")
  | Response (Some (first :: others)) =>
      if (length (first :: others) =? 0)%nat
      then Rejected (txt "OpenAI API returned invalid response: empty choices array")
      else
        match content first with
        | None | Some [] =>
            Rejected (txt "OpenAI API returned empty content in response")
        | Some generated_content =>
            if negb (truthy (strip generated_content))
            then Rejected (txt "OpenAI API returned only whitespace in response")
            else Accepted generated_content
        end
  end.

(** The least power of two that is no [float]: converting an [int]
    from [2 ** 1024] on raises [OverflowError], and a product of
    floats of that size is [inf]. *)
Definition FLOAT_LIMIT : Q := inject_Z (2 ^ 1024).

Section Orchestrator.

Variable api : client.
Variable prompt : text.
Variable timeout : Z.
Variable max_retries : Z.

(** [initial_backoff] is a finite [float], taken as the rational it is. *)
Variable initial_backoff : Q.

(** The lengths [time.sleep] refuses because its clock cannot count
    them: CPython keeps the length as a 64-bit number of nanoseconds,
    so these are the lengths from about 9.2e9 seconds on, of either
    sign; where exactly they start is the platform's. *)
Variable too_long : Q -> bool.

(** The request of one attempt; the system message, the temperature
    and the output limit are the same in every request. *)
Definition request_for (model_name : text) : request :=
  {| req_model := model_name; req_prompt := prompt; req_timeout := timeout |}.

(** [f"(attempt {attempt + 1}/{max_retries + 1}). "]. *)
Definition attempt_of (attempt : Z) : text :=
  txt "(attempt " ++ str_int (attempt + 1) ++ txt "/" ++
  str_int (max_retries + 1) ++ txt "). ".

(** The value of [initial_backoff * (2 ** attempt)]: on floats the
    product by a power of two is exact as long as it is a float. *)
Definition backoff_time (attempt : Z) : Q :=
  (initial_backoff * inject_Z (2 ^ attempt))%Q.

(** [backoff_time = initial_backoff * (2 ** attempt)], on the way to
    [time.sleep(backoff_time)]: the power is an [int], and the product
    converts it to a [float]. *)
Definition back_off (attempt : Z) : iteration :=
  if 1024 <=? attempt
  then Throw PyOverflowError (txt "int too large to convert to float")
  else Backoff (backoff_time attempt).

(** The [if attempt < max_retries: ... else: ...] tail shared by the
    handlers of transient errors: back off and retry, or give the
    model up. *)
Definition retry_or_give_up (model_name : text) (models : list text)
    (attempt : Z) (ty : py_exception) (error_msg : text) : iteration :=
  if attempt <? max_retries then back_off attempt
  else if has_fallback model_name models then Break
  else Throw ty error_msg.

(** The [except] clauses of the retry loop. *)
Definition handle (model_name : text) (models : list text) (attempt : Z)
    (cls : exc_class) (message : text) : iteration :=
  match cls with
  | RateLimitError =>
      retry_or_give_up model_name models attempt PyException
        (txt "Rate limit exceeded for " ++ model_name ++ txt " " ++
         attempt_of attempt ++
         txt "Max retries exceeded. Please wait before retrying or use a different API key.")
  | APITimeoutError =>
      retry_or_give_up model_name models attempt PyTimeoutError
        (txt "Request to " ++ model_name ++ txt " timed out " ++
         attempt_of attempt ++
         txt "Max retries exceeded after " ++ str_int timeout ++ txt " seconds. " ++
         txt "The prompt may be too long or the API is experiencing delays.")
  | APIConnectionError =>
      retry_or_give_up model_name models attempt PyException
        (txt "Connection error with " ++ model_name ++ txt " " ++
         attempt_of attempt ++
         txt "Max retries exceeded. Please check your internet connection and try again.")
  | APIError =>
      let error_msg := txt "OpenAI API error for " ++ model_name ++ txt ": " ++ message in
      if is_authentication message then Throw PyValueError INVALID_KEY
      else if is_transient message && (attempt <? max_retries)
      then back_off attempt
      else if has_fallback model_name models && is_transient message then Break
      else Throw PyException error_msg
  | ValueError => Throw PyValueError message
  | OtherException =>
      retry_or_give_up model_name models attempt PyException
        (txt "Unexpected error calling " ++ model_name ++ txt ": " ++ message)
  end.

(** The [try] statement of one iteration, given what the request did:
    a response is validated and returned, an exception goes to its
    [except] clause. *)
Definition attempt_ends (model_name : text) (models : list text) (attempt : Z)
    (o : outcome) : iteration :=
  match o with
  | Responds r =>
      match validate r with
      | Accepted generated_content => Return generated_content
      | Rejected message => Throw PyValueError message
      end
  | Raises cls message => handle model_name models attempt cls message
  end.

(** One iteration of [for attempt in range(max_retries + 1)], up to
    the sleep of its handler. *)
Definition one_attempt (model_name : text) (models : list text) (attempt : Z)
    (w : world) : iteration * world :=
  (attempt_ends model_name models attempt (api (calls_made w) (request_for model_name)),
   {| calls_made := S (calls_made w);
      trace := trace w ++ [Call model_name attempt] |}).

(** A length [time.sleep] cannot count: too long for the clock, or
    the [inf] that a product beyond the floats is. *)
Definition refuses (seconds : Q) : bool :=
  too_long seconds ||
  Qle_bool FLOAT_LIMIT seconds || Qle_bool seconds (- FLOAT_LIMIT).

(** [time.sleep(seconds)]: the length is converted to the clock's
    count first, which raises [OverflowError]; a negative length that
    converts is a [ValueError]. *)
Definition sleep (seconds : Q) (w : world) : world + py_exception * text :=
  if refuses seconds
  then inr (PyOverflowError, txt "timestamp too large to convert to C _PyTime_t")
  else if Qle_bool 0 seconds
  then inl {| calls_made := calls_made w; trace := trace w ++ [Sleep seconds] |}
  else inr (PyValueError, txt "sleep length must be non-negative").

(** The back-off of an attempt goes through: the power converts to a
    float and [time.sleep] takes the product. *)
Definition backs_off (attempt : Z) : bool :=
  (attempt <? 1024) && negb (refuses (backoff_time attempt)) &&
  Qle_bool 0 (backoff_time attempt).

(** The retry loop for one model, with [remaining] iterations to go:
    [None] when it ends by [break] or by running out, else the
    [return] or the exception that leaves it. *)
Fixpoint retry_loop (model_name : text) (models : list text)
    (remaining : nat) (attempt : Z) (w : world) : option exit * world :=
  match remaining with
  | O => (None, w)
  | S remaining' =>
      match one_attempt model_name models attempt w with
      | (Return generated_content, w1) => (Some (Returning generated_content), w1)
      | (Backoff seconds, w1) =>
          match sleep seconds w1 with
          | inl w2 => retry_loop model_name models remaining' (attempt + 1) w2
          | inr (ty, message) => (Some (Raising ty message), w1)
          end
      | (Break, w1) => (None, w1)
      | (Throw ty message, w1) => (Some (Raising ty message), w1)
      end
  end.

(** [for model_name in models_to_try]; the [continue] that ends its
    body changes nothing.  After the last model:
    [raise Exception("All OpenAI models failed after retries")]. *)
Fixpoint model_loop (models todo : list text) (w : world) : exit * world :=
  match todo with
  | [] => (Raising PyException (txt "All OpenAI models failed after retries"), w)
  | model_name :: todo' =>
      match retry_loop model_name models (Z.to_nat (max_retries + 1)) 0 w with
      | (Some e, w1) => (e, w1)
      | (None, w1) => model_loop models todo' w1
      end
  end.

(** The outer [try]: a [ValueError] or [TimeoutError] passes as it is,
    any other exception is wrapped. *)
Definition wrap (ty : py_exception) (message : text) : result :=
  match ty with
  | PyValueError | PyTimeoutError => Raised ty message
  | PyOverflowError | PyException =>
      Raised PyException (txt "OpenAI API call failed: " ++ message)
  end.

Definition leave (e : exit) : result :=
  match e with
  | Returning generated_content => Returned generated_content
  | Raising ty message => wrap ty message
  end.

Definition call_openai_api (model : text) : result * world :=
  let models := models_to_try model in
  let ended := model_loop models models start in
  (leave (fst ended), snd ended).

End Orchestrator.

(** The requests made, in order, and the sleeps. *)
Definition calls_of (w : world) : list (text * Z) :=
  flat_map (fun e => match e with Call m a => [(m, a)] | Sleep _ => [] end) (trace w).

Definition sleeps_of (w : world) : list Q :=
  flat_map (fun e => match e with Call _ _ => [] | Sleep q => [q] end) (trace w).

(** A response with one choice holding [generated_content]. *)
Definition completion (generated_content : text) : outcome :=
  Responds (Response (Some [ {| content := Some generated_content |} ])).

(** A response the validation accepts: a first choice whose content is
    neither empty nor whitespace only. *)
Definition valid_completion (r : response) (generated_content : text) : Prop :=
  exists others,
    r = Response (Some ({| content := Some generated_content |} :: others)) /\
    truthy (strip generated_content) = true.

(** The classes of failures the retry loop retries: rate limit, timeout,
    connection failure, an API error that names a 5xx or 429 code and is
    not an authentication error, and an unexpected exception. *)
Definition transient (o : outcome) : bool :=
  match o with
  | Responds _ => false
  | Raises RateLimitError _ | Raises APITimeoutError _
  | Raises APIConnectionError _ | Raises OtherException _ => true
  | Raises APIError message => negb (is_authentication message) && is_transient message
  | Raises ValueError _ => false
  end.

(** An [APIError] the loop takes for an authentication failure. *)
Definition authentication_failure (o : outcome) : bool :=
  match o with
  | Raises APIError message => is_authentication message
  | _ => false
  end.

(* ================================================================== *)
(** ** Sample inputs *)
(* ================================================================== *)

(** ["...\n..."]: the lines joined by newlines. *)
Definition lines (ls : list string) : text := join [NL] (map txt ls).

(** A preamble line, one major heading and its body. *)
Definition doc_one_heading : text := lines ["a"; "## H"; "b"]%string.

(** Two major-heading sections of 17 characters each. *)
Definition section_a : text := lines ["## A"; "aaaaaaaaaaaa"]%string.
Definition section_b : text := lines ["## B"; "bbbbbbbbbbbb"]%string.
Definition doc_two_sections : text := section_a ++ [NL] ++ section_b.

(** A text that opens with a heading and has no other. *)
Definition doc_leading_heading : text :=
  lines ["## Intro"; "some body text that is long enough"]%string.

(** A tokenizer that yields a token for every four characters and one
    for what is left: cutting a text can only add tokens. *)
Definition ceil_tokenizer : tokenizer :=
  fun _ t => Encoded (repeat 0%N ((length t + 3) / 4)).

Definition a_prompt : text := txt "Test prompt".

(** An endpoint that always answers with a well-formed completion. *)
Definition always_completes : client :=
  fun _ _ => completion (txt "Generated guide content").

(** An endpoint whose first call is rate limited and whose later calls
    answer with a well-formed completion. *)
Definition rate_limited_once : client :=
  fun n _ =>
    match n with
    | O => Raises RateLimitError (txt "Rate limit")
    | S _ => completion (txt "Success after retry")
    end.

(** An endpoint that rejects the API key. *)
Definition rejects_key : client :=
  fun _ _ => Raises APIError (txt "Invalid API key").


(* ================================================================== *)
(** ** Orchestrator: what a run leaves behind *)
(* ================================================================== *)

(** An iteration that leaves the retry loop for good, and how. *)
Definition final (it : iteration) : option exit :=
  match it with
  | Return generated_content => Some (Returning generated_content)
  | Throw ty message => Some (Raising ty message)
  | Backoff _ | Break => None
  end.

(** A [time.sleep] whose clock counts nanoseconds in 64 bits: a length
    of [2^63] nanoseconds or more, of either sign, is too long. *)
Definition clock_64bit (seconds : Q) : bool :=
  Qle_bool (inject_Z (2 ^ 63)) (seconds * inject_Z (10 ^ 9)) ||
  Qle_bool (seconds * inject_Z (10 ^ 9)) (- inject_Z (2 ^ 63)).

(** Requests number [first] to [first + count - 1] for one model, each
    followed by the sleep of its attempt. *)
Definition backed_off_attempts (initial_backoff : Q) (model_name : text)
    (first : Z) (count : nat) : list event :=
  flat_map (fun k => [Call model_name (first + Z.of_nat k);
                      Sleep (backoff_time initial_backoff (first + Z.of_nat k))])
    (seq 0 count).

(** The exception a handler raises when a transient error has used up
    the retries of a model without fallback: [TimeoutError] for a
    timeout, [Exception] for the others. *)
Definition exhausted_type (cls : exc_class) : py_exception :=
  match cls with
  | APITimeoutError => PyTimeoutError
  | _ => PyException
  end.

(** A sleep the schedule allows: [initial_backoff * 2^k] for an attempt
    number [k] that still has a retry after it. *)
Definition scheduled (max_retries : Z) (initial_backoff seconds : Q) : Prop :=
  exists k, 0 <= k < max_retries /\ seconds = backoff_time initial_backoff k.

(** An endpoint that always times out. *)
Definition always_times_out : client :=
  fun _ _ => Raises APITimeoutError (txt "Request timed out").

(** An endpoint that answers with whitespace only. *)
Definition answers_blank : client :=
  fun _ _ => completion (txt "   ").

(** An endpoint that fails with an error that names no status code. *)
Definition bad_request : client :=
  fun _ _ => Raises APIError (txt "Bad request").

(** An endpoint that is rate limited twice and then rejects the key. *)
Definition key_rejected_late : client :=
  fun n _ =>
    match n with
    | 0%nat | 1%nat => Raises RateLimitError (txt "Rate limit")
    | _ => Raises APIError (txt "Invalid API key")
    end.

(* ================================================================== *)
(** ** Output file name *)
(* ================================================================== *)

Definition DASH : char := 45%N.
Definition DOT : char := 46%N.

(** The class [[a-zA-Z0-9_-]]. *)
Definition filename_char (c : char) : bool :=
  ((97 <=? c) && (c <=? 122) || (65 <=? c) && (c <=? 90) ||
   (48 <=? c) && (c <=? 57) || (c =? 95) || (c =? 45))%N.

(** The class [[a-z0-9_-]]: what is left of it after [lower()]. *)
Definition lower_filename_char (c : char) : bool :=
  ((97 <=? c) && (c <=? 122) || (48 <=? c) && (c <=? 57) || (c =? 95) || (c =? 45))%N.

(** [re.sub(r'[^a-zA-Z0-9_-]', '-', s)]: every character outside the
    class becomes a hyphen. *)
Definition replace_unsafe (s : text) : text :=
  map (fun c => if filename_char c then c else DASH) s.

(** [re.sub(r'-+', '-', s)]: a hyphen that another hyphen follows is
    dropped, so that each run of hyphens leaves one. *)
Fixpoint collapse_dashes (s : text) : text :=
  match s with
  | [] => []
  | c :: s' =>
      if char_eqb c DASH then
        match s' with
        | d :: _ => if char_eqb d DASH then collapse_dashes s'
                    else DASH :: collapse_dashes s'
        | [] => [DASH]
        end
      else c :: collapse_dashes s'
  end.

(** [s.lstrip(chars)] and [s.strip(chars)] for a set of characters. *)
Fixpoint lstrip_chars (drop : char -> bool) (t : text) : text :=
  match t with
  | c :: t' => if drop c then lstrip_chars drop t' else t
  | [] => []
  end.

Definition strip_chars (drop : char -> bool) (t : text) : text :=
  rev (lstrip_chars drop (rev (lstrip_chars drop t))).

Definition is_dash (c : char) : bool := char_eqb c DASH.

Definition GUIDE_SUFFIX : text := txt "-slo-implementation-guide.md".
Definition ERROR_SUFFIX : text := txt "-slo-implementation-guide-ERROR.md".

(** The name before the suffix: [sanitized_name] at the end of
    [generate_output_filename]. *)
Definition sanitized_name (service_name : text) : text :=
  let sanitized := strip_chars is_dash (collapse_dashes (replace_unsafe service_name)) in
  let sanitized := if truthy sanitized then sanitized else txt "service" in
  lower sanitized.

Definition generate_output_filename (service_name : text) (is_error : bool) : text :=
  if is_error
  then sanitized_name service_name ++ ERROR_SUFFIX
  else sanitized_name service_name ++ GUIDE_SUFFIX.

(** No two hyphens in a row. *)
Fixpoint no_double_dash (t : text) : bool :=
  match t with
  | c :: ((d :: _) as t') =>
      negb (char_eqb c DASH && char_eqb d DASH) && no_double_dash t'
  | _ => true
  end.

(** A name in the form [generate_output_filename] produces: not empty,
    of lower-case letters, digits, underscores and hyphens, with no
    hyphen at either end and no two hyphens in a row. *)
Definition normal_name (t : text) : Prop :=
  t <> [] /\
  forallb lower_filename_char t = true /\
  hd_error t <> Some DASH /\
  hd_error (rev t) <> Some DASH /\
  no_double_dash t = true.

(* ================================================================== *)
(** ** Markdown document and OpenAI client set-up *)
(* ================================================================== *)

(** [s.split('\n')[0]]: the text up to the first newline. *)
Fixpoint first_line_of (t : text) : text :=
  match t with
  | [] => []
  | c :: t' => if char_eqb c NL then [] else c :: first_line_of t'
  end.

(** [s.endswith('\n')]. *)
Definition ends_with_newline (t : text) : bool :=
  match rev t with
  | c :: _ => char_eqb c NL
  | [] => false
  end.

(** The header of [format_as_markdown_document]; [timestamp] is
    [datetime.utcnow().strftime("%Y-%m-%d %H:%M:%S UTC")]. *)
Definition document_header (service_name observability_platform timestamp : text) : text :=
  txt "# SLO Implementation Guide" ++ [NL; NL] ++
  txt "**Service:** " ++ service_name ++ txt "  " ++ [NL] ++
  txt "**Observability Platform:** " ++ observability_platform ++ txt "  " ++ [NL] ++
  txt "**Generated:** " ++ timestamp ++ txt "  " ++ [NL] ++
  txt "**Methodology:** SLODLC (SLO Development Lifecycle)" ++ [NL; NL] ++
  txt "---" ++ [NL; NL].

(** The content after [strip()] and after the first line has been made
    a heading when it is short and the content has none. *)
Definition with_heading (content : text) : text :=
  let cleaned_content := strip content in
  if negb (startswith cleaned_content [HASH]) then
    let first_line :=
      if truthy cleaned_content then first_line_of cleaned_content else [] in
    if truthy first_line && (Z.of_nat (length first_line) <? 100) &&
       negb (startswith first_line [HASH])
    then txt "# " ++ first_line ++ [NL; NL] ++
         lstrip (skipn (length first_line) cleaned_content)
    else cleaned_content
  else cleaned_content.

Definition format_as_markdown_document (timestamp : text)
    (content service_name observability_platform : text) : text :=
  let formatted_document :=
    document_header service_name observability_platform timestamp ++
    with_heading content in
  if negb (ends_with_newline formatted_document)
  then formatted_document ++ [NL]
  else formatted_document.

(** How a function that returns a value or raises [ValueError] ends. *)
Inductive outcome_of (A : Type) :=
| Value (a : A)
| RaisesValueError (message : text).
Arguments Value {A} a.
Arguments RaisesValueError {A} message.

(** [initialize_openai_client]: [api_key] is [os.getenv('OPENAI_API_KEY')],
    [None] when the variable is not set; the client is [OpenAI(api_key=...)],
    represented by the key it is built with. *)
Definition initialize_openai_client (api_key : option text) : outcome_of text :=
  match api_key with
  | None | Some [] =>
      RaisesValueError
        (txt "OPENAI_API_KEY environment variable is not set. " ++
         txt "Please set it before running this script.")
  | Some key =>
      if negb (truthy (strip key))
      then RaisesValueError
             (txt "OPENAI_API_KEY environment variable is empty. " ++
              txt "Please provide a valid API key.")
      else Value key
  end.

(* ================================================================== *)
(** ** utils.py: regular expressions, sanitization, detection *)
(* ================================================================== *)

(** The patterns of [utils.py]: the empty pattern, one character of a
    class, [class{min,}] (greedy; [*] and [+] are [min] 0 and 1),
    concatenation and alternation. *)
Inductive rx :=
| Nil
| Chr (p : char -> bool)
| Rep (p : char -> bool) (min : nat)
| Cat (a b : rx)
| Alt (a b : rx).

(** [p{need,}] followed by [k]: take a character when there is one of
    the class, and stop before it only if what follows cannot be
    matched otherwise and no more is needed. *)
Fixpoint rep (p : char -> bool) (k : text -> option text) (need : nat) (s : text)
  : option text :=
  match s with
  | c :: s' =>
      if p c then
        match rep p k (pred need) s' with
        | Some r => Some r
        | None => match need with O => k s | S _ => None end
        end
      else match need with O => k s | S _ => None end
  | [] => match need with O => k [] | S _ => None end
  end.

(** Backtracking match at the start of the input: [k] is what remains
    to be matched, the result is the input left after the match. *)
Fixpoint rx_match (r : rx) (k : text -> option text) (s : text) : option text :=
  match r with
  | Nil => k s
  | Chr p =>
      match s with
      | c :: s' => if p c then k s' else None
      | [] => None
      end
  | Rep p min => rep p k min s
  | Cat a b => rx_match a (rx_match b k) s
  | Alt a b =>
      match rx_match a k s with
      | Some r => Some r
      | None => rx_match b k s
      end
  end.

Definition match_here (r : rx) (s : text) : option text := rx_match r Some s.

(** [re.search(r, s)] finds a match. *)
Fixpoint rx_search (r : rx) (s : text) : bool :=
  match match_here r s with
  | Some _ => true
  | None => match s with [] => false | _ :: s' => rx_search r s' end
  end.

(** Replacing every leftmost, non-overlapping match by [repl], for a
    matcher that never matches the empty string: [skip] counts the
    characters of the current match still to pass over. *)
Fixpoint sub_from (m : text -> option text) (repl s : text) (skip : nat) : text :=
  match s with
  | [] => []
  | c :: s' =>
      match skip with
      | S n => sub_from m repl s' n
      | O =>
          match m s with
          | Some rest => repl ++ sub_from m repl s' (length s' - length rest)
          | None => c :: sub_from m repl s' O
          end
      end
  end.

(** [re.sub(r, repl, s)]. *)
Definition re_sub (r : rx) (repl s : text) : text := sub_from (match_here r) repl s O.

(** The matcher of a literal, and [s.replace(old, new)]. *)
Definition strip_prefix (old s : text) : option text :=
  if startswith s old then Some (skipn (length old) s) else None.

Definition str_replace (old new s : text) : text := sub_from (strip_prefix old) new s O.

Definition only (x : char) : char -> bool := fun c => N.eqb c x.
Definition all_but (x : char) : char -> bool := fun c => negb (N.eqb c x).

(** A literal character of a pattern compiled with [IGNORECASE]: a
    letter matches both its cases, and [i], [s] and [k] also match the
    four characters whose lower case they are or that case fixes join
    to them (U+0130, U+0131, U+017F, U+212A); another character matches
    itself. *)
Definition ci (x : char) : char -> bool :=
  fun c =>
    (if (97 <=? x) && (x <=? 122)
     then (c =? x) || (c =? x - 32) ||
          (x =? 105) && ((c =? 304) || (c =? 305)) ||
          (x =? 115) && (c =? 383) ||
          (x =? 107) && (c =? 8490)
     else c =? x)%N.

(** A literal, and a literal under [IGNORECASE] (written in lower case). *)
Fixpoint lit (w : text) : rx :=
  match w with
  | [] => Nil
  | c :: w' => Cat (Chr (only c)) (lit w')
  end.

Fixpoint lit_i (w : text) : rx :=
  match w with
  | [] => Nil
  | c :: w' => Cat (Chr (ci c)) (lit_i w')
  end.

Fixpoint seq_of (parts : list rx) : rx :=
  match parts with
  | [] => Nil
  | a :: rest => Cat a (seq_of rest)
  end.

Fixpoint alt_of (first : rx) (others : list rx) : rx :=
  match others with
  | [] => first
  | b :: rest => Alt first (alt_of b rest)
  end.

Definition spaces1 : rx := Rep isspace 1.  (* \s+ *)
Definition spaces0 : rx := Rep isspace 0.  (* \s* *)

Definition BACKTICK : char := 96%N.
Definition FENCE : text := [BACKTICK; BACKTICK; BACKTICK].

(** [patterns_to_remove] of [sanitize_input]. *)
Definition patterns_to_remove : list rx :=
  [ (* (?i)ignore\s+(previous|above|all)\s+(instructions|prompts|rules) *)
    seq_of [lit_i (txt "ignore"); spaces1;
            alt_of (lit_i (txt "previous")) [lit_i (txt "above"); lit_i (txt "all")];
            spaces1;
            alt_of (lit_i (txt "instructions"))
              [lit_i (txt "prompts"); lit_i (txt "rules")]];
    (* (?i)forget\s+(everything|all|previous) *)
    seq_of [lit_i (txt "forget"); spaces1;
            alt_of (lit_i (txt "everything")) [lit_i (txt "all"); lit_i (txt "previous")]];
    (* (?i)you\s+are\s+now *)
    seq_of [lit_i (txt "you"); spaces1; lit_i (txt "are"); spaces1; lit_i (txt "now")];
    (* (?i)system\s*:\s* *)
    seq_of [lit_i (txt "system"); spaces0; lit_i (txt ":"); spaces0];
    (* (?i)assistant\s*:\s* *)
    seq_of [lit_i (txt "assistant"); spaces0; lit_i (txt ":"); spaces0];
    (* (?i)user\s*:\s* *)
    seq_of [lit_i (txt "user"); spaces0; lit_i (txt ":"); spaces0] ].

(** [r'\n{10,}']. *)
Definition many_newlines : rx := Rep (only NL) 10.

Definition sanitize_input (t : text) : text :=
  if negb (truthy t) then []
  else
    let sanitized :=
      fold_left (fun sanitized pattern => re_sub pattern [] sanitized)
        patterns_to_remove t in
    let sanitized := str_replace FENCE [] sanitized in
    let sanitized := re_sub many_newlines [NL; NL] sanitized in
    strip sanitized.

(** [\w] on [str]: letters, digits and the underscore; which of the
    code points from U+0080 on are alphanumeric is the table of the
    Unicode database, an argument here. *)
Definition word_char (unicode_alnum : char -> bool) (c : char) : bool :=
  (if c <? 128
   then (97 <=? c) && (c <=? 122) || (65 <=? c) && (c <=? 90) ||
        (48 <=? c) && (c <=? 57) || (c =? 95)
   else unicode_alnum c)%N.

(** [[A-Za-z0-9+/=]]. *)
Definition base64_char (c : char) : bool :=
  ((65 <=? c) && (c <=? 90) || (97 <=? c) && (c <=? 122) ||
   (48 <=? c) && (c <=? 57) || (c =? 43) || (c =? 47) || (c =? 61))%N.

(** The five searches of [detect_malicious_patterns], with the message
    each one adds. *)
Definition script_tag : rx :=            (* <script[^>]*>  IGNORECASE *)
  seq_of [lit_i (txt "<script"); Rep (all_but 62%N) 0; lit_i (txt ">")].
Definition executable_code : rx :=       (* (?i)(exec|eval|system|subprocess|os\.system) *)
  alt_of (lit_i (txt "exec"))
    [lit_i (txt "eval"); lit_i (txt "system"); lit_i (txt "subprocess");
     lit_i (txt "os.system")].
Definition event_handler (unicode_alnum : char -> bool) : rx :=  (* on\w+\s*=  IGNORECASE *)
  seq_of [lit_i (txt "on"); Rep (word_char unicode_alnum) 1; spaces0; lit_i (txt "=")].
Definition html_data_uri : rx :=         (* data:text/html  IGNORECASE *)
  lit_i (txt "data:text/html").
Definition base64_data : rx :=           (* data:[^;]+;base64,[A-Za-z0-9+/=]{100,} *)
  seq_of [lit (txt "data:"); Rep (all_but 59%N) 1; lit (txt ";base64,"); Rep base64_char 100].

Definition detect_malicious_patterns (unicode_alnum : char -> bool) (content : text)
  : list text :=
  (if rx_search script_tag content then [txt "Script tags detected"] else []) ++
  (if rx_search executable_code content
   then [txt "Executable code patterns detected"] else []) ++
  (if rx_search (event_handler unicode_alnum) content
   then [txt "JavaScript event handlers detected"] else []) ++
  (if rx_search html_data_uri content
   then [txt "Data URI with HTML content detected"] else []) ++
  (if rx_search base64_data content
   then [txt "Large base64 encoded content detected"] else []).

(** The number of characters of a class a text starts with. *)
Fixpoint run (p : char -> bool) (t : text) : nat :=
  match t with
  | c :: t' => if p c then S (run p t') else O
  | [] => O
  end.

(** [subseq a b]: [a] is [b] with some characters left out. *)
Inductive subseq : text -> text -> Prop :=
| subseq_nil : subseq [] []
| subseq_keep (c : char) (a b : text) : subseq a b -> subseq (c :: a) (c :: b)
| subseq_drop (c : char) (a b : text) : subseq a b -> subseq a (c :: b).

(** A matcher that consumes at least one character of the text it is
    given and returns the rest. *)
Definition proper (m : text -> option text) : Prop :=
  forall s rest, m s = Some rest -> exists w, w <> [] /\ s = w ++ rest.

(** A text the sanitizer has nothing to do on. *)
Definition clean (t : text) : Prop :=
  Forall (fun pattern => rx_search pattern t = false) patterns_to_remove /\
  contains t FENCE = false /\
  rx_search many_newlines t = false /\
  (forall c, hd_error t = Some c -> isspace c = false) /\
  (forall c, hd_error (rev t) = Some c -> isspace c = false).

(** Sample texts for the sanitizer and the detector. *)
Definition a_clean_text : text := txt "Checkout API availability target 99.9 percent".
Definition shouting_eval : text := txt "then run EvAl(payload) on it".

(** The words of the second search of [detect_malicious_patterns] that
    are not a longer form of another one. *)
Definition executable_words : list text :=
  [txt "exec"; txt "eval"; txt "system"; txt "subprocess"].

(* ================================================================== *)
(** ** Facts about text *)
(* ================================================================== *)


Lemma heuristic_tokens_nonneg (t : text) : 0 <= heuristic_tokens t.
Proof. unfold heuristic_tokens. apply Z.div_pos; lia. Qed.

Lemma dict_get_unknown {V : Type} (d : list (text * V)) (key : text) (dflt : V) :
  existsb (fun kv => text_eqb (fst kv) key) d = false -> dict_get d key dflt = dflt.
Proof.
  induction d as [|[k v] d IH]; simpl; [reflexivity|].
  intros H. apply orb_false_iff in H as [Hk Hd].
  rewrite Hk. now apply IH.
Qed.

Lemma dict_get_known {V : Type} (d : list (text * V)) (key : text) (x y : V) :
  existsb (fun kv => text_eqb (fst kv) key) d = true -> dict_get d key x = dict_get d key y.
Proof.
  induction d as [|[k v] d IH]; simpl; [discriminate|].
  destruct (text_eqb k key); simpl; [reflexivity | exact IH].
Qed.

(* ================================================================== *)
(** ** Token Estimator: properties *)
(* ================================================================== *)

(** C5. For every tokenizer (present or absent, succeeding or raising),
    text and model name, [estimate_tokens] yields an integer [>= 0]: a
    raising tokenizer is absorbed by the fallback.  Without a tokenizer,
    and whenever the tokenizer raises, the result is [len(text) // 4].
    The empty text yields 0 (an exact tokenizer being one that encodes
    the empty text to no token). *)
Theorem estimate_tokens_contract (tiktoken : option tokenizer) (model : text)
    (Hempty : empty_to_empty tiktoken) :
  (forall t, 0 <= estimate_tokens tiktoken t model) /\
  estimate_tokens tiktoken [] model = 0 /\
  (forall t, estimate_tokens None t model = Z.of_nat (length t) / 4) /\
  (forall tk t, (forall enc, tk enc t = EncodeRaised) ->
     estimate_tokens (Some tk) t model = Z.of_nat (length t) / 4).
Proof.
  repeat split.
  - intros t. unfold estimate_tokens.
    destruct tiktoken as [tk|]; [|apply heuristic_tokens_nonneg].
    destruct (tk _ t); [lia | apply heuristic_tokens_nonneg].
  - unfold estimate_tokens.
    destruct tiktoken as [tk|] eqn:Htk; [|reflexivity].
    destruct (tk _ []) as [ids|] eqn:Henc; [|reflexivity].
    now rewrite (Hempty tk _ ids eq_refl Henc).
  - intros tk t Hraise. unfold estimate_tokens. now rewrite Hraise.
Qed.

(** The hypothesis of C5 is met without a tokenizer; here at the text
    ["abcdefghi"]. *)
Lemma estimate_tokens_contract_witness :
  empty_to_empty None /\
  estimate_tokens None (txt "abcdefghi") (txt "gpt-4") = 2.
Proof.
  assert (H : empty_to_empty None) by (intros tk enc ids Hs; discriminate Hs).
  split; [exact H|].
  destruct (estimate_tokens_contract None (txt "gpt-4") H) as (_ & _ & Hh & _).
  rewrite Hh. reflexivity.
Defined.

(* ================================================================== *)
(** ** Budget Checker: properties *)
(* ================================================================== *)

(** C6. [check_token_limit] returns [(exceeds, tokens, limit)] with
    [tokens] the estimate, [limit] the table entry of the model name,
    7000 (the gpt-4 entry) for a name that is not in the table, and
    [exceeds] true exactly when [tokens > limit].  For ["short text"]
    and ["gpt-4"] the limit is 7000; without an exact tokenizer the
    result is [(False, 2, 7000)], and with one [exceeds] is [False]
    unless the tokenizer counts more than 7000 tokens in those ten
    characters. *)
Theorem check_token_limit_contract (tiktoken : option tokenizer)
    (discovery_content observability_platform model : text) :
  let '(exceeds, tokens, limit) :=
    check_token_limit tiktoken discovery_content observability_platform model in
  tokens = estimate_tokens tiktoken discovery_content model /\
  limit = (if known_model model then dict_get MODEL_TOKEN_LIMITS model 0 else 7000) /\
  (exceeds = true <-> tokens > limit) /\
  check_token_limit None (txt "short text") observability_platform (txt "gpt-4")
    = (false, 2, 7000) /\
  check_token_limit tiktoken (txt "short text") observability_platform (txt "gpt-4")
    = (estimate_tokens tiktoken (txt "short text") (txt "gpt-4") >? 7000,
       estimate_tokens tiktoken (txt "short text") (txt "gpt-4"), 7000).
Proof.
  unfold check_token_limit. cbv zeta.
  split; [reflexivity|]. split; [|split; [|split; reflexivity]].
  - unfold known_model. destruct (existsb _ MODEL_TOKEN_LIMITS) eqn:Hk.
    + now apply dict_get_known.
    + now apply dict_get_unknown.
  - rewrite Z.gtb_ltb, Z.ltb_lt. lia.
Qed.

(* ================================================================== *)
(** ** Regular expressions: what a match of a heading pattern is *)
(* ================================================================== *)

Lemma plus_greedy_consumes (a : atom) (k : continuation) (s acc : text) r :
  plus_greedy a k s (true, acc) = Some r ->
  exists u s', s = u ++ s' /\ k s' (true, rev u ++ acc) = Some r.
Proof.
  revert acc; induction s as [|c s IH]; intros acc; simpl; [discriminate|].
  destruct (atom_matches a c); [|discriminate].
  unfold push; simpl.
  destruct (plus_greedy a k s (true, c :: acc)) as [r'|] eqn:Hmore.
  - intros [= <-]. destruct (IH _ Hmore) as (u & s' & -> & Hk).
    exists (c :: u), s'. split; [reflexivity|].
    simpl. now rewrite <- app_assoc.
  - intros Hk. exists [c], s. now split.
Qed.

Lemma plus_lazy_consumes (a : atom) (k : continuation) (s acc : text) r :
  plus_lazy a k s (true, acc) = Some r ->
  exists u s', s = u ++ s' /\ k s' (true, rev u ++ acc) = Some r.
Proof.
  revert acc; induction s as [|c s IH]; intros acc; simpl; [discriminate|].
  destruct (atom_matches a c); [|discriminate].
  unfold push; simpl.
  destruct (k s (true, c :: acc)) as [r'|] eqn:Hk.
  - intros [= <-]. exists [c], s. now split.
  - intros Hmore. destruct (IH _ Hmore) as (u & s' & -> & Hk').
    exists (c :: u), s'. split; [reflexivity|].
    simpl. now rewrite <- app_assoc.
Qed.

(** Inside the group, a run of plain nodes consumes a prefix of the
    input and records exactly that prefix. *)
Lemma plain_nodes_consume (body tail : regex) :
  Forall plain body ->
  forall s acc r,
    re_match (body ++ tail) s (true, acc) = Some r ->
    exists u s', s = u ++ s' /\ re_match tail s' (true, rev u ++ acc) = Some r.
Proof.
  induction 1 as [|n body Hn _ IH]; intros s acc r; simpl.
  - intros Hr. exists [], s. now split.
  - destruct n as [a|a|a| |]; try contradiction; simpl.
    + destruct s as [|c s]; [discriminate|].
      destruct (atom_matches a c); [|discriminate].
      unfold push; simpl. intros Hr.
      destruct (IH _ _ _ Hr) as (u & s' & -> & Ht).
      exists (c :: u), s'. split; [reflexivity|].
      simpl. now rewrite <- app_assoc.
    + intros Hr. apply plus_greedy_consumes in Hr as (u1 & s1 & -> & Hr).
      destruct (IH _ _ _ Hr) as (u & s' & -> & Ht).
      exists (u1 ++ u), s'. split; [now rewrite app_assoc|].
      now rewrite rev_app_distr, <- app_assoc.
    + intros Hr. apply plus_lazy_consumes in Hr as (u1 & s1 & -> & Hr).
      destruct (IH _ _ _ Hr) as (u & s' & -> & Ht).
      exists (u1 ++ u), s'. split; [now rewrite app_assoc|].
      now rewrite rev_app_distr, <- app_assoc.
Qed.

Lemma heading_body_plain (hashes : nat) :
  Forall plain (repeat (One (Lit HASH)) hashes ++ [Plus Space; PlusLazy Dot]).
Proof.
  apply Forall_app; split.
  - apply Forall_forall. intros n Hn. apply repeat_spec in Hn. now subst.
  - repeat constructor.
Qed.

(** A match of a heading pattern is a newline, the group, a newline. *)
Lemma heading_match_shape (hashes : nat) (s group rest : text) :
  match_at (heading hashes) s = Some (group, rest) ->
  s = NL :: group ++ NL :: rest.
Proof.
  unfold match_at, heading. simpl.
  destruct s as [|c s]; [discriminate|].
  unfold char_eqb. destruct (N.eqb_spec c NL) as [->|]; [|discriminate].
  unfold push; simpl.
  change (repeat (One (Lit HASH)) hashes ++
          [Plus Space; PlusLazy Dot; GroupClose; One (Lit NL)])
    with (repeat (One (Lit HASH)) hashes ++
          [Plus Space; PlusLazy Dot] ++ [GroupClose; One (Lit NL)]).
  rewrite app_assoc. intros Hr.
  apply (plain_nodes_consume _ _ (heading_body_plain hashes)) in Hr
    as (u & s' & -> & Hr).
  simpl in Hr. destruct s' as [|c' s']; [discriminate|].
  unfold char_eqb in Hr. destruct (N.eqb_spec c' NL) as [->|]; [|discriminate].
  unfold push in Hr; simpl in Hr.
  injection Hr as <- <-.
  now rewrite app_nil_r, rev_involutive.
Qed.

(** A match of the major-heading pattern starts with a newline and two
    hashes. *)
Lemma major_match_prefix (s : text) r :
  match_at major_heading s = Some r -> startswith s [NL; HASH; HASH] = true.
Proof.
  unfold match_at, major_heading, heading. simpl.
  destruct s as [|c0 s]; [discriminate|].
  destruct (char_eqb c0 NL) eqn:E0; [|discriminate].
  destruct s as [|c1 s]; [discriminate|].
  destruct (char_eqb c1 HASH) eqn:E1; [|discriminate].
  destruct s as [|c2 s]; [discriminate|].
  destruct (char_eqb c2 HASH) eqn:E2; [|discriminate].
  intros _. cbn [startswith]. rewrite E0, E1, E2. now destruct s.
Qed.

Lemma split_from_nonempty (r : regex) (s : text) (skip : nat) (piece : text) :
  split_from r s skip piece <> [].
Proof.
  revert skip piece; induction s as [|c s IH]; intros skip piece; simpl;
    [discriminate|].
  destruct skip; [|apply IH].
  destruct (match_at r (c :: s)) as [[group rest]|]; [discriminate|apply IH].
Qed.

Lemma join_cons (sep p : text) (ps : list text) :
  ps <> [] -> join sep (p :: ps) = p ++ sep ++ join sep ps.
Proof. destruct ps; [congruence | reflexivity]. Qed.

(** Joining the pieces of a split on a heading pattern with single
    newlines gives the text back. *)
Lemma split_from_join (hashes : nat) (s : text) :
  forall skip piece, (skip <= length s)%nat ->
    join [NL] (split_from (heading hashes) s skip piece) = rev piece ++ skipn skip s.
Proof.
  induction s as [|c s IH]; intros skip piece Hskip; simpl.
  - destruct skip; [simpl; now rewrite app_nil_r | simpl in Hskip; lia].
  - destruct skip as [|n].
    + destruct (match_at (heading hashes) (c :: s)) as [[group rest]|] eqn:Hm.
      * apply heading_match_shape in Hm. injection Hm as -> ->.
        rewrite join_cons by discriminate.
        rewrite join_cons by apply split_from_nonempty.
        rewrite IH by (rewrite length_app; simpl; lia).
        rewrite length_app. simpl length.
        replace (length group + S (length rest) - length rest)%nat
          with (length group + 1)%nat by lia.
        rewrite skipn_app, skipn_all2 by lia.
        replace (length group + 1 - length group)%nat with 1%nat by lia.
        reflexivity.
      * rewrite IH by lia. simpl. now rewrite <- app_assoc.
    + simpl in Hskip. apply IH. lia.
Qed.

Lemma re_split_join (hashes : nat) (s : text) :
  join [NL] (re_split (heading hashes) s) = s.
Proof. unfold re_split. now rewrite split_from_join by lia. Qed.

Lemma split_from_no_match (r : regex) (s : text) :
  no_match r s = true -> forall piece, split_from r s O piece = [rev piece ++ s].
Proof.
  induction s as [|c s IH]; simpl; intros Hn piece.
  - now rewrite app_nil_r.
  - destruct (match_at r (c :: s)); [discriminate|].
    rewrite IH by assumption. simpl. now rewrite <- app_assoc.
Qed.

Lemma re_split_no_match (r : regex) (s : text) :
  no_match r s = true -> re_split r s = [s].
Proof. intros Hn. unfold re_split. now rewrite split_from_no_match. Qed.

(** A text in which no newline is followed by two hashes has no match
    of the major-heading pattern. *)
Lemma no_newline_hashes_no_match (s : text) :
  contains s [NL; HASH; HASH] = false -> no_match major_heading s = true.
Proof.
  induction s as [|c s IH]; intros Hc.
  - reflexivity.
  - cbn [contains] in Hc. apply orb_false_iff in Hc as [Hhere Hlater].
    cbn [no_match].
    destruct (match_at major_heading (c :: s)) as [r|] eqn:Hm.
    + apply major_match_prefix in Hm. congruence.
    + now apply IH.
Qed.

(* ================================================================== *)
(** ** Section-Aware Chunker: nothing is lost *)
(* ================================================================== *)

Lemma without_newlines_app (a b : text) :
  without_newlines (a ++ b) = without_newlines a ++ without_newlines b.
Proof. apply filter_app. Qed.

Lemma without_newlines_join (sep : text) (pieces : list text) :
  without_newlines sep = [] ->
  without_newlines (join sep pieces) = flat_map without_newlines pieces.
Proof.
  intros Hsep. induction pieces as [|p [|q rest] IH].
  - reflexivity.
  - simpl. now rewrite app_nil_r.
  - change (join sep (p :: q :: rest)) with (p ++ sep ++ join sep (q :: rest)).
    rewrite !without_newlines_app, Hsep, IH. reflexivity.
Qed.

Lemma flat_map_split (hashes : nat) (t : text) :
  flat_map without_newlines (re_split (heading hashes) t) = without_newlines t.
Proof.
  rewrite <- (without_newlines_join [NL]) by reflexivity.
  now rewrite re_split_join.
Qed.

Section ChunkerContent.

Variable est : text -> Z.
Variable max_tokens : Z.

Lemma accumulate_content (b : buffer) (piece : text) :
  content_of (accumulate est max_tokens b piece) =
  content_of b ++ without_newlines piece.
Proof.
  unfold accumulate, content_of.
  destruct (_ && _); cbn [chunks current_chunk].
  - rewrite flat_map_app. cbn [flat_map]. now rewrite app_nil_r.
  - rewrite without_newlines_app, <- app_assoc.
    destruct (truthy (current_chunk b)); reflexivity.
Qed.

Lemma subsection_loop_content (subsections : list text) :
  forall b,
    content_of (subsection_loop est max_tokens subsections b) =
    content_of b ++ flat_map without_newlines subsections.
Proof.
  assert (H : forall n subs, (length subs <= n)%nat -> forall b,
             content_of (subsection_loop est max_tokens subs b) =
             content_of b ++ flat_map without_newlines subs).
  { induction n as [|n IH]; intros subs Hlen b.
    - destruct subs; [simpl; now rewrite app_nil_r | simpl in Hlen; lia].
    - destruct subs as [|s0 [|s1 rest]].
      + simpl; now rewrite app_nil_r.
      + simpl. rewrite accumulate_content. now rewrite app_nil_r.
      + cbn [subsection_loop]. rewrite IH by (simpl in Hlen; lia).
        rewrite accumulate_content, !without_newlines_app.
        simpl. now rewrite <- !app_assoc. }
  now apply (H (length subsections)).
Qed.

Lemma section_loop_content (sections : list text) :
  forall b,
    content_of (section_loop est max_tokens sections b) =
    content_of b ++ flat_map without_newlines sections.
Proof.
  assert (H : forall n secs, (length secs <= n)%nat -> forall b,
             content_of (section_loop est max_tokens secs b) =
             content_of b ++ flat_map without_newlines secs).
  { induction n as [|n IH]; intros secs Hlen b.
    - destruct secs; [simpl; now rewrite app_nil_r | simpl in Hlen; lia].
    - destruct secs as [|section rest]; [simpl; now rewrite app_nil_r|].
      cbn [section_loop].
      destruct (startswith section [HASH; HASH]).
      + destruct rest as [|next rest'].
        * rewrite accumulate_content. simpl. now rewrite app_nil_r.
        * rewrite IH by (simpl in Hlen; lia).
          assert (Hpair : without_newlines (section ++ [NL] ++ next) =
                          without_newlines section ++ without_newlines next)
            by now rewrite !without_newlines_app.
          destruct (_ >? _).
          -- rewrite subsection_loop_content.
             change minor_heading with (heading 3).
             rewrite flat_map_split, Hpair. simpl. now rewrite <- !app_assoc.
          -- rewrite accumulate_content, Hpair. simpl. now rewrite <- !app_assoc.
      + rewrite IH by (simpl in Hlen; lia).
        rewrite accumulate_content. simpl. now rewrite <- app_assoc. }
  now apply (H (length sections)).
Qed.

Lemma finish_nonempty (t : text) (b : buffer) : finish t b <> [].
Proof.
  unfold finish. destruct (truthy (current_chunk b)).
  - destruct (chunks b); discriminate.
  - destruct (chunks b); discriminate.
Qed.

Lemma finish_content (t : text) (b : buffer) :
  content_of b = without_newlines t ->
  without_newlines (join [NL; NL] (finish t b)) = without_newlines t.
Proof.
  unfold finish, content_of. intros Hb.
  rewrite without_newlines_join by reflexivity.
  destruct (current_chunk b) as [|c cur] eqn:Hcur; simpl truthy; cbv iota.
  - destruct (chunks b) as [|ch chs].
    + simpl. now rewrite app_nil_r.
    + rewrite <- Hb. simpl. now rewrite !app_nil_r.
  - rewrite <- Hb. destruct (chunks b) as [|ch chs]; cbn [app].
    + cbn [flat_map]. now rewrite app_nil_r.
    + cbn [flat_map]. rewrite flat_map_app. cbn [flat_map].
      now rewrite app_nil_r, app_assoc.
Qed.

Lemma chunk_with_content (t : text) :
  chunk_with est max_tokens t <> [] /\
  without_newlines (join [NL; NL] (chunk_with est max_tokens t)) =
  without_newlines t.
Proof.
  unfold chunk_with. split; [apply finish_nonempty|].
  apply finish_content. rewrite section_loop_content.
  change major_heading with (heading 2). now rewrite flat_map_split.
Qed.

(** A text without a match of the major-heading pattern is one piece,
    and one piece is one chunk, whatever it costs. *)
Lemma chunk_with_no_match (t : text) :
  no_match major_heading t = true -> chunk_with est max_tokens t = [t].
Proof.
  intros Hn. unfold chunk_with. rewrite re_split_no_match by assumption.
  assert (Hacc : accumulate est max_tokens empty_buffer t =
                 {| chunks := []; current_chunk := t; current_tokens := 0 + est t |}).
  { unfold accumulate. simpl. now rewrite andb_false_r. }
  assert (Hloop : section_loop est max_tokens [t] empty_buffer =
                  accumulate est max_tokens empty_buffer t).
  { cbn [section_loop]. now destruct (startswith t [HASH; HASH]). }
  rewrite Hloop, Hacc. unfold finish. simpl. now destruct t.
Qed.

End ChunkerContent.

(* ================================================================== *)
(** ** Section-Aware Chunker: a text within the budget *)
(* ================================================================== *)

Lemma weight_nonneg (pieces : list text) : 0 <= weight pieces.
Proof. induction pieces; simpl; lia. Qed.

Lemma weight_join (pieces : list text) :
  pieces <> [] -> Z.of_nat (length (join [NL] pieces)) + 1 = weight pieces.
Proof.
  induction pieces as [|p [|q rest] IH]; intros Hne.
  - congruence.
  - simpl. lia.
  - change (join [NL] (p :: q :: rest)) with (p ++ [NL] ++ join [NL] (q :: rest)).
    specialize (IH ltac:(discriminate)).
    rewrite !length_app. change (length [NL]) with 1%nat.
    cbn [weight] in *. lia.
Qed.

Lemma weight_split (hashes : nat) (t : text) :
  weight (re_split (heading hashes) t) = Z.of_nat (length t) + 1.
Proof.
  rewrite <- weight_join by apply split_from_nonempty.
  now rewrite re_split_join.
Qed.

Section HeuristicBudget.

Variable max_tokens : Z.

(** Under the length/4 estimate, a piece that still fits leaves the
    list of closed chunks empty. *)
Lemma accumulate_fits (b : buffer) (piece : text) :
  chunks b = [] -> 0 <= current_tokens b ->
  4 * current_tokens b + Z.of_nat (length piece) <= 4 * max_tokens + 3 ->
  chunks (accumulate heuristic_tokens max_tokens b piece) = [] /\
  0 <= current_tokens (accumulate heuristic_tokens max_tokens b piece) /\
  4 * current_tokens (accumulate heuristic_tokens max_tokens b piece)
    <= 4 * current_tokens b + Z.of_nat (length piece).
Proof.
  intros Hch Hpos Hfit. unfold accumulate, heuristic_tokens.
  pose proof (Z.mul_div_le (Z.of_nat (length piece)) 4 ltac:(lia)) as Hdiv.
  pose proof (Z.div_pos (Z.of_nat (length piece)) 4 ltac:(lia) ltac:(lia)) as Hq.
  replace (current_tokens b + Z.of_nat (length piece) / 4 >? max_tokens)
    with false by (symmetry; rewrite Z.gtb_ltb; apply Z.ltb_ge; lia).
  cbn [andb chunks current_tokens]. repeat split; [assumption | lia | lia].
Qed.

Lemma section_loop_fits (sections : list text) :
  forall b,
    chunks b = [] -> 0 <= current_tokens b ->
    4 * current_tokens b + weight sections <= 4 * max_tokens + 4 ->
    chunks (section_loop heuristic_tokens max_tokens sections b) = [].
Proof.
  assert (H : forall n secs, (length secs <= n)%nat -> forall b,
             chunks b = [] -> 0 <= current_tokens b ->
             4 * current_tokens b + weight secs <= 4 * max_tokens + 4 ->
             chunks (section_loop heuristic_tokens max_tokens secs b) = []).
  { induction n as [|n IH]; intros secs Hlen b Hch Hpos Hfit.
    - destruct secs; [assumption | simpl in Hlen; lia].
    - destruct secs as [|section rest]; [assumption|].
      cbn [section_loop weight] in *.
      pose proof (weight_nonneg rest) as Hrest.
      destruct (startswith section [HASH; HASH]).
      + destruct rest as [|next rest'].
        * apply accumulate_fits; [assumption | assumption | lia].
        * cbn [weight] in *.
          pose proof (weight_nonneg rest') as Hrest'.
          assert (Hlen' : Z.of_nat (length (section ++ [NL] ++ next)) =
                          Z.of_nat (length section) + 1 + Z.of_nat (length next))
            by (rewrite !length_app; simpl length; lia).
          pose proof (Z.mul_div_le (Z.of_nat (length (section ++ [NL] ++ next))) 4
                        ltac:(lia)) as Hdiv.
          replace (heuristic_tokens (section ++ [NL] ++ next) >? max_tokens)
            with false
            by (symmetry; unfold heuristic_tokens; rewrite Z.gtb_ltb;
                apply Z.ltb_ge; lia).
          destruct (accumulate_fits b (section ++ [NL] ++ next) Hch Hpos
                      ltac:(lia)) as (Hch' & Hpos' & Hle).
          apply IH; [simpl in Hlen; lia | assumption | assumption | lia].
      + destruct (accumulate_fits b section Hch Hpos ltac:(lia))
          as (Hch' & Hpos' & Hle).
        apply IH; [simpl in Hlen; lia | assumption | assumption | lia]. }
  now apply (H (length sections)).
Qed.

Lemma chunk_with_fits (t : text) :
  heuristic_tokens t <= max_tokens ->
  exists c, chunk_with heuristic_tokens max_tokens t = [c].
Proof.
  intros Hfit. unfold chunk_with.
  assert (Hch : chunks (section_loop heuristic_tokens max_tokens
                          (re_split major_heading t) empty_buffer) = []).
  { apply section_loop_fits; [reflexivity | simpl; lia |].
    change major_heading with (heading 2). rewrite weight_split.
    unfold heuristic_tokens in Hfit. cbn [current_tokens empty_buffer].
    pose proof (Z.mod_pos_bound (Z.of_nat (length t)) 4 ltac:(lia)).
    pose proof (Z.div_mod (Z.of_nat (length t)) 4 ltac:(lia)). lia. }
  unfold finish. rewrite Hch.
  destruct (truthy _); simpl; eauto.
Qed.

End HeuristicBudget.

(* ================================================================== *)
(** ** Section-Aware Chunker: the chunks are groups of pieces *)
(* ================================================================== *)

Lemma skip_empty_head (group : list text) (piece : text) (rest : list text) :
  skip_empty group = piece :: rest -> piece <> [].
Proof.
  induction group as [|p group IH]; [discriminate|].
  destruct p as [|c p]; cbn [skip_empty]; [exact IH|].
  intros [= <- _]. discriminate.
Qed.

Lemma chunk_of_empty (group : list text) :
  chunk_of group = [] -> skip_empty group = [].
Proof.
  unfold chunk_of. destruct (skip_empty group) as [|piece rest] eqn:Hs; [reflexivity|].
  pose proof (skip_empty_head _ _ _ Hs) as Hne.
  destruct piece as [|c piece]; [congruence|]. destruct rest; discriminate.
Qed.

Lemma skip_empty_app_nil (group more : list text) :
  skip_empty group = [] -> skip_empty (group ++ more) = skip_empty more.
Proof.
  induction group as [|p group IH]; [reflexivity|].
  destruct p as [|c p]; cbn [skip_empty app]; [exact IH | discriminate].
Qed.

Lemma skip_empty_app_cons (group more : list text) :
  skip_empty group <> [] -> skip_empty (group ++ more) = skip_empty group ++ more.
Proof.
  induction group as [|p group IH]; [intros H; now contradiction H|].
  destruct p as [|c p]; cbn [skip_empty app]; [exact IH | reflexivity].
Qed.

Lemma join_snoc (sep : text) (pieces : list text) (piece : text) :
  pieces <> [] -> join sep (pieces ++ [piece]) = join sep pieces ++ sep ++ piece.
Proof.
  induction pieces as [|p [|q rest] IH]; intros Hne.
  - congruence.
  - reflexivity.
  - change (join sep ((p :: q :: rest) ++ [piece]))
      with (p ++ sep ++ join sep ((q :: rest) ++ [piece])).
    rewrite IH by discriminate.
    change (join sep (p :: q :: rest)) with (p ++ sep ++ join sep (q :: rest)).
    now rewrite <- !app_assoc.
Qed.

Lemma chunk_of_snoc (group : list text) (piece : text) :
  chunk_of (group ++ [piece]) =
  chunk_of group ++ (if truthy (chunk_of group) then [NL; NL] ++ piece else piece).
Proof.
  destruct (chunk_of group) as [|c cur] eqn:Hcur; cbn [truthy].
  - apply chunk_of_empty in Hcur. unfold chunk_of.
    rewrite (skip_empty_app_nil _ _ Hcur). now destruct piece.
  - assert (Hne : skip_empty group <> []).
    { intros H. unfold chunk_of in Hcur. rewrite H in Hcur. discriminate. }
    unfold chunk_of in *. rewrite (skip_empty_app_cons _ _ Hne), join_snoc by assumption.
    now rewrite Hcur.
Qed.

Lemma terminated_app (a b : list text) :
  terminated (a ++ b) = terminated a ++ terminated b.
Proof. apply flat_map_app. Qed.

Lemma terminated_cons (piece : text) (pieces : list text) :
  terminated (piece :: pieces) = terminated [piece] ++ terminated pieces.
Proof. apply (terminated_app [piece] pieces). Qed.

Lemma terminated_pair (a b : text) :
  terminated [a ++ [NL] ++ b] = terminated [a; b].
Proof. unfold terminated. simpl. now rewrite <- !app_assoc. Qed.

Lemma terminated_join (pieces : list text) :
  pieces <> [] -> terminated pieces = join [NL] pieces ++ [NL].
Proof.
  induction pieces as [|p [|q rest] IH]; intros Hne.
  - congruence.
  - unfold terminated. simpl. now rewrite app_nil_r.
  - change (join [NL] (p :: q :: rest)) with (p ++ [NL] ++ join [NL] (q :: rest)).
    change (terminated (p :: q :: rest)) with ((p ++ [NL]) ++ terminated (q :: rest)).
    rewrite IH by discriminate. now rewrite <- !app_assoc.
Qed.

Lemma terminated_split (hashes : nat) (t : text) :
  terminated (re_split (heading hashes) t) = t ++ [NL].
Proof.
  rewrite terminated_join by apply split_from_nonempty. now rewrite re_split_join.
Qed.

Section ChunkerGroups.

Variable est : text -> Z.
Variable max_tokens : Z.

(** A piece goes to the running group, or closes it and opens the
    next one. *)
Lemma accumulate_holds (b : buffer) (closed : list (list text)) (running : list text)
    (piece : text) :
  holds b closed running ->
  exists closed' running',
    holds (accumulate est max_tokens b piece) closed' running' /\
    concat closed' ++ running' = (concat closed ++ running) ++ [piece].
Proof.
  intros (Hchunks & Hclosed & Hcur). unfold accumulate.
  destruct (current_tokens b + est piece >? max_tokens); cbn [andb].
  - destruct (truthy (current_chunk b)) eqn:Htruthy.
    + exists (closed ++ [running]), [piece]. split.
      * unfold holds. cbn [chunks current_chunk]. repeat split.
        -- now rewrite map_app, Hchunks, Hcur.
        -- apply Forall_app. split; [assumption|]. constructor; [|constructor].
           now rewrite <- Hcur.
        -- unfold chunk_of. now destruct piece.
      * rewrite concat_app. cbn [concat]. now rewrite app_nil_r.
    + exists closed, (running ++ [piece]). split.
      * unfold holds. cbn [chunks current_chunk]. repeat split; try assumption.
        now rewrite chunk_of_snoc, <- Hcur, Htruthy.
      * now rewrite app_assoc.
  - exists closed, (running ++ [piece]). split.
    + unfold holds. cbn [chunks current_chunk]. repeat split; try assumption.
      now rewrite chunk_of_snoc, <- Hcur.
    + now rewrite app_assoc.
Qed.

Lemma subsection_loop_holds (subsections : list text) :
  forall b closed running,
    holds b closed running ->
    exists closed' running' units,
      holds (subsection_loop est max_tokens subsections b) closed' running' /\
      concat closed' ++ running' = (concat closed ++ running) ++ units /\
      terminated units = terminated subsections.
Proof.
  assert (H : forall n subs, (length subs <= n)%nat -> forall b closed running,
             holds b closed running ->
             exists closed' running' units,
               holds (subsection_loop est max_tokens subs b) closed' running' /\
               concat closed' ++ running' = (concat closed ++ running) ++ units /\
               terminated units = terminated subs).
  { induction n as [|n IH]; intros subs Hlen b closed running Hb.
    - destruct subs; [|simpl in Hlen; lia].
      exists closed, running, []. now rewrite app_nil_r.
    - destruct subs as [|s0 [|s1 rest]].
      + exists closed, running, []. now rewrite app_nil_r.
      + cbn [subsection_loop].
        destruct (accumulate_holds b closed running s0 Hb) as (c' & r' & Hb' & Hcat).
        exists c', r', [s0]. auto.
      + cbn [subsection_loop].
        destruct (accumulate_holds b closed running (s0 ++ [NL] ++ s1) Hb)
          as (c1 & r1 & Hb1 & Hcat1).
        destruct (IH rest ltac:(simpl in Hlen; lia) _ c1 r1 Hb1)
          as (c' & r' & units & Hb' & Hcat & Hunits).
        exists c', r', ((s0 ++ [NL] ++ s1) :: units). split; [exact Hb'|]. split.
        * rewrite Hcat, Hcat1, <- !app_assoc. reflexivity.
        * unfold terminated in *. cbn [flat_map]. rewrite Hunits.
          simpl. now rewrite <- !app_assoc. }
  now apply (H (length subsections)).
Qed.

Lemma section_loop_holds (sections : list text) :
  forall b closed running,
    holds b closed running ->
    exists closed' running' units,
      holds (section_loop est max_tokens sections b) closed' running' /\
      concat closed' ++ running' = (concat closed ++ running) ++ units /\
      terminated units = terminated sections.
Proof.
  assert (H : forall n secs, (length secs <= n)%nat -> forall b closed running,
             holds b closed running ->
             exists closed' running' units,
               holds (section_loop est max_tokens secs b) closed' running' /\
               concat closed' ++ running' = (concat closed ++ running) ++ units /\
               terminated units = terminated secs).
  { induction n as [|n IH]; intros secs Hlen b closed running Hb.
    - destruct secs; [|simpl in Hlen; lia].
      exists closed, running, []. now rewrite app_nil_r.
    - destruct secs as [|section rest].
      { exists closed, running, []. now rewrite app_nil_r. }
      cbn [section_loop].
      assert (Hsingle :
        exists closed' running' units,
          holds (section_loop est max_tokens rest (accumulate est max_tokens b section))
            closed' running' /\
          concat closed' ++ running' = (concat closed ++ running) ++ units /\
          terminated units = terminated (section :: rest)).
      { destruct (accumulate_holds b closed running section Hb)
          as (c1 & r1 & Hb1 & Hcat1).
        destruct (IH rest ltac:(simpl in Hlen; lia) _ c1 r1 Hb1)
          as (c' & r' & units & Hb' & Hcat & Hunits).
        exists c', r', (section :: units). split; [exact Hb'|]. split.
        - rewrite Hcat, Hcat1, <- !app_assoc. reflexivity.
        - unfold terminated in *. cbn [flat_map]. now rewrite Hunits. }
      destruct (startswith section [HASH; HASH]); [|exact Hsingle].
      destruct rest as [|next rest'].
      + destruct (accumulate_holds b closed running section Hb)
          as (c1 & r1 & Hb1 & Hcat1).
        exists c1, r1, [section]. auto.
      + assert (Hfirst :
          exists c1 r1 units1,
            holds (if est (section ++ [NL] ++ next) >? max_tokens
                   then subsection_loop est max_tokens
                          (re_split minor_heading (section ++ [NL] ++ next)) b
                   else accumulate est max_tokens b (section ++ [NL] ++ next))
              c1 r1 /\
            concat c1 ++ r1 = (concat closed ++ running) ++ units1 /\
            terminated units1 = terminated [section; next]).
        { destruct (est (section ++ [NL] ++ next) >? max_tokens).
          - destruct (subsection_loop_holds
                        (re_split minor_heading (section ++ [NL] ++ next))
                        b closed running Hb) as (c1 & r1 & units1 & Hb1 & Hcat1 & Hu1).
            exists c1, r1, units1. split; [exact Hb1|]. split; [exact Hcat1|].
            rewrite Hu1. change minor_heading with (heading 3).
            rewrite terminated_split. unfold terminated. simpl.
            now rewrite <- !app_assoc.
          - destruct (accumulate_holds b closed running (section ++ [NL] ++ next) Hb)
              as (c1 & r1 & Hb1 & Hcat1).
            exists c1, r1, [section ++ [NL] ++ next]. split; [exact Hb1|].
            split; [exact Hcat1 | apply terminated_pair]. }
        destruct Hfirst as (c1 & r1 & units1 & Hb1 & Hcat1 & Hu1).
        destruct (IH rest' ltac:(simpl in Hlen; lia) _ c1 r1 Hb1)
          as (c' & r' & units & Hb' & Hcat & Hunits).
        exists c', r', (units1 ++ units). split; [exact Hb'|]. split.
        * rewrite Hcat, Hcat1, <- !app_assoc. reflexivity.
        * rewrite terminated_app, Hu1, Hunits.
          now rewrite <- (terminated_app [section; next] rest'). }
  now apply (H (length sections)).
Qed.

Lemma finish_holds (t : text) (b : buffer) (closed : list (list text))
    (running : list text) :
  holds b closed running ->
  finish t b = or_whole (chunks_of (closed ++ [running])) t.
Proof.
  intros (Hchunks & Hclosed & Hcur). unfold finish, chunks_of. cbv zeta.
  rewrite map_app, filter_app. cbn [map filter]. rewrite <- Hcur.
  assert (Hkept : filter truthy (map chunk_of closed) = map chunk_of closed).
  { clear Hchunks. induction Hclosed as [|group closed Hg _ IH]; [reflexivity|].
    cbn [map filter]. now rewrite Hg, IH. }
  rewrite Hkept, <- Hchunks.
  destruct (truthy (current_chunk b)); [reflexivity|]. now rewrite app_nil_r.
Qed.

(** The chunks are the pieces of the text, cut at newlines, taken in
    order and by groups. *)
Lemma chunk_with_groups (t : text) :
  exists closed running,
    join [NL] (concat closed ++ running) = t /\
    chunks (section_loop est max_tokens (re_split major_heading t) empty_buffer) =
      map chunk_of closed /\
    chunk_with est max_tokens t = or_whole (chunks_of (closed ++ [running])) t.
Proof.
  assert (Hstart : holds empty_buffer [] []) by (repeat split; constructor).
  destruct (section_loop_holds (re_split major_heading t) empty_buffer [] [] Hstart)
    as (closed & running & units & Hb & Hcat & Hunits).
  exists closed, running. cbn [concat app] in Hcat.
  split; [|split; [apply Hb | now apply finish_holds]].
  change major_heading with (heading 2) in Hunits.
  rewrite terminated_split in Hunits. rewrite Hcat.
  assert (Hne : units <> []) by (intros ->; destruct t; discriminate).
  rewrite terminated_join in Hunits by assumption.
  now apply app_inv_tail in Hunits.
Qed.

End ChunkerGroups.

(* ================================================================== *)
(** ** Section-Aware Chunker: when cutting costs no token *)
(* ================================================================== *)

Lemma estimate_tokens_nonneg (tiktoken : option tokenizer) (t model : text) :
  0 <= estimate_tokens tiktoken t model.
Proof.
  unfold estimate_tokens. destruct tiktoken as [tk|]; [|apply heuristic_tokens_nonneg].
  destruct (tk _ t); [lia | apply heuristic_tokens_nonneg].
Qed.

(** The length/4 estimate of two texts is no more than that of the
    texts joined by a newline. *)
Lemma heuristic_tokens_split (x y : text) :
  heuristic_tokens x + heuristic_tokens y <= heuristic_tokens (x ++ [NL] ++ y).
Proof.
  unfold heuristic_tokens. rewrite !length_app. cbn [length].
  pose proof (Z.div_mod (Z.of_nat (length x)) 4 ltac:(lia)).
  pose proof (Z.mod_pos_bound (Z.of_nat (length x)) 4 ltac:(lia)).
  pose proof (Z.div_mod (Z.of_nat (length y)) 4 ltac:(lia)).
  pose proof (Z.mod_pos_bound (Z.of_nat (length y)) 4 ltac:(lia)).
  apply Z.div_le_lower_bound; lia.
Qed.

Section CuttingIsFree.

Variable est : text -> Z.
Variable max_tokens : Z.
Hypothesis est_nonneg : forall x, 0 <= est x.
Hypothesis est_split : forall x y, est x + est y <= est (x ++ [NL] ++ y).

Lemma accumulate_within (b : buffer) (piece : text) :
  chunks b = [] -> current_tokens b + est piece <= max_tokens ->
  chunks (accumulate est max_tokens b piece) = [] /\
  current_tokens (accumulate est max_tokens b piece) = current_tokens b + est piece.
Proof.
  intros Hch Hfit. unfold accumulate.
  replace (current_tokens b + est piece >? max_tokens) with false
    by (symmetry; rewrite Z.gtb_ltb; apply Z.ltb_ge; lia).
  cbn [andb chunks current_tokens]. now split.
Qed.

(** While the pieces still to come fit with what the running chunk
    holds, no chunk is closed. *)
Lemma section_loop_within (sections : list text) :
  forall b,
    chunks b = [] -> 0 <= current_tokens b ->
    (sections <> [] -> current_tokens b + est (join [NL] sections) <= max_tokens) ->
    chunks (section_loop est max_tokens sections b) = [].
Proof.
  assert (H : forall n secs, (length secs <= n)%nat -> forall b,
             chunks b = [] -> 0 <= current_tokens b ->
             (secs <> [] -> current_tokens b + est (join [NL] secs) <= max_tokens) ->
             chunks (section_loop est max_tokens secs b) = []).
  { induction n as [|n IH]; intros secs Hlen b Hch Hpos Hfit.
    - destruct secs; [assumption | simpl in Hlen; lia].
    - destruct secs as [|section rest]; [assumption|].
      specialize (Hfit ltac:(discriminate)).
      cbn [section_loop].
      assert (Hsingle : chunks (section_loop est max_tokens rest
                                  (accumulate est max_tokens b section)) = []).
      { assert (Hhere : current_tokens b + est section <= max_tokens /\
                        (rest <> [] ->
                         current_tokens b + est section + est (join [NL] rest)
                           <= max_tokens)).
        { destruct rest as [|next rest']; [split; [exact Hfit | congruence]|].
          change (join [NL] (section :: next :: rest'))
            with (section ++ [NL] ++ join [NL] (next :: rest')) in Hfit.
          pose proof (est_split section (join [NL] (next :: rest'))).
          pose proof (est_nonneg (join [NL] (next :: rest'))).
          split; [lia | intros _; lia]. }
        destruct Hhere as [Hnow Hlater].
        destruct (accumulate_within b section Hch Hnow) as [Hch' Htok].
        apply IH; [simpl in Hlen; lia | assumption | | ].
        - rewrite Htok. pose proof (est_nonneg section). lia.
        - intros Hne. rewrite Htok. now apply Hlater. }
      destruct (startswith section [HASH; HASH]); [|exact Hsingle].
      destruct rest as [|next rest'].
      + now apply accumulate_within.
      + assert (Hhere : current_tokens b + est (section ++ [NL] ++ next) <= max_tokens /\
                        (rest' <> [] ->
                         current_tokens b + est (section ++ [NL] ++ next) +
                         est (join [NL] rest') <= max_tokens)).
        { destruct rest' as [|third rest''].
          - split; [exact Hfit | congruence].
          - assert (Hjoin : join [NL] (section :: next :: third :: rest'') =
                            (section ++ [NL] ++ next) ++ [NL] ++
                            join [NL] (third :: rest'')).
            { change (join [NL] (section :: next :: third :: rest''))
                with (section ++ [NL] ++ next ++ [NL] ++ join [NL] (third :: rest'')).
              now rewrite <- !app_assoc. }
            rewrite Hjoin in Hfit.
            pose proof (est_split (section ++ [NL] ++ next)
                          (join [NL] (third :: rest''))).
            pose proof (est_nonneg (join [NL] (third :: rest''))).
            split; [lia | intros _; lia]. }
        destruct Hhere as [Hnow Hlater].
        replace (est (section ++ [NL] ++ next) >? max_tokens) with false
          by (symmetry; rewrite Z.gtb_ltb; apply Z.ltb_ge; lia).
        destruct (accumulate_within b (section ++ [NL] ++ next) Hch Hnow)
          as [Hch' Htok].
        apply IH; [simpl in Hlen; lia | assumption | | ].
        * rewrite Htok. pose proof (est_nonneg (section ++ [NL] ++ next)). lia.
        * intros Hne. rewrite Htok. now apply Hlater. }
  now apply (H (length sections)).
Qed.

(** A text within the budget is one group of pieces. *)
Lemma chunk_with_one_group (t : text) :
  est t <= max_tokens ->
  exists units,
    join [NL] units = t /\
    chunk_with est max_tokens t = or_whole (chunks_of [units]) t.
Proof.
  intros Hfit.
  destruct (chunk_with_groups est max_tokens t) as (closed & running & Hjoin & Hch & Hres).
  rewrite section_loop_within in Hch.
  - symmetry in Hch. apply map_eq_nil in Hch. subst closed.
    exists running. now split.
  - reflexivity.
  - cbn [current_tokens empty_buffer]. lia.
  - intros _. change major_heading with (heading 2). rewrite re_split_join.
    cbn [current_tokens empty_buffer]. lia.
Qed.

End CuttingIsFree.

Lemma or_whole_one (group : list text) (t : text) :
  exists c, or_whole (chunks_of [group]) t = [c].
Proof.
  unfold chunks_of. cbn [map filter]. destruct (truthy (chunk_of group)); simpl; eauto.
Qed.

(* ================================================================== *)
(** ** Section-Aware Chunker: the specification's properties *)
(* ================================================================== *)

(** C7, as stated, fails: ["a\n## H\nb"] is within a budget of 100
    tokens, and its single chunk is ["a\n\n## H\nb"], with the newline
    before the heading doubled. *)
Lemma fitting_text_not_returned_verbatim :
  estimate_tokens None doc_one_heading (txt "gpt-4") <= 100 /\
  chunk_discovery_content None doc_one_heading 100 (txt "gpt-4")
    = [lines ["a"; ""; "## H"; "b"]%string] /\
  chunk_discovery_content None doc_one_heading 100 (txt "gpt-4")
    <> [doc_one_heading].
Proof.
  split; [vm_compute; discriminate|].
  split; [vm_compute; reflexivity|].
  vm_compute. discriminate.
Qed.

(** With a tokenizer for which the pieces of a text cost more than the
    text, a text within the budget is cut in two: ["a\n## H\nb"] has 2
    tokens of four characters, its pieces ["a"] and ["## H\nb"] have 1
    and 2. *)
Lemma fitting_text_cut_by_costly_pieces :
  estimate_tokens (Some ceil_tokenizer) doc_one_heading (txt "gpt-4") = 2 /\
  chunk_discovery_content (Some ceil_tokenizer) doc_one_heading 2 (txt "gpt-4")
    = [txt "a"; lines ["## H"; "b"]%string].
Proof. split; vm_compute; reflexivity. Qed.

(** C7, amended. For every tokenizer for which cutting a text at a
    newline costs no token (the length/4 estimate is one), every text
    and budget with [estimate(t) <= b]: the result is one chunk.  The
    chunk is made of pieces that give [t] back when they are joined by
    single newlines: they are joined by blank lines instead, the empty
    pieces at the head left out, and the text itself is returned when
    this leaves nothing.  The chunk holds the characters of [t] in
    their order, newlines apart, and it is [t] itself when the
    major-heading pattern does not occur in [t]. *)
Theorem fitting_text_is_one_chunk (tiktoken : option tokenizer)
    (t : text) (b : Z) (model : text)
    (Hcut : forall x y,
        estimate_tokens tiktoken x model + estimate_tokens tiktoken y model <=
        estimate_tokens tiktoken (x ++ [NL] ++ y) model)
    (Hfit : estimate_tokens tiktoken t model <= b) :
  exists c units,
    chunk_discovery_content tiktoken t b model = [c] /\
    join [NL] units = t /\
    [c] = or_whole (chunks_of [units]) t /\
    without_newlines c = without_newlines t /\
    (no_match major_heading t = true -> c = t).
Proof.
  unfold chunk_discovery_content.
  set (est := fun t0 : text => estimate_tokens tiktoken t0 model).
  destruct (chunk_with_one_group est b
              (fun x => estimate_tokens_nonneg tiktoken x model) Hcut t Hfit)
    as (units & Hjoin & Hres).
  destruct (or_whole_one units t) as [c Hc].
  exists c, units. rewrite Hres, Hc. repeat split; try assumption.
  - destruct (chunk_with_content est b t) as [_ Hcontent].
    now rewrite Hres, Hc in Hcontent.
  - intros Hn. rewrite (chunk_with_no_match est b t Hn), Hc in Hres. congruence.
Qed.

Lemma fitting_text_is_one_chunk_witness :
  exists c units,
    chunk_discovery_content None doc_one_heading 100 (txt "gpt-4") = [c] /\
    join [NL] units = doc_one_heading /\
    [c] = or_whole (chunks_of [units]) doc_one_heading /\
    without_newlines c = without_newlines doc_one_heading /\
    (no_match major_heading doc_one_heading = true -> c = doc_one_heading).
Proof.
  apply (fitting_text_is_one_chunk None doc_one_heading 100 (txt "gpt-4")).
  - intros x y. apply heuristic_tokens_split.
  - vm_compute. discriminate.
Defined.

(** C8, as stated, fails: the two-section document is one chunk under
    a budget of 100 tokens, so there is no chunk boundary, and that
    chunk is not the document: a blank line stands between the heading
    [## B] and its body. *)
Lemma blank_line_inside_a_chunk :
  chunk_discovery_content None doc_two_sections 100 (txt "gpt-4")
    = [lines ["## A"; "aaaaaaaaaaaa"; "## B"; ""; "bbbbbbbbbbbb"]%string] /\
  join [NL; NL] (chunk_discovery_content None doc_two_sections 100 (txt "gpt-4"))
    <> doc_two_sections.
Proof. split; [vm_compute; reflexivity | vm_compute; discriminate]. Qed.

(** C8, amended. For every text, budget, tokenizer and model name the
    result is not empty, and it is made of the text as follows: the
    text is cut at some of its newlines into pieces (joined by single
    newlines the pieces give the text back), the pieces are taken in
    order and by groups, and each group gives one chunk, its pieces
    joined by blank lines; the empty pieces at the head of a group are
    left out, a group that this leaves empty gives no chunk, and when
    no chunk is left the text itself is the result.  So the chunks
    joined by a blank line hold the characters of the text in their
    order, and differ from it only by newlines where it was cut. *)
Theorem chunks_preserve_content (tiktoken : option tokenizer)
    (t : text) (b : Z) (model : text) :
  chunk_discovery_content tiktoken t b model <> [] /\
  (exists groups : list (list text),
      join [NL] (concat groups) = t /\
      chunk_discovery_content tiktoken t b model = or_whole (chunks_of groups) t) /\
  without_newlines (join [NL; NL] (chunk_discovery_content tiktoken t b model))
    = without_newlines t.
Proof.
  unfold chunk_discovery_content.
  set (est := fun t0 : text => estimate_tokens tiktoken t0 model).
  destruct (chunk_with_content est b t) as [Hne Hcontent].
  split; [exact Hne|]. split; [|exact Hcontent].
  destruct (chunk_with_groups est b t) as (closed & running & Hjoin & _ & Hres).
  exists (closed ++ [running]). split; [|exact Hres].
  rewrite concat_app. cbn [concat]. now rewrite app_nil_r.
Qed.

(** C9 at a document of two major-heading sections, ["## A\n" + 12 a's]
    and ["## B\n" + 12 b's], 4 tokens each and 8 together, with a
    budget of 5: the result has two chunks, but the heading of the
    second section closes the first chunk and the second chunk is the
    body of the second section alone. *)
Theorem two_sections_heading_misplaced :
  doc_two_sections = lines ["## A"; "aaaaaaaaaaaa"; "## B"; "bbbbbbbbbbbb"]%string /\
  estimate_tokens None section_a (txt "gpt-4") = 4 /\
  estimate_tokens None section_b (txt "gpt-4") = 4 /\
  estimate_tokens None doc_two_sections (txt "gpt-4") = 8 /\
  re_split major_heading doc_two_sections
    = [section_a; txt "## B"; txt "bbbbbbbbbbbb"] /\
  chunk_discovery_content None doc_two_sections 5 (txt "gpt-4")
    = [section_a ++ [NL] ++ txt "## B"; txt "bbbbbbbbbbbb"] /\
  chunk_discovery_content None doc_two_sections 5 (txt "gpt-4")
    <> [section_a; section_b].
Proof.
  repeat split; try (vm_compute; reflexivity).
  vm_compute. discriminate.
Qed.

(** The same two sections after a leading newline: the first heading is
    then a split point and each chunk is one section. *)
Lemma two_sections_after_newline :
  chunk_discovery_content None (NL :: doc_two_sections) 5 (txt "gpt-4")
    = [section_a; section_b].
Proof. vm_compute. reflexivity. Qed.

(** C10. For every text in which the major-heading pattern has no match,
    every budget, tokenizer and model name, the result is the list of
    that text alone, whatever the text is estimated to cost. *)
Theorem markerless_text_is_one_chunk (tiktoken : option tokenizer)
    (t : text) (b : Z) (model : text)
    (Hnone : no_match major_heading t = true) :
  chunk_discovery_content tiktoken t b model = [t].
Proof. now apply chunk_with_no_match. Qed.

(** The three kinds of text C10 names: a text that opens with a heading
    and has no other (here over a budget of 1 token), a text with no
    heading, and the empty text. *)
Lemma markerless_text_is_one_chunk_witness :
  no_match major_heading doc_leading_heading = true /\
  estimate_tokens None doc_leading_heading (txt "gpt-4") > 1 /\
  chunk_discovery_content None doc_leading_heading 1 (txt "gpt-4")
    = [doc_leading_heading] /\
  chunk_discovery_content None (txt "Small content") 0 (txt "gpt-4")
    = [txt "Small content"] /\
  chunk_discovery_content None [] 0 (txt "gpt-4") = [[]].
Proof.
  assert (H : no_match major_heading doc_leading_heading = true)
    by (vm_compute; reflexivity).
  split; [exact H|]. split; [vm_compute; reflexivity|].
  split; [exact (markerless_text_is_one_chunk None doc_leading_heading 1 (txt "gpt-4") H)|].
  split; apply markerless_text_is_one_chunk; vm_compute; reflexivity.
Defined.

(* ================================================================== *)
(** ** Resilient Call Orchestrator: the retry loop *)
(* ================================================================== *)



Lemma calls_of_snoc_call (w : world) (n : nat) (m : text) (a : Z) :
  calls_of {| calls_made := n; trace := trace w ++ [Call m a] |} = calls_of w ++ [(m, a)].
Proof. unfold calls_of. cbn [trace]. now rewrite flat_map_app. Qed.

Lemma sleeps_of_snoc_call (w : world) (n : nat) (m : text) (a : Z) :
  sleeps_of {| calls_made := n; trace := trace w ++ [Call m a] |} = sleeps_of w.
Proof. unfold sleeps_of. cbn [trace]. rewrite flat_map_app. simpl. apply app_nil_r. Qed.

Lemma calls_of_snoc_sleep (w : world) (n : nat) (q : Q) :
  calls_of {| calls_made := n; trace := trace w ++ [Sleep q] |} = calls_of w.
Proof. unfold calls_of. cbn [trace]. rewrite flat_map_app. simpl. apply app_nil_r. Qed.

Lemma sleeps_of_snoc_sleep (w : world) (n : nat) (q : Q) :
  sleeps_of {| calls_made := n; trace := trace w ++ [Sleep q] |} = sleeps_of w ++ [q].
Proof. unfold sleeps_of. cbn [trace]. now rewrite flat_map_app. Qed.

Lemma strip_blank (t : text) : forallb isspace t = true -> strip t = [].
Proof.
  intros Hall. unfold strip.
  assert (H : lstrip t = []).
  { induction t as [|c t IH]; [reflexivity|].
    simpl in *. apply andb_true_iff in Hall as [-> Ht]. now apply IH. }
  now rewrite H.
Qed.

Lemma valid_completion_accepted (r : response) (c : text) :
  valid_completion r c -> validate r = Accepted c.
Proof.
  intros (others & -> & Hc). simpl.
  destruct c as [|x c]; [discriminate|]. now rewrite Hc.
Qed.

Lemma models_to_try_head (model : text) :
  exists others, models_to_try model = model :: others.
Proof. unfold models_to_try. destruct (text_eqb model GPT4); eauto. Qed.

Lemma models_to_try_length (model : text) :
  (1 <= length (models_to_try model) <= 2)%nat.
Proof. unfold models_to_try. destruct (text_eqb model GPT4); simpl; lia. Qed.

Lemma backed_off_attempts_shift (initial_backoff : Q) (model_name : text) (count : nat) :
  forall first from,
    flat_map (fun k => [Call model_name (first + Z.of_nat k);
                        Sleep (backoff_time initial_backoff (first + Z.of_nat k))])
      (seq (S from) count) =
    flat_map (fun k => [Call model_name (first + 1 + Z.of_nat k);
                        Sleep (backoff_time initial_backoff (first + 1 + Z.of_nat k))])
      (seq from count).
Proof.
  induction count as [|count IH]; intros first from; [reflexivity|].
  cbn [seq flat_map]. rewrite IH.
  replace (first + Z.of_nat (S from)) with (first + 1 + Z.of_nat from) by lia.
  reflexivity.
Qed.

Lemma backed_off_attempts_S (initial_backoff : Q) (model_name : text)
    (first : Z) (count : nat) :
  backed_off_attempts initial_backoff model_name first (S count) =
  [Call model_name first; Sleep (backoff_time initial_backoff first)] ++
  backed_off_attempts initial_backoff model_name (first + 1) count.
Proof.
  unfold backed_off_attempts. cbn [seq flat_map].
  rewrite backed_off_attempts_shift, Z.add_0_r. reflexivity.
Qed.


Section RetryLoop.

Variable api : client.
Variable prompt : text.
Variable timeout : Z.
Variable max_retries : Z.
Variable initial_backoff : Q.
Variable too_long : Q -> bool.

(** A back-off that goes through is a sleep of [initial_backoff *
    2^attempt]. *)
Lemma back_off_accepted (attempt : Z) :
  backs_off initial_backoff too_long attempt = true ->
  back_off initial_backoff attempt = Backoff (backoff_time initial_backoff attempt) /\
  forall w,
    sleep too_long (backoff_time initial_backoff attempt) w =
    inl {| calls_made := calls_made w;
           trace := trace w ++ [Sleep (backoff_time initial_backoff attempt)] |}.
Proof.
  unfold backs_off, back_off, sleep. intros H.
  apply andb_true_iff in H as [H Hpos]. apply andb_true_iff in H as [Hlt Href].
  apply negb_true_iff in Href. apply Z.ltb_lt in Hlt. split.
  - destruct (Z.leb_spec 1024 attempt); [lia | reflexivity].
  - intros w. now rewrite Href, Hpos.
Qed.



(** A transient failure with a retry left goes to the back-off of its
    attempt, whatever the model. *)
Lemma handle_transient_retry (model_name : text) (models : list text) (attempt : Z)
    (cls : exc_class) (message : text) :
  transient (Raises cls message) = true -> attempt < max_retries ->
  handle timeout max_retries initial_backoff model_name models attempt cls message
    = back_off initial_backoff attempt.
Proof.
  intros Htr Hlt. apply Z.ltb_lt in Hlt.
  destruct cls; simpl in Htr; try discriminate;
    unfold handle, retry_or_give_up; rewrite ?Hlt; try reflexivity.
  apply andb_true_iff in Htr as [Hauth Hcode].
  apply negb_true_iff in Hauth. now rewrite Hauth, Hcode.
Qed.

(** A transient failure on the last attempt of a model without fallback
    leaves the loop by an exception. *)
Lemma handle_transient_last (model_name : text) (models : list text) (attempt : Z)
    (cls : exc_class) (message : text) :
  transient (Raises cls message) = true -> max_retries <= attempt ->
  has_fallback model_name models = false ->
  exists error_msg,
    handle timeout max_retries initial_backoff model_name models attempt cls message
      = Throw (exhausted_type cls) error_msg.
Proof.
  intros Htr Hge Hfb. apply Z.ltb_ge in Hge.
  destruct cls; simpl in Htr; try discriminate;
    unfold handle, retry_or_give_up; rewrite ?Hge, ?Hfb; simpl; eauto.
  apply andb_true_iff in Htr as [Hauth Hcode].
  apply negb_true_iff in Hauth. rewrite Hauth, Hcode. simpl. eauto.
Qed.

Lemma handle_backoff (model_name : text) (models : list text) (attempt : Z)
    (cls : exc_class) (message : text) (seconds : Q) :
  handle timeout max_retries initial_backoff model_name models attempt cls message
    = Backoff seconds ->
  seconds = backoff_time initial_backoff attempt /\ attempt < max_retries.
Proof.
  unfold handle, retry_or_give_up, back_off.
  destruct (Z.ltb_spec attempt max_retries) as [Hlt|Hge]; destruct cls;
    try destruct (is_authentication message);
    try destruct (is_transient message);
    try destruct (has_fallback model_name models);
    try destruct (1024 <=? attempt);
    simpl; intros [=]; subst; auto.
Qed.

Lemma one_attempt_backoff (model_name : text) (models : list text) (attempt : Z)
    (w : world) (seconds : Q) :
  fst (one_attempt api prompt timeout max_retries initial_backoff
         model_name models attempt w) = Backoff seconds ->
  seconds = backoff_time initial_backoff attempt /\ attempt < max_retries.
Proof.
  unfold one_attempt, attempt_ends. cbn [fst].
  destruct (api _ _) as [r|cls message].
  - destruct (validate r); discriminate.
  - apply handle_backoff.
Qed.

(** Transient failures with retries left and back-offs that go
    through: one request and one sleep each, then the loop goes on with
    what remains. *)
Lemma retry_loop_backs_off (model_name : text) (models : list text) :
  forall count rest attempt w,
    attempt + Z.of_nat count <= max_retries ->
    (forall k, attempt <= k < attempt + Z.of_nat count ->
       backs_off initial_backoff too_long k = true) ->
    (forall k, (k < count)%nat ->
       transient (api (calls_made w + k)%nat (request_for prompt timeout model_name))
         = true) ->
    retry_loop api prompt timeout max_retries initial_backoff too_long
      model_name models (count + rest) attempt w =
    retry_loop api prompt timeout max_retries initial_backoff too_long
      model_name models rest (attempt + Z.of_nat count)
      {| calls_made := calls_made w + count;
         trace := trace w ++
                  backed_off_attempts initial_backoff model_name attempt count |}.
Proof.
  induction count as [|count IH]; intros rest attempt w Hle Hsleeps Hfail.
  - destruct w as [n tr]. unfold backed_off_attempts. simpl.
    now rewrite Nat.add_0_r, app_nil_r, Z.add_0_r.
  - cbn [Nat.add retry_loop]. unfold one_attempt, attempt_ends.
    pose proof (Hfail 0%nat ltac:(lia)) as H0. rewrite Nat.add_0_r in H0.
    destruct (api (calls_made w) (request_for prompt timeout model_name))
      as [r|cls message]; [discriminate|].
    rewrite (handle_transient_retry model_name models attempt cls message H0
               ltac:(lia)).
    destruct (back_off_accepted attempt (Hsleeps attempt ltac:(lia))) as [-> Hsleep].
    rewrite Hsleep. cbn [calls_made trace]. rewrite IH; cbn [calls_made trace].
    + rewrite backed_off_attempts_S, <- !app_assoc.
      replace (attempt + 1 + Z.of_nat count) with (attempt + Z.of_nat (S count)) by lia.
      replace (S (calls_made w) + count)%nat with (calls_made w + S count)%nat by lia.
      reflexivity.
    + lia.
    + intros k Hk. apply Hsleeps. lia.
    + intros k Hk.
      replace (S (calls_made w) + k)%nat with (calls_made w + S k)%nat by lia.
      apply Hfail. lia.
Qed.

(** Every request of a retry loop is for its model, and the first one
    carries the attempt number the loop starts with. *)
Lemma retry_loop_calls (model_name : text) (models : list text) :
  forall remaining attempt w,
    exists later,
      calls_of (snd (retry_loop api prompt timeout max_retries initial_backoff too_long
                       model_name models remaining attempt w)) =
        calls_of w ++ later /\
      Forall (fun c => fst c = model_name) later /\
      (remaining <> 0%nat -> exists rest, later = (model_name, attempt) :: rest).
Proof.
  induction remaining as [|remaining IH]; intros attempt w.
  - exists []. simpl. rewrite app_nil_r. repeat split; [constructor | congruence].
  - cbn [retry_loop]. unfold one_attempt.
    set (w1 := {| calls_made := S (calls_made w);
                  trace := trace w ++ [Call model_name attempt] |}).
    assert (Hc1 : calls_of w1 = calls_of w ++ [(model_name, attempt)])
      by apply calls_of_snoc_call.
    assert (Hstop : exists later,
               calls_of w1 = calls_of w ++ later /\
               Forall (fun c => fst c = model_name) later /\
               (S remaining <> 0%nat -> exists rest, later = (model_name, attempt) :: rest)).
    { exists [(model_name, attempt)]. rewrite Hc1.
      repeat split; [repeat constructor | eauto]. }
    destruct (attempt_ends _ _ _ _ _ _ _) as [c|seconds| |ty message];
      cbn [snd]; try exact Hstop.
    unfold sleep. destruct (refuses too_long seconds); [exact Hstop|].
    destruct (Qle_bool 0 seconds); [|exact Hstop].
    set (w2 := {| calls_made := calls_made w1; trace := trace w1 ++ [Sleep seconds] |}).
    assert (Hc2 : calls_of w2 = calls_of w1) by apply calls_of_snoc_sleep.
    destruct (IH (attempt + 1) w2) as (later & Hc & Hall & _).
    exists ((model_name, attempt) :: later). rewrite Hc, Hc2, Hc1, <- app_assoc.
    repeat split; [constructor; [reflexivity|assumption] | eauto].
Qed.

(** What any retry loop adds: at most [remaining] requests, no more
    sleeps than requests, every sleep on the schedule. *)
Lemma retry_loop_bounds (model_name : text) (models : list text) :
  forall remaining attempt w,
    0 <= attempt ->
    calls_made w = length (calls_of w) ->
    exists cs ss,
      calls_of (snd (retry_loop api prompt timeout max_retries initial_backoff too_long
                       model_name models remaining attempt w)) = calls_of w ++ cs /\
      sleeps_of (snd (retry_loop api prompt timeout max_retries initial_backoff too_long
                        model_name models remaining attempt w)) = sleeps_of w ++ ss /\
      calls_made (snd (retry_loop api prompt timeout max_retries initial_backoff too_long
                         model_name models remaining attempt w)) =
        length (calls_of w ++ cs) /\
      (length cs <= remaining)%nat /\
      (length ss <= length cs)%nat /\
      Forall (scheduled max_retries initial_backoff) ss.
Proof.
  induction remaining as [|remaining IH]; intros attempt w Hpos Hinv.
  - exists [], []. simpl. rewrite !app_nil_r. repeat split; auto.
  - cbn [retry_loop].
    pose proof (one_attempt_backoff model_name models attempt w) as Hb.
    unfold one_attempt in *. cbn [fst] in Hb.
    set (w1 := {| calls_made := S (calls_made w);
                  trace := trace w ++ [Call model_name attempt] |}).
    assert (Hc1 : calls_of w1 = calls_of w ++ [(model_name, attempt)])
      by apply calls_of_snoc_call.
    assert (Hs1 : sleeps_of w1 = sleeps_of w) by apply sleeps_of_snoc_call.
    assert (Hinv1 : calls_made w1 = length (calls_of w1))
      by (rewrite Hc1, length_app; simpl; lia).
    assert (Hstop : exists cs ss,
               calls_of w1 = calls_of w ++ cs /\
               sleeps_of w1 = sleeps_of w ++ ss /\
               calls_made w1 = length (calls_of w ++ cs) /\
               (length cs <= S remaining)%nat /\
               (length ss <= length cs)%nat /\
               Forall (scheduled max_retries initial_backoff) ss).
    { exists [(model_name, attempt)], []. rewrite app_nil_r, <- Hc1.
      repeat split; auto; simpl; lia. }
    destruct (attempt_ends _ _ _ _ _ _ _) as [c|seconds| |ty message];
      cbn [snd]; try exact Hstop.
    unfold sleep. destruct (refuses too_long seconds); [exact Hstop|].
    destruct (Qle_bool 0 seconds); [|exact Hstop].
    set (w2 := {| calls_made := calls_made w1; trace := trace w1 ++ [Sleep seconds] |}).
    assert (Hc2 : calls_of w2 = calls_of w1) by apply calls_of_snoc_sleep.
    assert (Hs2 : sleeps_of w2 = sleeps_of w1 ++ [seconds])
      by apply sleeps_of_snoc_sleep.
    destruct (IH (attempt + 1) w2 ltac:(lia) ltac:(now rewrite Hc2))
      as (cs & ss & Hc & Hs & Hi & Hlc & Hls & Hall).
    exists ((model_name, attempt) :: cs), (seconds :: ss).
    rewrite Hc, Hs, Hi, Hc2, Hs2, Hc1, Hs1, <- !app_assoc.
    repeat split; auto; simpl; try lia.
    constructor; [|assumption].
    destruct (Hb seconds eq_refl) as [-> Hlt].
    exists attempt. split; [lia | reflexivity].
Qed.

Lemma model_loop_bounds (models : list text) :
  forall todo w,
    calls_made w = length (calls_of w) ->
    exists cs ss,
      calls_of (snd (model_loop api prompt timeout max_retries initial_backoff too_long
                       models todo w)) = calls_of w ++ cs /\
      sleeps_of (snd (model_loop api prompt timeout max_retries initial_backoff too_long
                        models todo w)) = sleeps_of w ++ ss /\
      calls_made (snd (model_loop api prompt timeout max_retries initial_backoff too_long
                         models todo w)) = length (calls_of w ++ cs) /\
      (length cs <= length todo * Z.to_nat (max_retries + 1))%nat /\
      (length ss <= length cs)%nat /\
      Forall (scheduled max_retries initial_backoff) ss.
Proof.
  induction todo as [|model_name todo IH]; intros w Hinv.
  - exists [], []. simpl. rewrite !app_nil_r. repeat split; auto.
  - cbn [model_loop].
    destruct (retry_loop_bounds model_name models (Z.to_nat (max_retries + 1)) 0 w
                ltac:(lia) Hinv) as (cs & ss & Hc & Hs & Hi & Hlc & Hls & Hall).
    destruct (retry_loop api prompt timeout max_retries initial_backoff too_long
                model_name models (Z.to_nat (max_retries + 1)) 0 w) as [[e|] w1];
      cbn [snd] in *.
    + exists cs, ss. repeat split; auto. simpl. lia.
    + destruct (IH w1 ltac:(now rewrite Hc)) as (cs' & ss' & Hc' & Hs' & Hi' & Hlc' & Hls' & Hall').
      exists (cs ++ cs'), (ss ++ ss').
      rewrite Hc', Hs', Hi', Hc, Hs, <- !app_assoc.
      repeat split; auto.
      * rewrite length_app. simpl. lia.
      * rewrite !length_app. lia.
      * now apply Forall_app.
Qed.

(** Inside a retry loop, a request whose answer ends the iteration for
    good (a completion that is returned, an exception that is raised)
    is the last one, and the loop is left that way. *)
Lemma retry_loop_terminal (model_name : text) (models : list text) :
  forall remaining attempt w,
    0 <= attempt ->
    calls_made w = length (calls_of w) ->
    forall n m a e,
      (length (calls_of w) <= n)%nat ->
      nth_error (calls_of (snd (retry_loop api prompt timeout max_retries
                                  initial_backoff too_long model_name models
                                  remaining attempt w))) n = Some (m, a) ->
      (forall models' attempt',
          final (attempt_ends timeout max_retries initial_backoff m models' attempt'
                   (api n (request_for prompt timeout m))) = Some e) ->
      length (calls_of (snd (retry_loop api prompt timeout max_retries
                               initial_backoff too_long model_name models
                               remaining attempt w))) = S n /\
      fst (retry_loop api prompt timeout max_retries initial_backoff too_long
             model_name models remaining attempt w) = Some e.
Proof.
  induction remaining as [|remaining IH]; intros attempt w Hpos Hinv n m a e Hn Hnth Hend.
  - simpl in Hnth. apply nth_error_None in Hn. congruence.
  - destruct (retry_loop_calls model_name models (S remaining) attempt w)
      as (later & Hlater & _ & Hhead).
    destruct (Hhead ltac:(discriminate)) as [rest ->].
    set (w1 := {| calls_made := S (calls_made w);
                  trace := trace w ++ [Call model_name attempt] |}).
    assert (Hc1 : calls_of w1 = calls_of w ++ [(model_name, attempt)])
      by apply calls_of_snoc_call.
    assert (Hinv1 : calls_made w1 = length (calls_of w1))
      by (rewrite Hc1, length_app; simpl; lia).
    destruct (Nat.eq_dec n (length (calls_of w))) as [->|Hne].
    + (* the request at hand *)
      rewrite Hlater in Hnth.
      rewrite nth_error_app2, Nat.sub_diag in Hnth by lia.
      injection Hnth as <- <-.
      specialize (Hend models attempt). rewrite <- Hinv in Hend.
      cbn [retry_loop]. unfold one_attempt. fold w1.
      destruct (attempt_ends timeout max_retries initial_backoff model_name models
                  attempt (api (calls_made w)
                             (request_for prompt timeout model_name)))
        as [c|seconds| |ty message]; try discriminate;
        injection Hend as <-; cbn [fst snd];
        rewrite Hc1, length_app; simpl; (split; [lia|reflexivity]).
    + (* a later request *)
      cbn [retry_loop] in *. unfold one_attempt in *. fold w1 in Hnth |- *.
      assert (Hstop : nth_error (calls_of w1) n = Some (m, a) -> False).
      { intros H. assert (nth_error (calls_of w1) n = None); [|congruence].
        apply nth_error_None. rewrite Hc1, length_app. simpl. lia. }
      destruct (attempt_ends timeout max_retries initial_backoff model_name models
                  attempt (api (calls_made w) (request_for prompt timeout model_name)))
        as [c|seconds| |ty message]; cbn [fst snd] in *;
        try (exfalso; now apply Hstop).
      unfold sleep in *.
      destruct (refuses too_long seconds); cbn [fst snd] in *;
        [exfalso; now apply Hstop|].
      destruct (Qle_bool 0 seconds); cbn [fst snd] in *;
        [|exfalso; now apply Hstop].
      set (w2 := {| calls_made := calls_made w1;
                    trace := trace w1 ++ [Sleep seconds] |}) in *.
      assert (Hc2 : calls_of w2 = calls_of w1) by apply calls_of_snoc_sleep.
      apply (IH (attempt + 1) w2 ltac:(lia) ltac:(now rewrite Hc2) n m a e); auto.
      rewrite Hc2, Hc1, length_app. simpl. lia.
Qed.

Lemma model_loop_terminal (models : list text) :
  forall todo w,
    calls_made w = length (calls_of w) ->
    forall n m a e,
      (length (calls_of w) <= n)%nat ->
      nth_error (calls_of (snd (model_loop api prompt timeout max_retries
                                  initial_backoff too_long models todo w))) n
        = Some (m, a) ->
      (forall models' attempt',
          final (attempt_ends timeout max_retries initial_backoff m models' attempt'
                   (api n (request_for prompt timeout m))) = Some e) ->
      length (calls_of (snd (model_loop api prompt timeout max_retries
                               initial_backoff too_long models todo w))) = S n /\
      fst (model_loop api prompt timeout max_retries initial_backoff too_long
             models todo w) = e.
Proof.
  induction todo as [|model_name todo IH]; intros w Hinv n m a e Hn Hnth Hend.
  - simpl in Hnth. apply nth_error_None in Hn. congruence.
  - cbn [model_loop] in *.
    pose proof (retry_loop_terminal model_name models
                  (Z.to_nat (max_retries + 1)) 0 w ltac:(lia) Hinv n m a e Hn) as Hretry.
    destruct (retry_loop_bounds model_name models (Z.to_nat (max_retries + 1)) 0 w
                ltac:(lia) Hinv) as (cs & ss & Hc & _ & Hi & _).
    destruct (retry_loop api prompt timeout max_retries initial_backoff too_long
                model_name models (Z.to_nat (max_retries + 1)) 0 w) as [[e'|] w1];
      cbn [fst snd] in *.
    + destruct (Hretry Hnth Hend) as [Hlen [= ->]]. now split.
    + assert (Hinv1 : calls_made w1 = length (calls_of w1)) by now rewrite Hc.
      destruct (Nat.lt_ge_cases n (length (calls_of w1))) as [Hlt|Hge].
      * destruct (model_loop_bounds models todo w1 Hinv1) as (cs' & ss' & Hc' & _).
        rewrite Hc', nth_error_app1 in Hnth by assumption.
        destruct (Hretry Hnth Hend) as [_ Hnone]. discriminate Hnone.
      * now apply (IH w1 Hinv1 n m a e).
Qed.

(** An answer to the first request that ends the iteration for good
    ends the call. *)
Lemma first_attempt_ends_call (model : text) (e : exit) :
  0 <= max_retries ->
  final (attempt_ends timeout max_retries initial_backoff model (models_to_try model) 0
           (api 0%nat (request_for prompt timeout model))) = Some e ->
  call_openai_api api prompt timeout max_retries initial_backoff too_long model =
    (leave e, {| calls_made := 1; trace := [Call model 0] |}).
Proof.
  intros Hretries Hend. unfold call_openai_api. cbv zeta.
  destruct (models_to_try_head model) as [others Hmodels]. rewrite Hmodels at 2 4.
  cbn [model_loop].
  destruct (Z.to_nat (max_retries + 1)) as [|remaining] eqn:Hn; [lia|].
  cbn [retry_loop]. unfold one_attempt. cbn [calls_made trace start app].
  destruct (attempt_ends _ _ _ _ _ _ _) as [c|seconds| |ty message];
    try discriminate; injection Hend as <-; reflexivity.
Qed.

End RetryLoop.

(* ================================================================== *)
(** ** Resilient Call Orchestrator: the specification's properties *)
(* ================================================================== *)

(** C1. A request that is answered by a response whose first choice
    holds text that is neither empty nor whitespace only is the last
    request of the call, at whatever attempt and for whichever model it
    is made, and the call returns that text. *)
Theorem valid_completion_is_returned (api : client) (prompt : text)
    (timeout max_retries : Z) (initial_backoff : Q) (too_long : Q -> bool)
    (model : text) (n : nat) (m : text) (a : Z) (r : response)
    (generated_content : text)
    (Hnth : nth_error
              (calls_of (snd (call_openai_api api prompt timeout max_retries
                                initial_backoff too_long model))) n = Some (m, a))
    (Hanswer : api n (request_for prompt timeout m) = Responds r)
    (Hvalid : valid_completion r generated_content) :
  length (calls_of (snd (call_openai_api api prompt timeout max_retries
                           initial_backoff too_long model))) = S n /\
  fst (call_openai_api api prompt timeout max_retries initial_backoff too_long model)
    = Returned generated_content.
Proof.
  unfold call_openai_api in *. cbv zeta in *. cbn [fst snd] in *.
  destruct (model_loop_terminal api prompt timeout max_retries initial_backoff too_long
              (models_to_try model) (models_to_try model) start eq_refl n m a
              (Returning generated_content) ltac:(simpl; lia) Hnth) as [Hlen Hres].
  { intros models' attempt'. unfold attempt_ends.
    now rewrite Hanswer, (valid_completion_accepted _ _ Hvalid). }
  split; [assumption|]. now rewrite Hres.
Qed.

Lemma valid_completion_is_returned_witness :
  call_openai_api always_completes a_prompt 120 3 1%Q clock_64bit GPT4 =
    (Returned (txt "Generated guide content"),
     {| calls_made := 1; trace := [Call GPT4 0] |}) /\
  fst (call_openai_api rate_limited_once a_prompt 120 3 1%Q clock_64bit GPT4) =
    Returned (txt "Success after retry").
Proof.
  split; [vm_compute; reflexivity|].
  refine (proj2 (valid_completion_is_returned rate_limited_once a_prompt 120 3 1%Q
                   clock_64bit GPT4 1 GPT4 1 _ (txt "Success after retry")
                   _ eq_refl _)).
  - vm_compute. reflexivity.
  - exists []. split; [reflexivity | vm_compute; reflexivity].
Defined.

(** C2. Whatever [max_retries >= 0] is, when the first request fails
    with an [APIError] whose text names authentication or an API key,
    that request is the only one: no sleep, no other model, and the
    call raises [ValueError("Invalid OpenAI API key. ...")]. *)
Theorem authentication_failure_aborts (api : client) (prompt : text)
    (timeout max_retries : Z) (initial_backoff : Q) (too_long : Q -> bool)
    (model : text)
    (Hretries : 0 <= max_retries)
    (Hauth : authentication_failure
               (api 0%nat (request_for prompt timeout model)) = true) :
  call_openai_api api prompt timeout max_retries initial_backoff too_long model =
    (Raised PyValueError INVALID_KEY,
     {| calls_made := 1; trace := [Call model 0] |}).
Proof.
  apply (first_attempt_ends_call api prompt timeout max_retries initial_backoff
           too_long model (Raising PyValueError INVALID_KEY) Hretries).
  unfold attempt_ends.
  destruct (api 0%nat _) as [r|cls message]; [discriminate|].
  destruct cls; try discriminate. simpl in Hauth.
  unfold handle. now rewrite Hauth.
Qed.

Lemma authentication_failure_aborts_witness :
  0 <= 3 /\
  authentication_failure
    (rejects_key 0%nat (request_for a_prompt 120 GPT4)) = true /\
  call_openai_api rejects_key a_prompt 120 3 1%Q clock_64bit GPT4 =
    (Raised PyValueError INVALID_KEY,
     {| calls_made := 1; trace := [Call GPT4 0] |}).
Proof.
  split; [lia|]. split; [vm_compute; reflexivity|].
  apply (authentication_failure_aborts rejects_key a_prompt 120 3 1%Q clock_64bit GPT4);
    [lia | vm_compute; reflexivity].
Defined.





(* ================================================================== *)
(** ** Resilient Call Orchestrator: every run *)
(* ================================================================== *)

(** X1. Whatever the endpoint does, a call makes at most
    [max_retries + 1] requests per candidate model, so at most
    [2 * (max_retries + 1)]; it never sleeps more often than it
    requests, and every sleep lasts [initial_backoff * 2^k] for an
    attempt number [0 <= k < max_retries]. *)
Theorem requests_and_sleeps_bounded (api : client) (prompt : text)
    (timeout max_retries : Z) (initial_backoff : Q) (too_long : Q -> bool)
    (model : text) :
  let w := snd (call_openai_api api prompt timeout max_retries initial_backoff
                  too_long model) in
  (length (calls_of w) <= length (models_to_try model) * Z.to_nat (max_retries + 1))%nat /\
  (length (calls_of w) <= 2 * Z.to_nat (max_retries + 1))%nat /\
  calls_made w = length (calls_of w) /\
  (length (sleeps_of w) <= length (calls_of w))%nat /\
  Forall (scheduled max_retries initial_backoff) (sleeps_of w).
Proof.
  cbv zeta. unfold call_openai_api. cbv zeta. cbn [snd].
  destruct (model_loop_bounds api prompt timeout max_retries initial_backoff too_long
              (models_to_try model) (models_to_try model) start eq_refl)
    as (cs & ss & Hc & Hs & Hi & Hlc & Hls & Hall).
  rewrite Hc, Hs, Hi. cbn [calls_of sleeps_of start trace flat_map app].
  pose proof (models_to_try_length model).
  repeat split; auto. nia.
Qed.

(* ================================================================== *)
(** ** Resilient Call Orchestrator: how a call ends *)
(* ================================================================== *)

(** X3. A first response that fails validation ends the call at once,
    for every [max_retries >= 0] and every model: one request, no
    sleep, no other model, and a [ValueError] that says what is wrong:
    no choices (a falsy response, [choices] [None] or empty), empty
    content ([None] or [""]), or content of whitespace only. *)
Theorem malformed_response_aborts (api : client) (prompt : text)
    (timeout max_retries : Z) (initial_backoff : Q) (too_long : Q -> bool)
    (model : text) (r : response)
    (Hretries : 0 <= max_retries)
    (Hfirst : api 0%nat (request_for prompt timeout model) = Responds r) :
  let ends_with message :=
    call_openai_api api prompt timeout max_retries initial_backoff too_long model =
      (Raised PyValueError message, {| calls_made := 1; trace := [Call model 0] |}) in
  (r = NoResponse \/ r = Response None \/ r = Response (Some []) ->
   ends_with (txt "OpenAI API returned invalid response structure: no choices")) /\
  (forall others,
      r = Response (Some ({| content := None |} :: others)) \/
      r = Response (Some ({| content := Some [] |} :: others)) ->
      ends_with (txt "OpenAI API returned empty content in response")) /\
  (forall c others,
      r = Response (Some ({| content := Some c |} :: others)) ->
      c <> [] -> forallb isspace c = true ->
      ends_with (txt "OpenAI API returned only whitespace in response")).
Proof.
  cbv zeta.
  assert (Hgo : forall message, validate r = Rejected message ->
            call_openai_api api prompt timeout max_retries initial_backoff too_long model =
              (Raised PyValueError message,
               {| calls_made := 1; trace := [Call model 0] |})).
  { intros message Hv.
    apply (first_attempt_ends_call api prompt timeout max_retries initial_backoff
             too_long model (Raising PyValueError message) Hretries).
    unfold attempt_ends. now rewrite Hfirst, Hv. }
  repeat split.
  - intros [->|[->| ->]]; now apply Hgo.
  - intros others [->| ->]; now apply Hgo.
  - intros c others -> Hne Hblank. apply Hgo. simpl.
    destruct c as [|x c]; [congruence|].
    now rewrite (strip_blank _ Hblank).
Qed.

Lemma malformed_response_aborts_witness :
  call_openai_api answers_blank a_prompt 120 3 1%Q clock_64bit GPT4 =
    (Raised PyValueError (txt "OpenAI API returned only whitespace in response"),
     {| calls_made := 1; trace := [Call GPT4 0] |}).
Proof.
  assert (H0 : 0 <= 3) by lia.
  refine (proj2 (proj2 (malformed_response_aborts answers_blank a_prompt 120 3 1%Q
                          clock_64bit GPT4 _ H0 eq_refl)) (txt "   ") [] eq_refl _ eq_refl).
  discriminate.
Defined.

(** X4. Errors of the endpoint that the loop does not retry, for every
    [max_retries >= 0] and every model, gpt-4 included: a [ValueError]
    reaches the caller as it is, and an [APIError] whose text names
    neither authentication nor one of the codes 500, 502, 503, 504, 429
    becomes [Exception("OpenAI API call failed: OpenAI API error for
    <model>: <text>")]; in both cases after one request, with no sleep
    and no fallback. *)
Theorem client_errors_not_retried (api : client) (prompt : text)
    (timeout max_retries : Z) (initial_backoff : Q) (too_long : Q -> bool)
    (model message : text)
    (Hretries : 0 <= max_retries) :
  (api 0%nat (request_for prompt timeout model) = Raises ValueError message ->
   call_openai_api api prompt timeout max_retries initial_backoff too_long model =
     (Raised PyValueError message, {| calls_made := 1; trace := [Call model 0] |})) /\
  (api 0%nat (request_for prompt timeout model) = Raises APIError message ->
   is_authentication message = false -> is_transient message = false ->
   call_openai_api api prompt timeout max_retries initial_backoff too_long model =
     (Raised PyException
        (txt "OpenAI API call failed: " ++
         txt "OpenAI API error for " ++ model ++ txt ": " ++ message),
      {| calls_made := 1; trace := [Call model 0] |})).
Proof.
  split.
  - intros Hfirst.
    apply (first_attempt_ends_call api prompt timeout max_retries initial_backoff
             too_long model (Raising PyValueError message) Hretries).
    unfold attempt_ends. now rewrite Hfirst.
  - intros Hfirst Hauth Hcode.
    apply (first_attempt_ends_call api prompt timeout max_retries initial_backoff
             too_long model
             (Raising PyException
                (txt "OpenAI API error for " ++ model ++ txt ": " ++ message))
             Hretries).
    unfold attempt_ends. rewrite Hfirst.
    unfold handle. rewrite Hauth, Hcode. cbn [andb].
    now rewrite andb_false_r.
Qed.

Lemma client_errors_not_retried_witness :
  call_openai_api bad_request a_prompt 120 3 1%Q clock_64bit GPT4 =
    (Raised PyException
       (txt "OpenAI API call failed: OpenAI API error for gpt-4: Bad request"),
     {| calls_made := 1; trace := [Call GPT4 0] |}).
Proof.
  assert (H0 : 0 <= 3) by lia.
  exact (proj2 (client_errors_not_retried bad_request a_prompt 120 3 1%Q clock_64bit
                  GPT4 (txt "Bad request") H0) eq_refl eq_refl eq_refl).
Defined.

(** X5. A model without fallback (any model but gpt-4) under transient
    failures: for [max_retries >= 0] and back-offs that go through (a
    power of two that converts to a float, a product that [time.sleep]
    takes), when the first [max_retries + 1] requests all fail with
    transient errors, the call makes exactly these requests, sleeps
    [initial_backoff * 2^k] after the failure of attempt [k] for each
    [k < max_retries], does not sleep after the last failure, and
    raises [TimeoutError] when the last failure is a timeout and
    [Exception] otherwise. *)
Theorem standalone_model_exhausts_retries (api : client) (prompt : text)
    (timeout max_retries : Z) (initial_backoff : Q) (too_long : Q -> bool)
    (model : text) (cls : exc_class) (message : text)
    (Hmodel : text_eqb model GPT4 = false)
    (Hretries : 0 <= max_retries)
    (Hsleeps : forall k, 0 <= k < max_retries ->
                 backs_off initial_backoff too_long k = true)
    (Hfail : forall n, (n <= Z.to_nat max_retries)%nat ->
               transient (api n (request_for prompt timeout model)) = true)
    (Hlast : api (Z.to_nat max_retries) (request_for prompt timeout model)
               = Raises cls message) :
  exists error_msg,
    call_openai_api api prompt timeout max_retries initial_backoff too_long model =
      (Raised (exhausted_type cls) error_msg,
       {| calls_made := S (Z.to_nat max_retries);
          trace := backed_off_attempts initial_backoff model 0 (Z.to_nat max_retries) ++
                   [Call model max_retries] |}).
Proof.
  unfold call_openai_api, models_to_try. cbv zeta. rewrite Hmodel. cbn [model_loop].
  replace (Z.to_nat (max_retries + 1)) with (Z.to_nat max_retries + 1)%nat by lia.
  rewrite (retry_loop_backs_off api prompt timeout max_retries initial_backoff
             too_long model [model]) by
    (try lia;
       first [intros k Hk; apply Hsleeps; lia
             |intros k Hk; apply Hfail; cbn [calls_made start]; lia]).
  cbn [retry_loop calls_made start trace Nat.add app]. unfold one_attempt, attempt_ends.
  cbn [calls_made trace]. rewrite Hlast.
  pose proof (Hfail (Z.to_nat max_retries) ltac:(lia)) as Htr. rewrite Hlast in Htr.
  assert (Hfb : has_fallback model [model] = false)
    by (unfold has_fallback; now rewrite Hmodel).
  destruct (handle_transient_last timeout max_retries initial_backoff model [model]
              (0 + Z.of_nat (Z.to_nat max_retries)) cls message Htr ltac:(lia) Hfb)
    as [error_msg ->].
  replace (0 + Z.of_nat (Z.to_nat max_retries)) with max_retries by lia.
  cbn [fst snd leave].
  destruct cls; simpl in Htr; try discriminate; cbn [exhausted_type wrap]; eauto.
Qed.

Lemma standalone_model_exhausts_retries_witness :
  exists error_msg,
    call_openai_api always_times_out a_prompt 120 2 (1 # 2)%Q clock_64bit
      (txt "gpt-3.5-turbo") =
      (Raised PyTimeoutError error_msg,
       {| calls_made := 3;
          trace := [Call GPT35 0; Sleep (backoff_time (1 # 2)%Q 0);
                    Call GPT35 1; Sleep (backoff_time (1 # 2)%Q 1);
                    Call GPT35 2] |}).
Proof.
  assert (H0 : 0 <= 2) by lia.
  assert (Hs : forall k, 0 <= k < 2 -> backs_off (1 # 2)%Q clock_64bit k = true).
  { intros k Hk. assert (k = 0 \/ k = 1) as [-> | ->] by lia; vm_compute; reflexivity. }
  exact (standalone_model_exhausts_retries always_times_out a_prompt 120 2 (1 # 2)%Q
           clock_64bit (txt "gpt-3.5-turbo") APITimeoutError (txt "Request timed out")
           eq_refl H0 Hs (fun _ _ => eq_refl) eq_refl).
Defined.

(** X6. When [max_retries] is negative no request is made at all, and
    the call still ends with [Exception("OpenAI API call failed: All
    OpenAI models failed after retries")]. *)
Theorem negative_retries_make_no_request (api : client) (prompt : text)
    (timeout max_retries : Z) (initial_backoff : Q) (too_long : Q -> bool)
    (model : text)
    (Hneg : max_retries < 0) :
  call_openai_api api prompt timeout max_retries initial_backoff too_long model =
    (Raised PyException
       (txt "OpenAI API call failed: All OpenAI models failed after retries"),
     start).
Proof.
  unfold call_openai_api, models_to_try. cbv zeta.
  destruct (text_eqb model GPT4); cbn [model_loop];
    replace (Z.to_nat (max_retries + 1)) with 0%nat by lia; reflexivity.
Qed.

Lemma negative_retries_make_no_request_witness :
  call_openai_api always_completes a_prompt 120 (-1) 1%Q clock_64bit GPT4 =
    (Raised PyException
       (txt "OpenAI API call failed: All OpenAI models failed after retries"),
     start).
Proof.
  apply negative_retries_make_no_request. lia.
Defined.

(** X7. An authentication failure is never retried, at whatever attempt
    and for whichever model it occurs: if the n-th request of a call
    fails with an [APIError] that names authentication or an API key,
    it is the last request of the call, and the call raises
    [ValueError("Invalid OpenAI API key. ...")]. *)
Theorem authentication_failure_is_last_request (api : client) (prompt : text)
    (timeout max_retries : Z) (initial_backoff : Q) (too_long : Q -> bool)
    (model : text) (n : nat) (m : text) (a : Z)
    (Hnth : nth_error
              (calls_of (snd (call_openai_api api prompt timeout max_retries
                                initial_backoff too_long model))) n = Some (m, a))
    (Hauth : authentication_failure (api n (request_for prompt timeout m)) = true) :
  length (calls_of (snd (call_openai_api api prompt timeout max_retries
                           initial_backoff too_long model))) = S n /\
  fst (call_openai_api api prompt timeout max_retries initial_backoff too_long model)
    = Raised PyValueError INVALID_KEY.
Proof.
  unfold call_openai_api in *. cbv zeta in *. cbn [fst snd] in *.
  destruct (model_loop_terminal api prompt timeout max_retries initial_backoff too_long
              (models_to_try model) (models_to_try model) start eq_refl n m a
              (Raising PyValueError INVALID_KEY) ltac:(simpl; lia) Hnth) as [Hlen Hres].
  { intros models' attempt'. unfold attempt_ends.
    destruct (api n _) as [r|cls message]; [discriminate|].
    destruct cls; try discriminate. simpl in Hauth.
    unfold handle. now rewrite Hauth. }
  split; [assumption|]. now rewrite Hres.
Qed.

Lemma authentication_failure_is_last_request_witness :
  calls_of (snd (call_openai_api key_rejected_late a_prompt 120 3 1%Q clock_64bit GPT4))
    = [(GPT4, 0); (GPT4, 1); (GPT4, 2)] /\
  fst (call_openai_api key_rejected_late a_prompt 120 3 1%Q clock_64bit GPT4)
    = Raised PyValueError INVALID_KEY.
Proof.
  split; [vm_compute; reflexivity|].
  exact (proj2 (authentication_failure_is_last_request key_rejected_late a_prompt
                  120 3 1%Q clock_64bit GPT4 2 GPT4 2 eq_refl eq_refl)).
Defined.



(* ================================================================== *)
(** ** Token Estimator and Chunker: further properties *)
(* ================================================================== *)

Lemma split_from_odd (r : regex) (s : text) :
  forall skip piece, Nat.odd (length (split_from r s skip piece)) = true.
Proof.
  induction s as [|c s IH]; intros skip piece; [reflexivity|].
  cbn [split_from]. destruct skip; [|apply IH].
  destruct (match_at r (c :: s)) as [[group rest]|]; [|apply IH].
  cbn [length]. rewrite Nat.odd_succ_succ. apply IH.
Qed.

Section NoEmptyChunk.

Variable est : text -> Z.
Variable max_tokens : Z.

Lemma accumulate_no_empty (b : buffer) (piece : text) :
  Forall (fun c => c <> []) (chunks b) ->
  Forall (fun c => c <> []) (chunks (accumulate est max_tokens b piece)).
Proof.
  intros Hb. unfold accumulate.
  destruct (current_tokens b + est piece >? max_tokens); cbn [andb]; [|assumption].
  destruct (current_chunk b) as [|c cur] eqn:Hcur; cbn [truthy chunks]; [assumption|].
  apply Forall_app. split; [assumption|]. repeat constructor. discriminate.
Qed.

Lemma subsection_loop_no_empty (subsections : list text) :
  forall b,
    Forall (fun c => c <> []) (chunks b) ->
    Forall (fun c => c <> []) (chunks (subsection_loop est max_tokens subsections b)).
Proof.
  assert (H : forall n subs, (length subs <= n)%nat -> forall b,
             Forall (fun c => c <> []) (chunks b) ->
             Forall (fun c => c <> [])
               (chunks (subsection_loop est max_tokens subs b))).
  { induction n as [|n IH]; intros subs Hlen b Hb.
    - destruct subs; [assumption | simpl in Hlen; lia].
    - destruct subs as [|s0 [|s1 rest]]; cbn [subsection_loop].
      + assumption.
      + now apply accumulate_no_empty.
      + apply IH; [simpl in Hlen; lia | now apply accumulate_no_empty]. }
  now apply (H (length subsections)).
Qed.

Lemma section_loop_no_empty (sections : list text) :
  forall b,
    Forall (fun c => c <> []) (chunks b) ->
    Forall (fun c => c <> []) (chunks (section_loop est max_tokens sections b)).
Proof.
  assert (H : forall n secs, (length secs <= n)%nat -> forall b,
             Forall (fun c => c <> []) (chunks b) ->
             Forall (fun c => c <> [])
               (chunks (section_loop est max_tokens secs b))).
  { induction n as [|n IH]; intros secs Hlen b Hb.
    - destruct secs; [assumption | simpl in Hlen; lia].
    - destruct secs as [|section rest]; [assumption|].
      cbn [section_loop].
      destruct (startswith section [HASH; HASH]).
      + destruct rest as [|next rest']; [now apply accumulate_no_empty|].
        apply IH; [simpl in Hlen; lia|].
        destruct (_ >? _);
          [now apply subsection_loop_no_empty | now apply accumulate_no_empty].
      + apply IH; [simpl in Hlen; lia | now apply accumulate_no_empty]. }
  now apply (H (length sections)).
Qed.

Lemma chunk_with_no_empty (t : text) :
  t <> [] -> Forall (fun c => c <> []) (chunk_with est max_tokens t).
Proof.
  intros Ht. unfold chunk_with, finish.
  pose proof (section_loop_no_empty (re_split major_heading t) empty_buffer
                ltac:(constructor)) as Hloop.
  set (b := section_loop est max_tokens (re_split major_heading t) empty_buffer) in *.
  destruct (current_chunk b) as [|c cur] eqn:Hcur; cbn [truthy].
  - destruct (chunks b) as [|ch chs] eqn:Hch; [repeat constructor; assumption|].
    assumption.
  - destruct (chunks b) as [|ch chs]; cbn [app].
    + repeat constructor. discriminate.
    + change (ch :: chs ++ [c :: cur]) with ((ch :: chs) ++ [c :: cur]).
      apply Forall_app. split; [assumption | repeat constructor; discriminate].
Qed.

End NoEmptyChunk.

(** X8. Under the length/4 estimate (no tokenizer) the estimate [e] of
    a text satisfies [4 * e <= len(text) < 4 * e + 4], and a text at
    least as long as another never costs less. *)
Theorem heuristic_estimate_bounds (t1 t2 model : text)
    (Hlen : (length t1 <= length t2)%nat) :
  4 * estimate_tokens None t1 model <= Z.of_nat (length t1) /\
  Z.of_nat (length t1) < 4 * estimate_tokens None t1 model + 4 /\
  estimate_tokens None t1 model <= estimate_tokens None t2 model.
Proof.
  unfold estimate_tokens, heuristic_tokens.
  pose proof (Z.div_mod (Z.of_nat (length t1)) 4 ltac:(lia)).
  pose proof (Z.mod_pos_bound (Z.of_nat (length t1)) 4 ltac:(lia)).
  repeat split; try lia.
  apply Z.div_le_mono; lia.
Qed.

Lemma heuristic_estimate_bounds_witness :
  4 * estimate_tokens None (txt "Short") (txt "gpt-4") <= 5 /\
  5 < 4 * estimate_tokens None (txt "Short") (txt "gpt-4") + 4 /\
  estimate_tokens None (txt "Short") (txt "gpt-4")
    <= estimate_tokens None (txt "Small content") (txt "gpt-4").
Proof.
  apply (heuristic_estimate_bounds (txt "Short") (txt "Small content") (txt "gpt-4")).
  simpl. lia.
Defined.

(** X9. Splitting a text on a heading pattern ([\n(##\s+.+?)\n] or
    [\n(###\s+.+?)\n]) and joining the pieces with single newlines
    gives the text back; the number of pieces is odd (text, then
    heading and text for each match). *)
Theorem heading_split_round_trip (hashes : nat) (t : text) :
  join [NL] (re_split (heading hashes) t) = t /\
  Nat.odd (length (re_split (heading hashes) t)) = true.
Proof. split; [apply re_split_join | apply split_from_odd]. Qed.

(** X10. For every non-empty text, budget, tokenizer and model name, no
    chunk of the result is the empty string. *)
Theorem no_empty_chunk (tiktoken : option tokenizer) (t : text) (b : Z) (model : text)
    (Hne : t <> []) :
  Forall (fun c => c <> []) (chunk_discovery_content tiktoken t b model).
Proof. now apply chunk_with_no_empty. Qed.

Lemma no_empty_chunk_witness :
  Forall (fun c => c <> [])
    (chunk_discovery_content None doc_two_sections 5 (txt "gpt-4")).
Proof.
  apply no_empty_chunk. discriminate.
Defined.

(** X11. The budget check and the chunker agree under the length/4
    estimate: when [check_token_limit] reports that a text does not
    exceed the limit of a model, chunking the text with that limit as
    budget gives a single chunk. *)
Theorem within_limit_is_one_chunk (t platform model : text)
    (Hfits : fst (fst (check_token_limit None t platform model)) = false) :
  length (chunk_discovery_content None t
            (snd (check_token_limit None t platform model)) model) = 1%nat.
Proof.
  unfold check_token_limit in *. cbn [fst snd] in *.
  unfold chunk_discovery_content.
  change (fun t0 : text => estimate_tokens None t0 model) with heuristic_tokens.
  destruct (chunk_with_fits (dict_get MODEL_TOKEN_LIMITS model default_limit) t)
    as [c ->]; [|reflexivity].
  rewrite Z.gtb_ltb in Hfits. apply Z.ltb_ge in Hfits. exact Hfits.
Qed.

Lemma within_limit_is_one_chunk_witness :
  length (chunk_discovery_content None doc_two_sections
            (snd (check_token_limit None doc_two_sections (txt "Grafana") (txt "gpt-4")))
            (txt "gpt-4")) = 1%nat.
Proof.
  apply within_limit_is_one_chunk. vm_compute. reflexivity.
Defined.

(* ================================================================== *)
(** ** Facts about searching, stripping and lower case *)
(* ================================================================== *)

Ltac to_props :=
  rewrite ?orb_true_iff, ?andb_true_iff, ?negb_true_iff, ?N.leb_le, ?N.eqb_eq,
    ?N.eqb_neq in *.

Lemma startswith_iff (t prefix : text) :
  startswith t prefix = true <-> exists rest, t = prefix ++ rest.
Proof.
  revert t; induction prefix as [|p prefix IH]; intros t; simpl.
  - destruct t; (split; [intros _; eexists; reflexivity | reflexivity]).
  - destruct t as [|c t]; simpl.
    + split; [discriminate | intros [rest H]; discriminate].
    + rewrite andb_true_iff, IH. unfold char_eqb. rewrite N.eqb_eq. split.
      * intros [-> [rest ->]]. eauto.
      * intros [rest [= -> ->]]. eauto.
Qed.

Lemma contains_iff (t needle : text) :
  contains t needle = true <-> exists before after, t = before ++ needle ++ after.
Proof.
  induction t as [|c t IH]; cbn [contains]; rewrite orb_true_iff, startswith_iff.
  - split.
    + intros [[rest H]|H]; [|discriminate]. exists [], rest. exact H.
    + intros (before & after & H). left.
      destruct before; [eauto | discriminate].
  - rewrite IH. split.
    + intros [[rest H]|(before & after & ->)].
      * exists [], rest. exact H.
      * exists (c :: before), after. reflexivity.
    + intros (before & after & H). destruct before as [|b before].
      * left. eauto.
      * right. injection H as -> ->. eauto.
Qed.

Lemma forallb_rev_true (p : char -> bool) (t : text) :
  forallb p t = true -> forallb p (rev t) = true.
Proof.
  rewrite !forallb_forall. intros H x Hx. apply H. now apply in_rev.
Qed.

Lemma lstrip_chars_split (drop : char -> bool) (t : text) :
  exists dropped, t = dropped ++ lstrip_chars drop t /\ forallb drop dropped = true.
Proof.
  induction t as [|c t (dropped & Ht & Hd)]; [exists []; now split|].
  cbn [lstrip_chars]. destruct (drop c) eqn:Hc.
  - exists (c :: dropped). split; [now rewrite <- app_comm_cons, <- Ht|].
    simpl. now rewrite Hc.
  - exists []. now split.
Qed.

Lemma lstrip_chars_head (drop : char -> bool) (t : text) (c : char) :
  hd_error (lstrip_chars drop t) = Some c -> drop c = false.
Proof.
  induction t as [|x t IH]; [discriminate|].
  cbn [lstrip_chars]. destruct (drop x) eqn:Hx; [exact IH|].
  intros [= <-]. exact Hx.
Qed.

Lemma lstrip_chars_keep (drop : char -> bool) (t : text) :
  (forall c, hd_error t = Some c -> drop c = false) -> lstrip_chars drop t = t.
Proof.
  destruct t as [|x t]; [reflexivity|]. intros H. cbn [lstrip_chars].
  now rewrite (H x eq_refl).
Qed.

Lemma lstrip_chars_all (drop : char -> bool) (t : text) :
  forallb drop t = true -> lstrip_chars drop t = [].
Proof.
  induction t as [|c t IH]; [reflexivity|]. simpl.
  intros H. apply andb_true_iff in H as [-> Ht]. now apply IH.
Qed.

(** What [strip] keeps: a middle part of the text, between two runs of
    dropped characters, that neither begins nor ends with one. *)
Lemma strip_chars_split (drop : char -> bool) (t : text) :
  exists before after,
    t = before ++ strip_chars drop t ++ after /\
    forallb drop before = true /\ forallb drop after = true /\
    (forall c, hd_error (strip_chars drop t) = Some c -> drop c = false) /\
    (forall c, hd_error (rev (strip_chars drop t)) = Some c -> drop c = false).
Proof.
  unfold strip_chars.
  destruct (lstrip_chars_split drop t) as (before & Ht & Hb).
  destruct (lstrip_chars_split drop (rev (lstrip_chars drop t))) as (after & Hr & Ha).
  set (left := lstrip_chars drop t) in *.
  set (kept := lstrip_chars drop (rev left)) in *.
  assert (Hleft : left = rev kept ++ rev after).
  { rewrite <- rev_app_distr, <- Hr. now rewrite rev_involutive. }
  exists before, (rev after). repeat split.
  - now rewrite <- Hleft.
  - assumption.
  - now apply forallb_rev_true.
  - intros c Hc. destruct (rev kept) as [|x k] eqn:Hk; [discriminate|].
    injection Hc as ->. apply (lstrip_chars_head drop t c).
    fold left. now rewrite Hleft.
  - rewrite rev_involutive. apply lstrip_chars_head.
Qed.

Lemma strip_chars_keep (drop : char -> bool) (t : text) :
  (forall c, hd_error t = Some c -> drop c = false) ->
  (forall c, hd_error (rev t) = Some c -> drop c = false) ->
  strip_chars drop t = t.
Proof.
  intros Hhead Hlast. unfold strip_chars.
  rewrite (lstrip_chars_keep drop t Hhead), (lstrip_chars_keep drop (rev t) Hlast).
  apply rev_involutive.
Qed.

Lemma strip_is_strip_chars (t : text) : strip t = strip_chars isspace t.
Proof.
  assert (H : forall u, lstrip u = lstrip_chars isspace u).
  { induction u as [|c u IH]; [reflexivity|]. simpl. now rewrite IH. }
  unfold strip, strip_chars. now rewrite !H.
Qed.

(** A text has something left after [strip()] exactly when it has a
    character that is not whitespace. *)
Lemma strip_truthy (t : text) :
  truthy (strip t) = existsb (fun c => negb (isspace c)) t.
Proof.
  rewrite strip_is_strip_chars.
  destruct (strip_chars_split isspace t) as (before & after & Ht & Hb & Ha & Hhead & _).
  destruct (strip_chars isspace t) as [|c kept] eqn:Hk.
  - simpl in Ht. simpl. symmetry. apply not_true_is_false. intros Hex.
    apply existsb_exists in Hex as (x & Hin & Hx).
    assert (Hall : forallb isspace t = true)
      by (rewrite Ht, forallb_app, Hb, Ha; reflexivity).
    rewrite forallb_forall in Hall. rewrite (Hall x Hin) in Hx. discriminate.
  - simpl. symmetry. apply existsb_exists. exists c. split.
    + rewrite Ht. apply in_or_app. right. now left.
    + now rewrite (Hhead c eq_refl).
Qed.

Lemma lower_char_cases (c : char) :
  ((65 <= c <= 90 \/ (192 <= c <= 222 /\ c <> 215)) /\ lower_char c = c + 32)%N \/
  (c = 8490 /\ lower_char c = 107)%N \/
  ((c < 65 \/ 90 < c) /\ (c < 192 \/ 222 < c \/ c = 215) /\ c <> 8490 /\
   lower_char c = c)%N.
Proof.
  unfold lower_char.
  destruct ((65 <=? c) && (c <=? 90))%N eqn:E1.
  - to_props. left. split; [lia | reflexivity].
  - destruct ((192 <=? c) && (c <=? 222) && negb (c =? 215))%N eqn:E2.
    + to_props. left. split; [lia | reflexivity].
    + right.
      apply andb_false_iff in E1. rewrite !N.leb_gt in E1.
      rewrite !andb_false_iff, negb_false_iff, !N.leb_gt, N.eqb_eq in E2.
      destruct (N.eqb_spec c 8490) as [->|Hk]; [left; split; reflexivity|].
      right. repeat split; lia.
Qed.

Lemma lower_char_dash (c : char) : char_eqb (lower_char c) DASH = char_eqb c DASH.
Proof.
  unfold char_eqb, DASH.
  destruct (lower_char_cases c) as [[Hr ->]|[[-> ->]|(H1 & H2 & _ & ->)]];
    [|reflexivity|reflexivity].
  destruct (N.eqb_spec (c + 32) 45), (N.eqb_spec c 45); try reflexivity; lia.
Qed.

Lemma lower_char_filename (c : char) :
  filename_char c = true -> lower_filename_char (lower_char c) = true.
Proof.
  unfold filename_char, lower_filename_char. intros H.
  destruct (lower_char_cases c) as [[Hr ->]|[[-> ->]|(H1 & H2 & _ & ->)]];
    to_props; lia.
Qed.

Lemma lower_char_fixed (c : char) :
  lower_filename_char c = true -> lower_char c = c.
Proof.
  unfold lower_filename_char. intros H.
  destruct (lower_char_cases c) as [[Hr ->]|[[-> ->]|(H1 & H2 & _ & ->)]];
    [|discriminate|reflexivity].
  to_props. lia.
Qed.

Lemma lower_filename_is_filename (c : char) :
  lower_filename_char c = true -> filename_char c = true.
Proof. unfold lower_filename_char, filename_char. intros H. to_props. lia. Qed.

(* ================================================================== *)
(** ** Output file name: properties *)
(* ================================================================== *)

Lemma replace_unsafe_class (s : text) :
  forallb filename_char (replace_unsafe s) = true.
Proof.
  induction s as [|c s IH]; [reflexivity|]. simpl.
  rewrite IH. destruct (filename_char c) eqn:Hc; [now rewrite Hc | reflexivity].
Qed.

Lemma replace_unsafe_fixed (s : text) :
  forallb filename_char s = true -> replace_unsafe s = s.
Proof.
  induction s as [|c s IH]; [reflexivity|]. simpl.
  intros H. apply andb_true_iff in H as [-> Hs]. now rewrite IH.
Qed.

Lemma collapse_dashes_class (p : char -> bool) (s : text) :
  forallb p s = true -> forallb p (collapse_dashes s) = true.
Proof.
  induction s as [|c s IH]; [reflexivity|]. cbn [forallb collapse_dashes].
  intros H. apply andb_true_iff in H as [Hc Hs]. specialize (IH Hs).
  unfold char_eqb. destruct (N.eqb_spec c DASH) as [->|Hne].
  - destruct s as [|d s]; [simpl; now rewrite Hc|].
    destruct (N.eqb_spec d DASH); [exact IH|]. cbn [forallb]. now rewrite Hc, IH.
  - cbn [forallb]. now rewrite Hc, IH.
Qed.

Lemma collapse_dashes_head (s : text) (c : char) :
  hd_error s = Some c -> hd_error (collapse_dashes s) = Some c.
Proof.
  induction s as [|x s IH]; [discriminate|]. intros [= ->].
  cbn [collapse_dashes]. unfold char_eqb.
  destruct (N.eqb_spec c DASH) as [->|Hne]; [|reflexivity].
  destruct s as [|d s]; [reflexivity|].
  destruct (N.eqb_spec d DASH) as [->|]; [|reflexivity].
  now apply IH.
Qed.

Lemma no_double_dash_cons (c d : char) (t : text) :
  no_double_dash (c :: d :: t) =
  negb (char_eqb c DASH && char_eqb d DASH) && no_double_dash (d :: t).
Proof. reflexivity. Qed.

Lemma collapse_dashes_no_double (s : text) :
  no_double_dash (collapse_dashes s) = true.
Proof.
  induction s as [|c s IH]; [reflexivity|]. cbn [collapse_dashes].
  unfold char_eqb. destruct (N.eqb_spec c DASH) as [->|Hne].
  - destruct s as [|d s]; [reflexivity|].
    destruct (N.eqb_spec d DASH) as [->|Hd]; [exact IH|].
    pose proof (collapse_dashes_head (d :: s) d eq_refl) as Hh.
    destruct (collapse_dashes (d :: s)) as [|x rest]; [discriminate|].
    injection Hh as ->. rewrite no_double_dash_cons, IH.
    unfold char_eqb. destruct (N.eqb_spec d DASH); [contradiction|].
    now rewrite andb_false_r.
  - destruct (collapse_dashes s) as [|x rest]; [reflexivity|].
    rewrite no_double_dash_cons, IH. unfold char_eqb.
    destruct (N.eqb_spec c DASH); [contradiction | reflexivity].
Qed.

Lemma collapse_dashes_cons (c d : char) (s : text) :
  collapse_dashes (c :: d :: s) =
  if char_eqb c DASH
  then (if char_eqb d DASH then collapse_dashes (d :: s)
        else DASH :: collapse_dashes (d :: s))
  else c :: collapse_dashes (d :: s).
Proof. reflexivity. Qed.

Lemma collapse_dashes_fixed (s : text) :
  no_double_dash s = true -> collapse_dashes s = s.
Proof.
  induction s as [|c s IH]; [reflexivity|].
  destruct s as [|d s].
  - intros _. cbn. destruct (char_eqb c DASH) eqn:E; [|reflexivity].
    apply N.eqb_eq in E. now subst.
  - rewrite no_double_dash_cons, collapse_dashes_cons.
    intros H. apply andb_true_iff in H as [Hcd Hs].
    rewrite (IH Hs).
    destruct (char_eqb c DASH) eqn:Ec; [|reflexivity].
    destruct (char_eqb d DASH) eqn:Ed; [discriminate|].
    apply N.eqb_eq in Ec. now subst.
Qed.

Lemma contains_cons (c : char) (t needle : text) :
  contains (c :: t) needle = startswith (c :: t) needle || contains t needle.
Proof. reflexivity. Qed.

Lemma startswith_two (c d x y : char) (t : text) :
  startswith (c :: d :: t) [x; y] = char_eqb c x && char_eqb d y.
Proof. cbn. destruct t; now rewrite andb_true_r. Qed.

Lemma no_double_dash_contains (t : text) :
  no_double_dash t = true <-> contains t [DASH; DASH] = false.
Proof.
  induction t as [|c t IH]; [split; reflexivity|].
  destruct t as [|d t].
  - cbn. rewrite andb_false_r. split; reflexivity.
  - rewrite no_double_dash_cons, contains_cons, startswith_two.
    rewrite andb_true_iff, IH, orb_false_iff, negb_true_iff. reflexivity.
Qed.

Lemma contains_inside (before t after needle : text) :
  contains t needle = true -> contains (before ++ t ++ after) needle = true.
Proof.
  rewrite !contains_iff. intros (b & a & ->).
  exists (before ++ b), (a ++ after). now rewrite <- !app_assoc.
Qed.

(** On the characters of a file name the lower case is taken
    character by character. *)
Lemma lower_plain (t : text) :
  forallb filename_char t = true -> lower t = map lower_char t.
Proof.
  unfold lower. induction t as [|c t IH]; [reflexivity|]. cbn [forallb flat_map map].
  intros H. apply andb_true_iff in H as [Hc Ht]. rewrite (IH Ht).
  unfold lower_full. destruct (N.eqb_spec c 304) as [->|]; [discriminate|reflexivity].
Qed.

Lemma lower_no_double_dash (t : text) :
  forallb filename_char t = true ->
  no_double_dash (lower t) = no_double_dash t.
Proof.
  intros Hclass. rewrite (lower_plain t Hclass). clear Hclass.
  induction t as [|c t IH]; [reflexivity|].
  destruct t as [|d t]; [reflexivity|].
  cbn [map no_double_dash] in *. now rewrite IH, !lower_char_dash.
Qed.

Lemma lower_class (t : text) :
  forallb filename_char t = true -> forallb lower_filename_char (lower t) = true.
Proof.
  intros Hclass. rewrite (lower_plain t Hclass).
  induction t as [|c t IH]; [reflexivity|]. simpl in *.
  apply andb_true_iff in Hclass as [Hc Ht].
  now rewrite (lower_char_filename c Hc), IH.
Qed.

Lemma lower_fixed (t : text) :
  forallb lower_filename_char t = true -> lower t = t.
Proof.
  intros Hclass. rewrite lower_plain.
  - induction t as [|c t IH]; [reflexivity|]. simpl in *.
    apply andb_true_iff in Hclass as [Hc Ht].
    now rewrite (lower_char_fixed c Hc), IH.
  - rewrite forallb_forall in *. intros c Hc.
    apply lower_filename_is_filename. now apply Hclass.
Qed.

Lemma lower_head_not_dash (t : text) :
  (forall c, hd_error t = Some c -> is_dash c = false) ->
  hd_error (map lower_char t) <> Some DASH.
Proof.
  destruct t as [|c t]; [discriminate|]. intros H [= Hc].
  specialize (H c eq_refl). unfold is_dash in H.
  rewrite <- lower_char_dash, Hc in H. discriminate.
Qed.

(** The name put before the suffix is always in normal form. *)
Lemma sanitized_name_normal (service_name : text) :
  normal_name (sanitized_name service_name).
Proof.
  unfold sanitized_name. cbv zeta.
  set (collapsed := collapse_dashes (replace_unsafe service_name)).
  destruct (strip_chars_split is_dash collapsed)
    as (before & after & Hsplit & _ & _ & Hhead & Hlast).
  destruct (strip_chars is_dash collapsed) as [|c kept] eqn:Hk; cbn [truthy].
  - unfold normal_name. repeat split; try discriminate; vm_compute; reflexivity.
  - assert (Hclass : forallb filename_char (c :: kept) = true).
    { assert (H : forallb filename_char collapsed = true)
        by apply collapse_dashes_class, replace_unsafe_class.
      rewrite Hsplit, !forallb_app in H.
      apply andb_true_iff in H as [_ H]. now apply andb_true_iff in H as [H _]. }
    assert (Hnd : no_double_dash (c :: kept) = true).
    { apply no_double_dash_contains. apply not_true_is_false. intros Hc.
      apply (contains_inside before _ after) in Hc. rewrite <- Hsplit in Hc.
      pose proof (collapse_dashes_no_double (replace_unsafe service_name)) as H.
      apply no_double_dash_contains in H. fold collapsed in H. congruence. }
    unfold normal_name. repeat split.
    + rewrite (lower_plain _ Hclass). discriminate.
    + now apply lower_class.
    + rewrite (lower_plain _ Hclass). now apply lower_head_not_dash.
    + rewrite (lower_plain _ Hclass), <- map_rev. now apply lower_head_not_dash.
    + now rewrite lower_no_double_dash.
Qed.

(** X12. Every output file name is a normal-form name followed by the
    suffix: the name is not empty, is made of lower-case letters,
    digits, underscores and hyphens, has no hyphen at either end and
    no two hyphens in a row; so the whole file name has no character
    outside [[a-zA-Z0-9_.-]] (no path separator, space or control
    character), whatever the service name is. *)
Theorem output_filename_shape (service_name : text) (is_error : bool) :
  generate_output_filename service_name is_error =
    sanitized_name service_name ++ (if is_error then ERROR_SUFFIX else GUIDE_SUFFIX) /\
  normal_name (sanitized_name service_name) /\
  forallb (fun c => filename_char c || char_eqb c DOT)
    (generate_output_filename service_name is_error) = true.
Proof.
  pose proof (sanitized_name_normal service_name) as Hn.
  split; [now destruct is_error|]. split; [exact Hn|].
  destruct Hn as (_ & Hclass & _).
  assert (Hname : forallb (fun c => filename_char c || char_eqb c DOT)
                    (sanitized_name service_name) = true).
  { rewrite forallb_forall in *. intros c Hc.
    now rewrite (lower_filename_is_filename c (Hclass c Hc)). }
  unfold generate_output_filename.
  destruct is_error; rewrite forallb_app, Hname; vm_compute; reflexivity.
Qed.

(** X13. A service name with no letter, digit or underscore in it (the
    empty name, or hyphens and characters outside [[a-zA-Z0-9_-]]
    only) gets the name [service]. *)
Theorem output_filename_fallback (service_name : text) (is_error : bool)
    (Hnone : forallb (fun c => negb (filename_char c) || is_dash c) service_name = true) :
  generate_output_filename service_name is_error =
    txt "service" ++ (if is_error then ERROR_SUFFIX else GUIDE_SUFFIX).
Proof.
  assert (Hdashes : forallb is_dash (replace_unsafe service_name) = true).
  { induction service_name as [|c s IH]; [reflexivity|]. simpl in *.
    apply andb_true_iff in Hnone as [Hc Hs]. rewrite (IH Hs), andb_true_r.
    destruct (filename_char c); [exact Hc | reflexivity]. }
  assert (Hstrip : strip_chars is_dash (collapse_dashes (replace_unsafe service_name)) = []).
  { unfold strip_chars.
    now rewrite (lstrip_chars_all is_dash _ (collapse_dashes_class is_dash _ Hdashes)). }
  unfold generate_output_filename, sanitized_name. rewrite Hstrip.
  now destruct is_error.
Qed.

Lemma output_filename_fallback_witness :
  generate_output_filename (txt "--- !!! ---") false =
    txt "service-slo-implementation-guide.md".
Proof.
  apply (output_filename_fallback (txt "--- !!! ---") false).
  vm_compute. reflexivity.
Defined.

(** X14. A name that is already in normal form is kept as it is, and
    sanitizing twice is the same as sanitizing once. *)
Theorem sanitized_name_idempotent (service_name : text) :
  (normal_name service_name -> sanitized_name service_name = service_name) /\
  sanitized_name (sanitized_name service_name) = sanitized_name service_name.
Proof.
  assert (Hfixed : forall t, normal_name t -> sanitized_name t = t).
  { intros t (Hne & Hclass & Hhead & Hlast & Hnd).
    unfold sanitized_name. cbv zeta.
    rewrite replace_unsafe_fixed.
    - rewrite (collapse_dashes_fixed t Hnd), strip_chars_keep.
      + destruct t; [congruence|]. cbn [truthy]. now apply lower_fixed.
      + intros c Hc. unfold is_dash, char_eqb.
        destruct (N.eqb_spec c DASH); [subst; contradiction | reflexivity].
      + intros c Hc. unfold is_dash, char_eqb.
        destruct (N.eqb_spec c DASH); [subst; contradiction | reflexivity].
    - rewrite forallb_forall in *. intros c Hc.
      apply lower_filename_is_filename. now apply Hclass. }
  split; [apply Hfixed|]. apply Hfixed, sanitized_name_normal.
Qed.

(** X15. The name of an error document is never the name of a guide,
    whatever the two service names are: an error document written
    under its default name cannot replace a guide. *)
Theorem error_and_guide_names_differ (service1 service2 : text) :
  generate_output_filename service1 true <> generate_output_filename service2 false.
Proof.
  unfold generate_output_filename. intros H.
  apply (f_equal (fun t => nth_error (rev t) 3)) in H.
  rewrite !rev_app_distr in H.
  change (rev ERROR_SUFFIX) with (txt "dm.RORRE-ediug-noitatnemelpmi-ols-") in H.
  change (rev GUIDE_SUFFIX) with (txt "dm.ediug-noitatnemelpmi-ols-") in H.
  cbn in H. discriminate H.
Qed.

(* ================================================================== *)
(** ** Markdown document and client set-up: properties *)
(* ================================================================== *)

Lemma ends_with_newline_app (a b : text) :
  b <> [] -> ends_with_newline (a ++ b) = ends_with_newline b.
Proof.
  intros Hb. unfold ends_with_newline. rewrite rev_app_distr.
  destruct (rev b) as [|x r] eqn:Hr; [|reflexivity].
  apply (f_equal (@rev char)) in Hr. rewrite rev_involutive in Hr. contradiction.
Qed.

Lemma ends_with_newline_snoc (a : text) : ends_with_newline (a ++ [NL]) = true.
Proof. now rewrite ends_with_newline_app by discriminate. Qed.

Lemma document_header_ends (service_name observability_platform timestamp : text) :
  ends_with_newline (document_header service_name observability_platform timestamp)
    = true.
Proof.
  unfold document_header.
  repeat (rewrite ends_with_newline_app;
          [|intros H; apply (f_equal (@length char)) in H;
            rewrite ?length_app in H; simpl in H; lia]).
  reflexivity.
Qed.

Lemma strip_not_newline_ended (t : text) : ends_with_newline (strip t) = false.
Proof.
  rewrite strip_is_strip_chars. unfold ends_with_newline.
  destruct (strip_chars_split isspace t) as (_ & _ & _ & _ & _ & _ & Hlast).
  destruct (rev (strip_chars isspace t)) as [|c r]; [reflexivity|].
  specialize (Hlast c eq_refl). unfold char_eqb.
  destruct (N.eqb_spec c NL) as [->|]; [discriminate | reflexivity].
Qed.

Lemma first_line_of_head (c : char) (t : text) :
  char_eqb c NL = false -> first_line_of (c :: t) = c :: first_line_of t.
Proof. intros H. cbn [first_line_of]. now rewrite H. Qed.

Lemma format_tail (timestamp content service_name observability_platform : text) :
  exists tail,
    format_as_markdown_document timestamp content service_name observability_platform =
      document_header service_name observability_platform timestamp ++
      with_heading content ++ tail /\
    (tail = [] \/ tail = [NL]) /\
    ends_with_newline
      (format_as_markdown_document timestamp content service_name
         observability_platform) = true.
Proof.
  unfold format_as_markdown_document. cbv zeta.
  destruct (ends_with_newline (document_header _ _ _ ++ with_heading content)) eqn:He;
    cbn [negb].
  - exists []. rewrite app_nil_r. auto.
  - exists [NL]. rewrite <- app_assoc. split; [reflexivity|]. split; [auto|].
    rewrite app_assoc. apply ends_with_newline_snoc.
Qed.

Lemma lstrip_split (t : text) :
  exists dropped, t = dropped ++ lstrip t /\ forallb isspace dropped = true.
Proof.
  induction t as [|c t (dropped & Ht & Hd)]; [exists []; now split|].
  cbn [lstrip]. destruct (isspace c) eqn:Hc.
  - exists (c :: dropped). split; [now rewrite <- app_comm_cons, <- Ht|].
    simpl. now rewrite Hc.
  - exists []. now split.
Qed.

Lemma first_line_split (t : text) :
  t = first_line_of t ++ skipn (length (first_line_of t)) t.
Proof.
  induction t as [|c t IH]; [reflexivity|]. cbn [first_line_of].
  destruct (char_eqb c NL); [reflexivity|]. cbn [length skipn app]. now rewrite <- IH.
Qed.

Lemma last_of_app (a b : text) :
  b <> [] -> hd_error (rev (a ++ b)) = hd_error (rev b).
Proof.
  intros Hb. rewrite rev_app_distr.
  destruct (rev b) as [|x r] eqn:Hr; [|reflexivity].
  apply (f_equal (@rev char)) in Hr. rewrite rev_involutive in Hr. contradiction.
Qed.

(** What follows the first line of a stripped text, once stripped on
    the left, does not end with a newline, and is empty only if
    nothing follows the first line. *)
Lemma after_first_line (t rest : text) :
  strip t = first_line_of (strip t) ++ rest -> rest <> [] ->
  lstrip rest <> [] /\ ends_with_newline (lstrip rest) = false.
Proof.
  intros Hsplit Hrest.
  pose proof (strip_is_strip_chars t) as Heq.
  destruct (strip_chars_split isspace t) as (_ & _ & _ & _ & _ & _ & Hlast).
  rewrite <- Heq in Hlast.
  destruct (lstrip_split rest) as (dropped & Hdrop & Hspaces).
  assert (Hne : lstrip rest <> []).
  { intros Hnil. rewrite Hnil, app_nil_r in Hdrop. subst dropped.
    rewrite Hsplit, (last_of_app _ rest Hrest) in Hlast.
    destruct (rev rest) as [|x r] eqn:Hr.
    - apply (f_equal (@rev char)) in Hr. rewrite rev_involutive in Hr. contradiction.
    - specialize (Hlast x eq_refl).
      rewrite forallb_forall in Hspaces.
      rewrite (Hspaces x) in Hlast; [discriminate|].
      apply in_rev. rewrite Hr. now left. }
  split; [exact Hne|].
  rewrite Hsplit, Hdrop, app_assoc, (last_of_app _ (lstrip rest) Hne) in Hlast.
  unfold ends_with_newline.
  destruct (rev (lstrip rest)) as [|x r]; [reflexivity|].
  specialize (Hlast x eq_refl). unfold char_eqb.
  destruct (N.eqb_spec x NL) as [->|]; [discriminate | reflexivity].
Qed.

(** X16. Whatever the content, the formatted document ends with a
    newline.  When the content, once stripped, does not start with
    [#]: if its first line has fewer than 100 characters, the document
    is the header, that line as a heading ([# ] before it), a blank
    line, and what follows the line, stripped on the left and ended by
    one newline; if the first line is longer, the document is the
    header, the stripped content and one newline, with no heading
    added. *)
Theorem document_body_has_heading
    (timestamp content service_name observability_platform : text) :
  let header := document_header service_name observability_platform timestamp in
  let cleaned := strip content in
  let first_line := first_line_of cleaned in
  let rest := skipn (length first_line) cleaned in
  let document :=
    format_as_markdown_document timestamp content service_name observability_platform in
  ends_with_newline document = true /\
  cleaned = first_line ++ rest /\
  (cleaned <> [] -> startswith cleaned [HASH] = false ->
   (length first_line < 100)%nat ->
   document =
     header ++ txt "# " ++ first_line ++ [NL; NL] ++
     (if truthy rest then lstrip rest ++ [NL] else [])) /\
  (startswith cleaned [HASH] = false -> (100 <= length first_line)%nat ->
   document = header ++ cleaned ++ [NL]).
Proof.
  cbv zeta.
  set (header := document_header service_name observability_platform timestamp).
  set (cleaned := strip content).
  set (first_line := first_line_of cleaned).
  set (rest := skipn (length first_line) cleaned).
  assert (Hsplit : cleaned = first_line ++ rest) by apply first_line_split.
  split; [|split; [exact Hsplit|split]].
  - destruct (format_tail timestamp content service_name observability_platform)
      as (tail & _ & _ & Hends). exact Hends.
  - intros Hne Hplain Hshort.
    assert (Hc : exists c tl, cleaned = c :: tl /\ char_eqb c NL = false /\
                   char_eqb c HASH = false).
    { pose proof (strip_is_strip_chars content) as Heq.
      destruct (strip_chars_split isspace content) as (_ & _ & _ & _ & _ & Hhead & _).
      rewrite <- Heq in Hhead. fold cleaned in Hhead.
      destruct cleaned as [|c tl]; [congruence|].
      exists c, tl. split; [reflexivity|]. split.
      - specialize (Hhead c eq_refl). unfold char_eqb.
        destruct (N.eqb_spec c NL) as [->|]; [discriminate | reflexivity].
      - cbn in Hplain. now destruct tl; rewrite ?andb_true_r in Hplain. }
    destruct Hc as (c & tl & Hcl & Hnl & Hhash).
    assert (Hbody : with_heading content =
                    txt "# " ++ first_line ++ [NL; NL] ++ lstrip rest).
    { unfold with_heading. cbv zeta. fold cleaned. rewrite Hplain. cbn [negb].
      fold first_line. unfold rest.
      assert (Hfl : first_line = c :: first_line_of tl)
        by (unfold first_line; rewrite Hcl; now apply first_line_of_head).
      replace (truthy cleaned) with true by now rewrite Hcl.
      cbv iota.
      replace (truthy first_line) with true by now rewrite Hfl.
      replace (Z.of_nat (length first_line) <? 100) with true
        by (symmetry; apply Z.ltb_lt; lia).
      replace (startswith first_line [HASH]) with false
        by (rewrite Hfl; cbn [startswith]; now rewrite Hhash).
      reflexivity. }
    unfold format_as_markdown_document. cbv zeta. fold header. rewrite Hbody.
    destruct rest as [|x rest'] eqn:Hrest; cbn [truthy].
    + cbn [lstrip].
      replace (ends_with_newline (header ++ txt "# " ++ first_line ++ [NL; NL] ++ []))
        with true; [reflexivity|].
      rewrite !app_assoc, app_nil_r. symmetry.
      now rewrite ends_with_newline_app by discriminate.
    + destruct (after_first_line content (x :: rest')) as [Hne' Hend];
        [exact Hsplit | discriminate |].
      replace (ends_with_newline
                 (header ++ txt "# " ++ first_line ++ [NL; NL] ++ lstrip (x :: rest')))
        with false.
      * cbn [negb]. now rewrite <- !app_assoc.
      * symmetry. rewrite !app_assoc.
        now rewrite ends_with_newline_app by assumption.
  - intros Hplain Hlong.
    assert (Hbody : with_heading content = cleaned).
    { unfold with_heading. cbv zeta. fold cleaned. rewrite Hplain. cbn [negb].
      destruct cleaned as [|c tl] eqn:Hcl; [reflexivity|]. cbn [truthy].
      fold first_line.
      replace (Z.of_nat (length first_line) <? 100) with false
        by (symmetry; apply Z.ltb_ge; lia).
      now rewrite andb_false_r. }
    assert (Hne : cleaned <> []).
    { intros Hnil. unfold first_line in Hlong. rewrite Hnil in Hlong.
      simpl in Hlong. lia. }
    unfold format_as_markdown_document. cbv zeta. fold header. rewrite Hbody.
    rewrite ends_with_newline_app by assumption.
    unfold cleaned at 1. rewrite strip_not_newline_ended. cbn [negb].
    now rewrite <- app_assoc.
Qed.

Lemma document_body_has_heading_witness :
  format_as_markdown_document (txt "2024-01-01 00:00:00 UTC")
    (lines ["  Checkout service guide"; ""; "First step"; "  "]%string)
    (txt "svc") (txt "Grafana") =
  document_header (txt "svc") (txt "Grafana") (txt "2024-01-01 00:00:00 UTC") ++
  lines ["# Checkout service guide"; ""; "First step"; ""]%string.
Proof.
  pose proof (document_body_has_heading (txt "2024-01-01 00:00:00 UTC")
                (lines ["  Checkout service guide"; ""; "First step"; "  "]%string)
                (txt "svc") (txt "Grafana")) as H.
  cbv zeta in H. destruct H as (_ & _ & H & _).
  rewrite H.
  - vm_compute. reflexivity.
  - vm_compute. discriminate.
  - vm_compute. reflexivity.
  - vm_compute. lia.
Defined.

(** X17. Content that starts with a heading once stripped is kept as it
    is: the document is the header, the stripped content and one
    newline. *)
Theorem heading_content_kept
    (timestamp content service_name observability_platform : text)
    (Hheading : startswith (strip content) [HASH] = true) :
  format_as_markdown_document timestamp content service_name observability_platform =
    document_header service_name observability_platform timestamp ++
    strip content ++ [NL].
Proof.
  unfold format_as_markdown_document, with_heading. cbv zeta.
  rewrite Hheading. cbn [negb].
  assert (Hne : strip content <> []) by (destruct (strip content); discriminate).
  rewrite ends_with_newline_app, strip_not_newline_ended by assumption.
  cbn [negb]. now rewrite <- app_assoc.
Qed.

Lemma heading_content_kept_witness :
  format_as_markdown_document (txt "2024-01-01 00:00:00 UTC")
    (lines [""; "# Guide"; "body"; ""]%string) (txt "svc") (txt "Grafana") =
  document_header (txt "svc") (txt "Grafana") (txt "2024-01-01 00:00:00 UTC") ++
  lines ["# Guide"; "body"; ""]%string.
Proof.
  rewrite heading_content_kept by (vm_compute; reflexivity).
  vm_compute. reflexivity.
Defined.

(** X18. Blank content (empty or whitespace only) gives the header
    alone. *)
Theorem blank_content_gives_header
    (timestamp content service_name observability_platform : text)
    (Hblank : forallb isspace content = true) :
  format_as_markdown_document timestamp content service_name observability_platform =
    document_header service_name observability_platform timestamp.
Proof.
  assert (Hbody : with_heading content = [])
    by (unfold with_heading; rewrite (strip_blank content Hblank); reflexivity).
  unfold format_as_markdown_document. cbv zeta.
  rewrite Hbody, app_nil_r, document_header_ends. reflexivity.
Qed.

Lemma blank_content_gives_header_witness :
  format_as_markdown_document (txt "now") (txt "   ") (txt "svc") (txt "Grafana") =
    document_header (txt "svc") (txt "Grafana") (txt "now").
Proof.
  apply blank_content_gives_header. vm_compute. reflexivity.
Defined.

(** X19. [initialize_openai_client] builds a client exactly when the
    key is set and has a character that is not whitespace, and then
    with that very key; an unset or empty key is reported as "not set",
    a key of whitespace only as "empty". *)
Theorem client_needs_nonblank_key (api_key : option text) :
  (forall key,
      initialize_openai_client api_key = Value key <->
      api_key = Some key /\ existsb (fun c => negb (isspace c)) key = true) /\
  (api_key = None \/ api_key = Some [] ->
   initialize_openai_client api_key =
     RaisesValueError
       (txt "OPENAI_API_KEY environment variable is not set. Please set it before running this script.")) /\
  (forall key x,
      api_key = Some (x :: key) -> forallb isspace (x :: key) = true ->
      initialize_openai_client api_key =
        RaisesValueError
          (txt "OPENAI_API_KEY environment variable is empty. Please provide a valid API key.")).
Proof.
  split; [|split].
  - intros key. split.
    + destruct api_key as [[|x k]|]; simpl; try discriminate.
      destruct (truthy (strip (x :: k))) eqn:E; simpl; [|discriminate].
      intros [= <-]. split; [reflexivity|].
      rewrite <- strip_truthy. exact E.
    + intros [-> Hex]. destruct key as [|x k]; [discriminate|].
      rewrite <- strip_truthy in Hex. simpl. now rewrite Hex.
  - intros [->| ->]; reflexivity.
  - intros key x -> Hblank. simpl. now rewrite (strip_blank _ Hblank).
Qed.

(* ================================================================== *)
(** ** utils.py: facts about matching and substitution *)
(* ================================================================== *)

Lemma text_length_ind (P : text -> Prop) :
  (forall s, (forall s', (length s' < length s)%nat -> P s') -> P s) ->
  forall s, P s.
Proof.
  intros Hstep s. remember (length s) as n eqn:Hn. revert s Hn.
  induction n as [n IH] using (well_founded_induction lt_wf).
  intros s ->. apply Hstep. intros s' Hlt. now apply (IH (length s')).
Qed.

Lemma subseq_refl (t : text) : subseq t t.
Proof. induction t; constructor; assumption. Qed.

Lemma subseq_nil_l (t : text) : subseq [] t.
Proof. induction t; constructor; assumption. Qed.

Lemma subseq_trans (a b c : text) : subseq a b -> subseq b c -> subseq a c.
Proof.
  intros Hab Hbc. revert a Hab.
  induction Hbc as [|x b c Hbc IH|x b c Hbc IH]; intros a Hab.
  - assumption.
  - inversion Hab; subst; constructor; auto.
  - constructor. auto.
Qed.

Lemma subseq_app (a b c d : text) : subseq a b -> subseq c d -> subseq (a ++ c) (b ++ d).
Proof. induction 1; intros Hcd; simpl; try constructor; auto. Qed.

Lemma subseq_skip (before t : text) : subseq t (before ++ t).
Proof. induction before; simpl; [apply subseq_refl | now constructor]. Qed.

Lemma subseq_middle (before t after : text) : subseq t (before ++ t ++ after).
Proof.
  apply (subseq_trans _ (t ++ after)); [|apply subseq_skip].
  rewrite <- (app_nil_r t) at 1. apply subseq_app; [apply subseq_refl|apply subseq_nil_l].
Qed.

(** A substitution by the empty string only leaves characters out,
    whatever the matcher. *)
Lemma sub_from_deletes (m : text -> option text) (s : text) :
  forall skip, subseq (sub_from m [] s skip) s.
Proof.
  induction s as [|c s IH]; intros skip; [constructor|].
  cbn [sub_from]. destruct skip; [|constructor; apply IH].
  destruct (m (c :: s)); [constructor; apply IH | constructor; apply IH].
Qed.

Lemma sub_from_skip (m : text -> option text) (repl passed rest : text) :
  sub_from m repl (passed ++ rest) (length passed) = sub_from m repl rest O.
Proof. induction passed as [|c passed IH]; [reflexivity | exact IH]. Qed.

(** After a match the substitution goes on with the rest. *)
Lemma sub_from_match (m : text -> option text) (repl s rest : text) :
  proper m -> m s = Some rest ->
  sub_from m repl s O = repl ++ sub_from m repl rest O /\
  (length rest < length s)%nat.
Proof.
  intros Hm Hs. destruct (Hm s rest Hs) as (w & Hw & ->).
  destruct w as [|c w]; [congruence|].
  cbn [app sub_from] in *. rewrite Hs.
  rewrite length_app, Nat.add_sub, sub_from_skip.
  split; [reflexivity | simpl; rewrite length_app; lia].
Qed.

Lemma sub_from_no_match (m : text -> option text) (repl : text) (c : char) (s : text) :
  m (c :: s) = None -> sub_from m repl (c :: s) O = c :: sub_from m repl s O.
Proof. intros H. cbn [sub_from]. now rewrite H. Qed.

(** The greedy repetition followed by nothing takes the whole run. *)
Lemma rep_takes_run (p : char -> bool) (s : text) :
  forall need,
    rep p Some need s =
    if (need <=? run p s)%nat then Some (skipn (run p s) s) else None.
Proof.
  induction s as [|c s IH]; intros need; cbn [rep run].
  - now destruct need.
  - destruct (p c) eqn:Hc.
    + rewrite IH. destruct need as [|need]; cbn [pred].
      * reflexivity.
      * cbn [Nat.leb skipn]. now destruct (need <=? run p s)%nat.
    + now destruct need.
Qed.

Lemma run_split (p : char -> bool) (s : text) :
  s = firstn (run p s) s ++ skipn (run p s) s /\
  forallb p (firstn (run p s) s) = true /\
  length (firstn (run p s) s) = run p s /\
  run p (skipn (run p s) s) = O.
Proof.
  induction s as [|c s (IH1 & IH2 & IH3 & IH4)]; [now repeat split|].
  cbn [run]. destruct (p c) eqn:Hc.
  - cbn [firstn skipn app forallb length]. rewrite Hc, IH2, IH3.
    repeat split; [now rewrite <- IH1 | assumption].
  - cbn [firstn skipn app forallb length run]. now rewrite Hc.
Qed.

Lemma startswith_repeat (x : char) (n : nat) (t : text) :
  startswith t (repeat x n) = true <-> (n <= run (only x) t)%nat.
Proof.
  revert t; induction n as [|n IH]; intros t.
  - destruct t; simpl; split; auto; lia.
  - destruct t as [|c t]; cbn [repeat startswith run].
    + split; [discriminate | lia].
    + unfold only at 1, char_eqb.
      destruct (N.eqb c x); cbn [andb]; [rewrite IH; lia | split; [discriminate | lia]].
Qed.

Lemma run_head_other (p : char -> bool) (c : char) (t : text) :
  p c = false -> run p (c :: t) = O.
Proof. intros H. cbn [run]. now rewrite H. Qed.

Lemma run_head_same (p : char -> bool) (c : char) (t : text) :
  p c = true -> run p (c :: t) = S (run p t).
Proof. intros H. cbn [run]. now rewrite H. Qed.

Lemma strip_prefix_some (old s rest : text) :
  strip_prefix old s = Some rest -> s = old ++ rest.
Proof.
  unfold strip_prefix.
  destruct (startswith s old) eqn:Hs; [|discriminate].
  apply startswith_iff in Hs as [tail ->]. intros [= <-].
  now rewrite skipn_app, skipn_all, Nat.sub_diag.
Qed.

Lemma strip_prefix_proper (old : text) : old <> [] -> proper (strip_prefix old).
Proof.
  intros Hold s rest Hs. exists old. split; [assumption|].
  now apply strip_prefix_some.
Qed.

Lemma newline_match (s : text) :
  match_here many_newlines s =
  if (10 <=? run (only NL) s)%nat then Some (skipn (run (only NL) s) s) else None.
Proof. apply rep_takes_run. Qed.

Lemma newline_match_proper : proper (match_here many_newlines).
Proof.
  intros s rest. rewrite newline_match.
  destruct (Nat.leb_spec 10 (run (only NL) s)) as [Hlong|]; [|discriminate].
  intros [= <-]. destruct (run_split (only NL) s) as (Hs & _ & Hlen & _).
  exists (firstn (run (only NL) s) s). split; [|exact Hs].
  intros Hnil. rewrite Hnil in Hlen. simpl in Hlen. lia.
Qed.

Lemma contains_suffix (before t needle : text) :
  contains (before ++ t) needle = false -> contains t needle = false.
Proof.
  intros H. apply not_true_is_false. intros Ht.
  apply (contains_inside before t [] needle) in Ht.
  rewrite app_nil_r in Ht. congruence.
Qed.

Lemma fence_start (t : text) :
  startswith t FENCE = true <-> (3 <= run (only BACKTICK) t)%nat.
Proof. apply (startswith_repeat BACKTICK 3). Qed.

Lemma contains_fence_cons (c : char) (t : text) :
  (run (only BACKTICK) (c :: t) <= 2)%nat ->
  contains t FENCE = false -> contains (c :: t) FENCE = false.
Proof.
  intros Hrun Ht. rewrite contains_cons, Ht, orb_false_r.
  apply not_true_is_false. intros Hs. apply fence_start in Hs. lia.
Qed.

Lemma run_cons_le (p : char -> bool) (c : char) (a b : text) :
  (run p a <= run p b)%nat -> (run p (c :: a) <= run p (c :: b))%nat.
Proof. intros H. cbn [run]. destruct (p c); lia. Qed.

(** Removing the fences leaves no fence. *)
Lemma fences_removed (s : text) :
  (run (only BACKTICK) (str_replace FENCE [] s) <= run (only BACKTICK) s)%nat /\
  contains (str_replace FENCE [] s) FENCE = false.
Proof.
  unfold str_replace. induction s as [s IH] using text_length_ind.
  destruct s as [|c s]; [split; [simpl; lia | reflexivity]|].
  destruct (strip_prefix FENCE (c :: s)) as [rest|] eqn:Hm.
  - destruct (sub_from_match _ [] _ _ (strip_prefix_proper FENCE ltac:(discriminate)) Hm)
      as [-> Hlen].
    destruct (IH rest Hlen) as [Hrun Hfree]. cbn [app]. split; [|exact Hfree].
    rewrite (strip_prefix_some _ _ _ Hm).
    change (FENCE ++ rest) with (BACKTICK :: BACKTICK :: BACKTICK :: rest).
    rewrite !run_head_same by reflexivity. lia.
  - rewrite (sub_from_no_match _ _ _ _ Hm).
    destruct (IH s ltac:(simpl; lia)) as [Hrun Hfree].
    assert (Hshort : (run (only BACKTICK) (c :: s) <= 2)%nat).
    { unfold strip_prefix in Hm.
      destruct (startswith (c :: s) FENCE) eqn:Hs; [discriminate|].
      destruct (Nat.le_gt_cases 3 (run (only BACKTICK) (c :: s))) as [H3|]; [|lia].
      apply fence_start in H3. congruence. }
    pose proof (run_cons_le (only BACKTICK) c _ _ Hrun) as Hc.
    split; [exact Hc|]. apply contains_fence_cons; [lia | exact Hfree].
Qed.

Lemma newlines_step (c : char) (s : text) :
  ((10 <= run (only NL) (c :: s))%nat /\ c = NL /\
   (length (skipn (run (only NL) (c :: s)) (c :: s)) < length (c :: s))%nat /\
   re_sub many_newlines [NL; NL] (c :: s) =
     NL :: NL :: re_sub many_newlines [NL; NL] (skipn (run (only NL) (c :: s)) (c :: s))) \/
  ((run (only NL) (c :: s) < 10)%nat /\
   re_sub many_newlines [NL; NL] (c :: s) = c :: re_sub many_newlines [NL; NL] s).
Proof.
  unfold re_sub.
  destruct (match_here many_newlines (c :: s)) as [rest|] eqn:Hm.
  - left. destruct (sub_from_match _ [NL; NL] _ _ newline_match_proper Hm) as [-> Hlen].
    rewrite newline_match in Hm.
    destruct (Nat.leb_spec 10 (run (only NL) (c :: s))) as [Hlong|]; [|discriminate].
    injection Hm as <-. repeat split; [assumption| |assumption].
    cbn [run] in Hlong. unfold only in Hlong.
    destruct (N.eqb_spec c NL); [assumption | lia].
  - right. rewrite (sub_from_no_match _ _ _ _ Hm). split; [|reflexivity].
    rewrite newline_match in Hm.
    destruct (Nat.leb_spec 10 (run (only NL) (c :: s))); [discriminate | assumption].
Qed.

Lemma only_differs (x y : char) : x <> y -> only x y = false.
Proof. intros H. unfold only. apply N.eqb_neq. congruence. Qed.

(** Collapsing long runs of newlines brings no fence in. *)
Lemma newlines_keep_fences_out (s : text) :
  (run (only BACKTICK) (re_sub many_newlines [NL; NL] s) <= run (only BACKTICK) s)%nat /\
  (contains s FENCE = false -> contains (re_sub many_newlines [NL; NL] s) FENCE = false).
Proof.
  induction s as [s IH] using text_length_ind.
  destruct s as [|c s]; [split; [simpl; lia | auto]|].
  destruct (newlines_step c s) as [(Hlong & -> & Hlen & ->)|(Hshort & ->)].
  - destruct (IH _ Hlen) as [_ Hfree]. split.
    + rewrite run_head_other by (apply only_differs; discriminate). lia.
    + intros Hs. destruct (run_split (only NL) (NL :: s)) as (Hsplit & _).
      rewrite Hsplit in Hs at 1. apply contains_suffix in Hs. specialize (Hfree Hs).
      apply contains_fence_cons;
        [rewrite run_head_other by (apply only_differs; discriminate); lia|].
      apply contains_fence_cons;
        [rewrite run_head_other by (apply only_differs; discriminate); lia|].
      exact Hfree.
  - destruct (IH s ltac:(simpl; lia)) as [Hrun Hfree].
    pose proof (run_cons_le (only BACKTICK) c _ _ Hrun) as Hc.
    split; [exact Hc|]. intros Hs.
    rewrite contains_cons in Hs. apply orb_false_iff in Hs as [Hstart Hrest].
    apply contains_fence_cons; [|now apply Hfree].
    destruct (Nat.le_gt_cases 3 (run (only BACKTICK) (c :: s))) as [H3|]; [|lia].
    apply fence_start in H3. congruence.
Qed.

Lemma contains_run_cons (c : char) (t : text) :
  (run (only NL) (c :: t) <= 9)%nat ->
  contains t (repeat NL 10) = false -> contains (c :: t) (repeat NL 10) = false.
Proof.
  intros Hrun Ht. rewrite contains_cons, Ht, orb_false_r.
  apply not_true_is_false. intros Hs. apply startswith_repeat in Hs. lia.
Qed.

(** After the collapse no ten newlines are left in a row. *)
Lemma long_runs_collapsed (s : text) :
  (run (only NL) (re_sub many_newlines [NL; NL] s) <= run (only NL) s)%nat /\
  (run (only NL) (re_sub many_newlines [NL; NL] s) <= 9)%nat /\
  contains (re_sub many_newlines [NL; NL] s) (repeat NL 10) = false.
Proof.
  induction s as [s IH] using text_length_ind.
  destruct s as [|c s]; [repeat split; simpl; lia|].
  destruct (newlines_step c s) as [(Hlong & -> & Hlen & ->)|(Hshort & ->)].
  - destruct (IH _ Hlen) as (Hrun & _ & Hfree).
    destruct (run_split (only NL) (NL :: s)) as (_ & _ & _ & Hzero).
    rewrite Hzero in Hrun.
    set (collapsed := re_sub many_newlines [NL; NL]
                        (skipn (run (only NL) (NL :: s)) (NL :: s))) in *.
    assert (Hone : run (only NL) (NL :: collapsed) = 1%nat)
      by (rewrite run_head_same by reflexivity; lia).
    assert (Htwo : run (only NL) (NL :: NL :: collapsed) = 2%nat)
      by (rewrite run_head_same by reflexivity; lia).
    repeat split; try lia.
    apply contains_run_cons; [lia|].
    apply contains_run_cons; [lia|].
    exact Hfree.
  - destruct (IH s ltac:(simpl; lia)) as (Hrun & _ & Hfree).
    pose proof (run_cons_le (only NL) c _ _ Hrun) as Hc.
    repeat split; try lia. apply contains_run_cons; [lia | exact Hfree].
Qed.

Lemma newlines_collapse_deletes (s : text) :
  subseq (re_sub many_newlines [NL; NL] s) s.
Proof.
  induction s as [s IH] using text_length_ind.
  destruct s as [|c s]; [constructor|].
  destruct (newlines_step c s) as [(Hlong & -> & Hlen & ->)|(Hshort & ->)].
  - destruct (run_split (only NL) (NL :: s)) as (Hsplit & Hall & Hrunlen & _).
    specialize (IH _ Hlen). rewrite Hsplit at 3.
    destruct (firstn (run (only NL) (NL :: s)) (NL :: s)) as [|x [|y w]];
      [cbn [length] in Hrunlen; lia | cbn [length] in Hrunlen; lia|].
    simpl in Hall. unfold only in Hall.
    apply andb_true_iff in Hall as [Hx Hall]. apply andb_true_iff in Hall as [Hy _].
    apply N.eqb_eq in Hx, Hy. subst x y.
    cbn [app]. do 2 constructor.
    apply (subseq_trans _ _ _ IH). apply subseq_skip.
  - constructor. apply IH. simpl. lia.
Qed.

Lemma patterns_removed_deletes (patterns : list rx) :
  forall t,
    subseq (fold_left (fun sanitized pattern => re_sub pattern [] sanitized) patterns t) t.
Proof.
  induction patterns as [|pattern patterns IH]; intros t; [apply subseq_refl|].
  cbn [fold_left]. apply (subseq_trans _ _ _ (IH _)). apply sub_from_deletes.
Qed.

Lemma strip_inside (t : text) :
  exists before after, t = before ++ strip t ++ after.
Proof.
  rewrite strip_is_strip_chars.
  destruct (strip_chars_split isspace t) as (before & after & Ht & _). eauto.
Qed.

Lemma strip_contains (t needle : text) :
  contains t needle = false -> contains (strip t) needle = false.
Proof.
  intros Ht. apply not_true_is_false. intros Hs.
  destruct (strip_inside t) as (before & after & Heq).
  apply (contains_inside before _ after) in Hs. rewrite <- Heq in Hs. congruence.
Qed.

(** X20. [sanitize_input] only deletes: its result is the input with
    some characters left out, none added, changed or moved. *)
Theorem sanitize_only_deletes (t : text) : subseq (sanitize_input t) t.
Proof.
  unfold sanitize_input. destruct t as [|c t]; [constructor|]. cbn [truthy negb].
  cbv zeta.
  destruct (strip_inside
              (re_sub many_newlines [NL; NL]
                 (str_replace FENCE []
                    (fold_left (fun sanitized pattern => re_sub pattern [] sanitized)
                       patterns_to_remove (c :: t))))) as (before & after & Heq).
  eapply subseq_trans; [apply (subseq_middle before _ after)|]. rewrite <- Heq.
  eapply subseq_trans; [apply newlines_collapse_deletes|].
  eapply subseq_trans; [apply sub_from_deletes|].
  apply patterns_removed_deletes.
Qed.

(** X21. The result of [sanitize_input] holds no code fence (three
    backticks in a row), whatever the input. *)
Theorem sanitize_leaves_no_fence (t : text) :
  contains (sanitize_input t) FENCE = false.
Proof.
  unfold sanitize_input. destruct t as [|c t]; [reflexivity|]. cbn [truthy negb].
  cbv zeta. apply strip_contains. apply newlines_keep_fences_out. apply fences_removed.
Qed.

(** X22. The result of [sanitize_input] neither begins nor ends with
    whitespace and has no ten newlines in a row; the empty text and a
    text of whitespace only give the empty text. *)
Theorem sanitize_trims (t : text) :
  (forall c, hd_error (sanitize_input t) = Some c -> isspace c = false) /\
  (forall c, hd_error (rev (sanitize_input t)) = Some c -> isspace c = false) /\
  contains (sanitize_input t) (repeat NL 10) = false /\
  (forallb isspace t = true -> sanitize_input t = []).
Proof.
  unfold sanitize_input. destruct t as [|x t]; [repeat split; try discriminate; auto|].
  cbn [truthy negb]. cbv zeta.
  set (collapsed := re_sub many_newlines [NL; NL] _).
  rewrite strip_is_strip_chars.
  destruct (strip_chars_split isspace collapsed) as (_ & _ & _ & _ & _ & Hhead & Hlast).
  repeat split; try assumption.
  - rewrite <- strip_is_strip_chars. apply strip_contains. apply long_runs_collapsed.
  - intros Hblank. rewrite <- strip_is_strip_chars. apply strip_blank.
    assert (Hsub : subseq collapsed (x :: t)).
    { eapply subseq_trans; [apply newlines_collapse_deletes|].
      eapply subseq_trans; [apply sub_from_deletes|].
      apply patterns_removed_deletes. }
    clear -Hsub Hblank. induction Hsub as [|c a b Hsub IH|c a b Hsub IH].
    + reflexivity.
    + simpl in *. apply andb_true_iff in Hblank as [-> Hb]. now apply IH.
    + simpl in Hblank. apply andb_true_iff in Hblank as [_ Hb]. now apply IH.
Qed.

(** A pattern that is found nowhere leaves the text as it is. *)
Lemma re_sub_nothing (r : rx) (repl s : text) :
  rx_search r s = false -> re_sub r repl s = s.
Proof.
  unfold re_sub. induction s as [|c s IH]; [reflexivity|].
  cbn [rx_search]. destruct (match_here r (c :: s)) eqn:Hm; [discriminate|].
  intros Hs. rewrite sub_from_no_match by exact Hm. f_equal. now apply IH.
Qed.

Lemma str_replace_nothing (old new s : text) :
  contains s old = false -> str_replace old new s = s.
Proof.
  unfold str_replace. induction s as [|c s IH]; [reflexivity|].
  rewrite contains_cons. intros H. apply orb_false_iff in H as [Hstart Hrest].
  rewrite sub_from_no_match by (unfold strip_prefix; now rewrite Hstart).
  f_equal. now apply IH.
Qed.

Lemma patterns_remove_nothing (patterns : list rx) (repl t : text) :
  Forall (fun pattern => rx_search pattern t = false) patterns ->
  fold_left (fun sanitized pattern => re_sub pattern repl sanitized) patterns t = t.
Proof.
  induction patterns as [|pattern patterns IH]; [reflexivity|].
  intros H. inversion H as [|? ? Hp Hrest]; subst. cbn [fold_left].
  rewrite re_sub_nothing by exact Hp. now apply IH.
Qed.

(** X23. A text in which none of the six patterns is found, with no
    code fence, no ten newlines in a row and no whitespace at either
    end, comes out of [sanitize_input] unchanged. *)
Theorem sanitize_keeps_clean_text (t : text) (Hclean : clean t) :
  sanitize_input t = t.
Proof.
  destruct Hclean as (Hpatterns & Hfence & Hnewlines & Hhead & Hlast).
  unfold sanitize_input. destruct t as [|c t]; [reflexivity|].
  cbn [truthy negb]. cbv zeta.
  rewrite patterns_remove_nothing by exact Hpatterns.
  rewrite str_replace_nothing by exact Hfence.
  rewrite re_sub_nothing by exact Hnewlines.
  rewrite strip_is_strip_chars. now apply strip_chars_keep.
Qed.

Lemma sanitize_keeps_clean_text_witness : sanitize_input a_clean_text = a_clean_text.
Proof.
  apply (sanitize_keeps_clean_text a_clean_text).
  unfold clean. split; [|split; [|split; [|split]]].
  - repeat (apply Forall_cons; [vm_compute; reflexivity|]). apply Forall_nil.
  - vm_compute. reflexivity.
  - vm_compute. reflexivity.
  - intros c Hc. vm_compute in Hc. injection Hc as <-. vm_compute. reflexivity.
  - intros c Hc. vm_compute in Hc. injection Hc as <-. vm_compute. reflexivity.
Defined.

(** A lower-case letter of a pattern compiled with [IGNORECASE] matches
    every character whose lower case it is. *)
Lemma ci_lower (x c : char) :
  ((97 <=? x) && (x <=? 122))%N = true -> lower_char c = x -> ci x c = true.
Proof.
  intros Hx Hl. unfold ci. rewrite Hx. to_props.
  destruct (lower_char_cases c) as [[Hrange He]|[[Hc He]|(_ & _ & _ & He)]];
    rewrite He in Hl.
  - left. left. left. right. lia.
  - right. split; [symmetry; exact Hl | exact Hc].
  - left. left. left. left. exact Hl.
Qed.

Lemma lit_i_matches (w : text) :
  forall (u : text) (k : text -> option text) (v : text),
    Forall2 (fun x c => ci x c = true) w u ->
    rx_match (lit_i w) k (u ++ v) = k v.
Proof.
  induction w as [|x w IH]; intros u k v H; inversion H as [|? c ? u' Hc Hrest]; subst.
  - reflexivity.
  - cbn [lit_i rx_match app]. rewrite Hc. now apply IH.
Qed.

Lemma lower_matches (w : text) :
  forall u : text,
    forallb (fun x => (97 <=? x) && (x <=? 122))%N w = true ->
    map lower_char u = w ->
    Forall2 (fun x c => ci x c = true) w u.
Proof.
  induction w as [|x w IH]; intros [|c u] Hw Hl; try discriminate; [constructor|].
  cbn [forallb] in Hw. apply andb_true_iff in Hw as [Hx Hw].
  injection Hl as Hc Hl. constructor; [now apply ci_lower | now apply IH].
Qed.

(** Where the lower case of a text holds a word without [i], the text
    holds characters that lower to the word one by one: the two
    characters U+0130 lowers to are [i] and U+0307. *)
Lemma lower_prefix (w : text) :
  forall content after,
    forallb (fun x => negb (x =? 105) && negb (x =? 775))%N w = true ->
    lower content = w ++ after ->
    exists u a, content = u ++ a /\ map lower_char u = w.
Proof.
  induction w as [|x w IH]; intros content after Hw Hl.
  - exists [], content. now split.
  - cbn [forallb] in Hw. apply andb_true_iff in Hw as [Hx Hw].
    destruct content as [|c content]; [discriminate|].
    unfold lower in Hl. cbn [flat_map] in Hl. unfold lower_full in Hl at 1.
    destruct (N.eqb_spec c 304) as [->|Hc].
    + injection Hl as <- _. discriminate.
    + injection Hl as Hhead Hl.
      destruct (IH content after Hw Hl) as (u & a & -> & Hu).
      exists (c :: u), a. split; [reflexivity|]. cbn [map]. now rewrite Hhead, Hu.
Qed.

Lemma lower_inside (w : text) :
  forallb (fun x => negb (x =? 105) && negb (x =? 775))%N w = true ->
  forall content before after,
    lower content = before ++ w ++ after ->
    exists b u a, content = b ++ u ++ a /\ map lower_char u = w.
Proof.
  intros Hw.
  destruct w as [|x w]; [intros whole ? ? _; exists [], [], whole; now split|].
  intros whole. induction whole as [|c whole IH]; intros before after Hl.
  - destruct before; discriminate.
  - destruct before as [|y before].
    + destruct (lower_prefix (x :: w) (c :: whole) after Hw Hl) as (u & a & Hc & Hu).
      exists [], u, a. now split.
    + assert (Hgo : forall before', lower whole = before' ++ (x :: w) ++ after ->
                exists b u a, c :: whole = b ++ u ++ a /\ map lower_char u = x :: w).
      { intros before' H. destruct (IH before' after H) as (b & u & a & -> & Hu).
        exists (c :: b), u, a. now split. }
      unfold lower in Hl. cbn [flat_map] in Hl. unfold lower_full in Hl at 1.
      destruct (N.eqb_spec c 304) as [->|Hc].
      * injection Hl as _ Hl. destruct before as [|z before].
        -- cbn [app] in Hl. injection Hl as Hx _.
           cbn [forallb] in Hw. rewrite <- Hx in Hw.
           rewrite andb_false_r in Hw. discriminate.
        -- injection Hl as _ Hl. now apply (Hgo before).
      * injection Hl as _ Hl. now apply (Hgo before).
Qed.

Lemma alt_of_matches (k : text -> option text) (s : text) (r : rx) (others : list rx) :
  forall first : rx,
    In r (first :: others) ->
    rx_match r k s <> None ->
    rx_match (alt_of first others) k s <> None.
Proof.
  induction others as [|b rest IH]; intros first Hin Hr.
  - destruct Hin as [->|[]]. exact Hr.
  - cbn [alt_of rx_match]. destruct Hin as [->|Hin].
    + destruct (rx_match r k s); [discriminate | congruence].
    + destruct (rx_match first k s); [discriminate | now apply IH].
Qed.

Lemma rx_search_inside (r : rx) (before s : text) :
  match_here r s <> None -> rx_search r (before ++ s) = true.
Proof.
  intros Hs. induction before as [|c before IH]; cbn [app].
  - destruct s; cbn [rx_search]; destruct (match_here r _); congruence.
  - cbn [rx_search]. now destruct (match_here r (c :: before ++ s)).
Qed.

(** X24. A content that holds one of the words exec, eval, system and
    subprocess, in any mix of upper and lower case, is reported by
    [detect_malicious_patterns] with the message for executable code. *)
Theorem executable_words_are_flagged
    (unicode_alnum : char -> bool) (content word : text)
    (Hword : In word executable_words)
    (Hin : contains (lower content) word = true) :
  In (txt "Executable code patterns detected")
     (detect_malicious_patterns unicode_alnum content).
Proof.
  apply contains_iff in Hin as (before & after & Hin).
  assert (Hletters : forallb (fun x => (97 <=? x) && (x <=? 122))%N word = true).
  { unfold executable_words in Hword.
    destruct Hword as [<-|[<-|[<-|[<-|[]]]]]; vm_compute; reflexivity. }
  assert (Hplain : forallb (fun x => negb (x =? 105) && negb (x =? 775))%N word = true).
  { unfold executable_words in Hword.
    destruct Hword as [<-|[<-|[<-|[<-|[]]]]]; vm_compute; reflexivity. }
  destruct (lower_inside word Hplain content before after Hin) as (b & u & a & -> & Hu).
  assert (Hmatch : match_here (lit_i word) (u ++ a) <> None).
  { unfold match_here. rewrite (lit_i_matches word u Some a); [discriminate|].
    now apply lower_matches. }
  assert (Hsearch : rx_search executable_code (b ++ u ++ a) = true).
  { apply rx_search_inside. unfold match_here, executable_code.
    apply (alt_of_matches Some (u ++ a) (lit_i word)); [|exact Hmatch].
    unfold executable_words in Hword. cbn [In] in *.
    destruct Hword as [<-|[<-|[<-|[<-|[]]]]]; auto 6. }
  unfold detect_malicious_patterns. rewrite Hsearch.
  apply in_or_app. right. apply in_or_app. left. left. reflexivity.
Qed.

Lemma executable_words_are_flagged_witness :
  In (txt "Executable code patterns detected")
     (detect_malicious_patterns (fun _ => false) shouting_eval).
Proof.
  apply (executable_words_are_flagged (fun _ => false) shouting_eval (txt "eval")).
  - right. left. reflexivity.
  - vm_compute. reflexivity.
Defined.
